(** * APK string-resource extractor: a shallow embedding and its properties

    The development follows [export_apk_strings/apk_string_extractor_local.py]
    and [export_apk_strings/apk_string_extractor_simple.py].  Python values are
    modelled as follows.

    - A [str] is the list of its Unicode code points ([N]); the classes
      [str.isspace] and [str.isdecimal], on which [str.strip], [\s] and [\d]
      rest, are the tables of the interpreter's Unicode database.
    - The [re] patterns of the source are terms of a small backtracking
      regular-expression type with the constructs the source uses.
    - A [dict] keyed by strings is a [gmap]; the per-file dictionary whose
      [items()] order is iterated is an insertion-ordered association list.
    - A [set] of strings is a [gset]. *)

From Stdlib Require Import NArith Ascii String.
From stdpp Require Import gmap strings list sorting.

Set Warnings "-register-all".

Local Open Scope N_scope.

(** ** Python strings *)

Module Py.

Definition char := N.
Definition str := list N.

(** A literal of the source, as the code points of its (ASCII) characters. *)
Definition lit (s : string) : str :=
  map N_of_ascii (list_ascii_of_string s).

(** Named characters that are awkward inside a literal. *)
Definition BACKSLASH : char := 92.
Definition DQUOTE : char := 34.
Definition SQUOTE : char := 39.
Definition NEWLINE : char := 10.
Definition TAB : char := 9.

(** [str.isspace] for one character (also the class [\s] of [re]). *)
Definition isspace (c : char) : bool :=
  ((9 <=? c) && (c <=? 13)) || ((28 <=? c) && (c <=? 32))
  || (c =? 133) || (c =? 160) || (c =? 5760)
  || ((8192 <=? c) && (c <=? 8202))
  || (c =? 8232) || (c =? 8233) || (c =? 8239) || (c =? 8287) || (c =? 12288).

(** The code points of the digit zero of every decimal-digit block
    (Unicode 14, general category Nd); each block holds ten digits. *)
Definition decimal_zeros : list N :=
  [48; 1632; 1776; 1984; 2406; 2534; 2662; 2790; 2918; 3046; 3174; 3302;
   3430; 3558; 3664; 3792; 3872; 4160; 4240; 6112; 6160; 6470; 6608; 6784;
   6800; 6992; 7088; 7232; 7248; 42528; 43216; 43264; 43472; 43504; 43600;
   44016; 65296; 66720; 68912; 69734; 69872; 69942; 70096; 70384; 70736;
   70864; 71248; 71360; 71472; 71904; 72016; 72784; 73040; 73120; 92768;
   92864; 93008; 120782; 120792; 120802; 120812; 120822; 123200; 123632;
   125264; 130032].

(** [str.isdecimal] for one character (also the class [\d] of [re]). *)
Definition isdecimal (c : char) : bool :=
  existsb (fun z => (z <=? c) && (c <? z + 10)) decimal_zeros.

(** [s.startswith(p)] *)
Fixpoint startswith (p s : str) : bool :=
  match p, s with
  | [], _ => true
  | _ :: _, [] => false
  | a :: p', b :: s' => (a =? b) && startswith p' s'
  end.

(** [p in s] for strings: [p] occurs somewhere in [s]. *)
Fixpoint contains (p s : str) : bool :=
  startswith p s || match s with [] => false | _ :: s' => contains p s' end.

(** [s.endswith(p)] *)
Definition endswith (p s : str) : bool :=
  startswith (reverse p) (reverse s).

(** The scan of [s.replace(old, new)] for a non-empty [old]: left to right,
    occurrences that do not overlap.  [skip] counts the characters of the
    occurrence just replaced that are still to be passed over. *)
Fixpoint replace_from (old new : str) (skip : nat) (s : str) : str :=
  match s with
  | [] => []
  | c :: s' =>
      match skip with
      | S k => replace_from old new k s'
      | O =>
          if startswith old s
          then new ++ replace_from old new (length old - 1) s'
          else c :: replace_from old new 0 s'
      end
  end.

(** [s.replace(old, new)]; an empty [old] matches before every character
    and at the end. *)
Definition replace (old new s : str) : str :=
  match old with
  | [] => new ++ flat_map (fun c => c :: new) s
  | _ :: _ => replace_from old new 0 s
  end.

(** [s.lstrip()], [s.rstrip()] and [s.strip()] without argument. *)
Fixpoint lstrip (s : str) : str :=
  match s with
  | c :: s' => if isspace c then lstrip s' else s
  | [] => []
  end.

Definition rstrip (s : str) : str := reverse (lstrip (reverse s)).

Definition strip (s : str) : str := rstrip (lstrip s).

(** Truthiness of a string: [not text] holds of the empty string only. *)
Definition truthy (s : str) : bool :=
  match s with [] => false | _ :: _ => true end.

(** The order of [<] on strings: lexicographic by code point. *)
Fixpoint str_ltb (a b : str) : bool :=
  match a, b with
  | _, [] => false
  | [], _ :: _ => true
  | x :: a', y :: b' => (x <? y) || ((x =? y) && str_ltb a' b')
  end.

Definition str_le (a b : str) : Prop := str_ltb b a = false.

End Py.

Import Py.

(** ** Regular expressions: the fragment of [re] the source uses *)

Module Re.

(** A pattern.  [Rep p lo] is the greedy repetition of a character class,
    at least [lo] times ([p*] is [Rep p 0], [p+] is [Rep p 1]); [Grp] is a
    capturing group; [NotAhead p] is the negative lookahead [(?!p)] on one
    character class. *)
Inductive regex : Type :=
  | Chr (c : char)
  | Cls (p : char -> bool)
  | Cat (r1 r2 : regex)
  | Rep (p : char -> bool) (lo : nat)
  | Grp (r : regex)
  | NotAhead (p : char -> bool).

Section Matcher.
Context {A : Type}.

(** Greedy repetition with backtracking: take as many characters of the
    class as there are, and give back one at a time while the rest of the
    pattern ([k]) fails, never going below [lo]. *)
Fixpoint rep (p : char -> bool) (lo : nat) (s : str)
    (k : str -> option A) : option A :=
  let stop := match lo with O => k s | S _ => None end in
  match s with
  | c :: s' =>
      if p c
      then match rep p (pred lo) s' k with
           | Some a => Some a
           | None => stop
           end
      else stop
  | [] => stop
  end.

(** The backtracking matcher.  [s] is the input still to read, [gs] the
    groups captured so far, [k] the rest of the pattern. *)
Fixpoint run (r : regex) (s : str) (gs : list str)
    (k : str -> list str -> option A) : option A :=
  match r with
  | Chr c =>
      match s with
      | x :: s' => if x =? c then k s' gs else None
      | [] => None
      end
  | Cls p =>
      match s with
      | x :: s' => if p x then k s' gs else None
      | [] => None
      end
  | Cat r1 r2 => run r1 s gs (fun s1 g1 => run r2 s1 g1 k)
  | Rep p lo => rep p lo s (fun s' => k s' gs)
  | Grp r1 =>
      run r1 s gs
        (fun s' g' => k s' (g' ++ [take (length s - length s') s]))
  | NotAhead p =>
      match s with
      | x :: _ => if p x then None else k s gs
      | [] => k s gs
      end
  end.
End Matcher.

(** A match object: where it starts, [group(0)], and the captured groups
    ([group(1)] is the first of [groups]). *)
Record Match : Type := mkMatch {
  start : nat;
  group0 : str;
  groups : list str
}.

(** The match of [r] that begins at the first character of [s], if any:
    what it consumed and what its groups captured. *)
Definition match_here (r : regex) (s : str) : option (str * list str) :=
  run r s [] (fun s' gs => Some (take (length s - length s') s, gs)).

(** [re.match(r, s)] *)
Definition rmatch (r : regex) (s : str) : option Match :=
  match match_here r s with
  | Some (g0, gs) => Some (mkMatch 0 g0 gs)
  | None => None
  end.

(** [re.search(r, s)]: the leftmost position with a match. *)
Fixpoint search_from (r : regex) (pos : nat) (s : str) : option Match :=
  match match_here r s with
  | Some (g0, gs) => Some (mkMatch pos g0 gs)
  | None =>
      match s with
      | [] => None
      | _ :: s' => search_from r (S pos) s'
      end
  end.

Definition search (r : regex) (s : str) : option Match := search_from r 0 s.

(** [re.finditer(r, s)] for a pattern that consumes at least one character:
    the matches from left to right, each search resuming where the last
    match ended. *)
Fixpoint finditer_from (r : regex) (pos skip : nat) (s : str) : list Match :=
  match s with
  | [] => []
  | _ :: s' =>
      match skip with
      | S k => finditer_from r (S pos) k s'
      | O =>
          match match_here r s with
          | Some (g0, gs) =>
              mkMatch pos g0 gs :: finditer_from r (S pos) (length g0 - 1) s'
          | None => finditer_from r (S pos) 0 s'
          end
      end
  end.

Definition finditer (r : regex) (s : str) : list Match := finditer_from r 0 0 s.

(** A replacement template: literal characters and group references
    ([\1] is [Ref 1]). *)
Inductive titem : Type :=
  | TChr (c : char)
  | TRef (n : nat).

Definition expand (t : list titem) (gs : list str) : str :=
  flat_map (fun i =>
    match i with
    | TChr c => [c]
    | TRef n => nth (pred n) gs []
    end) t.

(** [re.sub(r, template, s)] for a pattern that consumes at least one
    character. *)
Fixpoint sub_from (r : regex) (t : list titem) (skip : nat) (s : str) : str :=
  match s with
  | [] => []
  | c :: s' =>
      match skip with
      | S k => sub_from r t k s'
      | O =>
          match match_here r s with
          | Some (g0, gs) => expand t gs ++ sub_from r t (length g0 - 1) s'
          | None => c :: sub_from r t 0 s'
          end
      end
  end.

Definition sub (r : regex) (t : list titem) (s : str) : str := sub_from r t 0 s.

End Re.

(** ** Functions shared, word for word, by both extractors *)

(** [[A-Z]] *)
Definition upper (c : char) : bool := (65 <=? c) && (c <=? 90).

(** The pattern [-r([A-Z]{2})]. *)
Definition REGION_MARKER : Re.regex :=
  Re.Cat (Re.Chr 45) (Re.Cat (Re.Chr 114) (Re.Grp (Re.Cat (Re.Cls upper) (Re.Cls upper)))).

(** [_extract_language_code] *)
Definition _extract_language_code (values_dir_name : str) : str :=
  if bool_decide (values_dir_name = lit "values") then lit "default"
  else
    let lang_part := replace (lit "values-") [] values_dir_name in
    Re.sub REGION_MARKER [Re.TChr 45; Re.TRef 1] lang_part.

(** The entity decoding of [_unescape_xml], in the order of the source. *)
Definition xml_entities (text : str) : str :=
  let text := replace (lit "&lt;") (lit "<") text in
  let text := replace (lit "&gt;") (lit ">") text in
  let text := replace (lit "&amp;") (lit "&") text in
  let text := replace (lit "&quot;") [DQUOTE] text in
  replace (lit "&apos;") [SQUOTE] text.

(** The Android escapes of [_unescape_xml], one [replace] after the other. *)
Definition unescape_quote (text : str) : str := replace [BACKSLASH; DQUOTE] [DQUOTE] text.
Definition unescape_apos (text : str) : str := replace [BACKSLASH; SQUOTE] [SQUOTE] text.
Definition unescape_newline (text : str) : str := replace [BACKSLASH; 110] [NEWLINE] text.
Definition unescape_tab (text : str) : str := replace [BACKSLASH; 116] [TAB] text.
Definition collapse_backslash (text : str) : str := replace [BACKSLASH; BACKSLASH] [BACKSLASH] text.

Definition android_escapes (text : str) : str :=
  let text := unescape_quote text in
  let text := unescape_apos text in
  let text := unescape_newline text in
  let text := unescape_tab text in
  collapse_backslash text.

(** [_unescape_xml] *)
Definition _unescape_xml (text : str) : str :=
  if negb (truthy text) then []
  else strip (android_escapes (xml_entities text)).

(** ** Placeholder analysis ([apk_string_extractor_local.py]) *)

(** [[sd]] and [[0-9]] *)
Definition type_letter (c : char) : bool := (c =? 115) || (c =? 100).
Definition ascii_digit (c : char) : bool := (48 <=? c) && (c <=? 57).

(** The pattern [%(\d+)\$[sd]]. *)
Definition NUMBERED : Re.regex :=
  Re.Cat (Re.Chr 37)
    (Re.Cat (Re.Grp (Re.Rep isdecimal 1)) (Re.Cat (Re.Chr 36) (Re.Cls type_letter))).

(** The pattern [%[sd](?![0-9])]. *)
Definition SIMPLE : Re.regex :=
  Re.Cat (Re.Chr 37) (Re.Cat (Re.Cls type_letter) (Re.NotAhead ascii_digit)).

(** The loop [for match in matches: placeholders.append(match.group(0))]. *)
Definition append_matches (placeholders : list str) (matches : list Re.Match)
    : list str :=
  foldl (fun acc m => acc ++ [Re.group0 m]) placeholders matches.

(** [_extract_placeholders] *)
Definition _extract_placeholders (text : str) : list str :=
  if negb (truthy text) then []
  else
    let placeholders := [] in
    let placeholders := append_matches placeholders (Re.finditer NUMBERED text) in
    append_matches placeholders (Re.finditer SIMPLE text).

(** The inner function [normalize_to_types] of [_compare_placeholders]. *)
Definition normalize_to_types (placeholders : list str) : list str :=
  foldl (fun types ph =>
    let t := if endswith (lit "s") ph then lit "s"
             else if endswith (lit "d") ph then lit "d" else [] in
    if truthy t then types ++ [t] else types) [] placeholders.

(** [collections.Counter(l)]: how often each element occurs; an element
    that does not occur has no entry. *)
Definition Counter (l : list str) : gmap str nat :=
  foldl (fun c x => <[x := S (default 0%nat (c !! x))]> c) ∅ l.

(** [_compare_placeholders] *)
Definition _compare_placeholders (default_text other_text : str) : bool :=
  if negb (truthy default_text) || negb (truthy other_text)
  then bool_decide (default_text = other_text)
  else
    let default_placeholders := _extract_placeholders default_text in
    let other_placeholders := _extract_placeholders other_text in
    bool_decide (Counter (normalize_to_types default_placeholders)
                 = Counter (normalize_to_types other_placeholders)).

(** [translations.get(lang, "")] *)
Definition get_text (translations : gmap str str) (lang : str) : str :=
  default [] (translations !! lang).

(** [_get_placeholder_anomaly_languages] *)
Definition _get_placeholder_anomaly_languages
    (translations : gmap str str) (languages : list str) : list str :=
  if bool_decide (translations = ∅) || (length languages <=? 1)%nat then []
  else
    let default_lang := match languages with l :: _ => l | [] => lit "default" end in
    let default_text := get_text translations default_lang in
    if negb (truthy default_text) then []
    else
      foldl (fun anomaly_langs lang =>
        let other_text := get_text translations lang in
        if truthy other_text && negb (_compare_placeholders default_text other_text)
        then anomaly_langs ++ [lang] else anomaly_langs)
        [] (drop 1 languages).

(** [_count_placeholder_anomalies] *)
Definition _count_placeholder_anomalies
    (translations : gmap str str) (languages : list str) : nat :=
  length (_get_placeholder_anomaly_languages translations languages).

(** ** Values shared by the two report builders *)

(** What Python raises. *)
Inductive exn : Type :=
  | ValueError
  | RuntimeError.

Inductive outcome (A : Type) : Type :=
  | Return (a : A)
  | Raise (e : exn).
Arguments Return {A} a.
Arguments Raise {A} e.

(** The lines the extractors print that the development speaks about. *)
Inductive message : Type :=
  | UsingLanguages (languages : list str)
  | FilteredOut (languages : gset str)
  | WarnBinaryXml (path : str)
  | WarnCannotParse (path : str)
  | WarnReadFailed (path : str)
  | FoundStrings (lang_code : str) (count : nat).

(** A cell of a row: a text or a count. *)
Inductive cell : Type :=
  | CStr (s : str)
  | CInt (n : nat).

(** A row is the dictionary [row] of [create_dataframe]. *)
Record DataFrame : Type := mkDataFrame {
  columns : list str;
  data : list (gmap str cell)
}.

(** The column names ["Key"], ["缺失语言数"] and ["占位符异常"], and the
    separator ["、"]. *)
Definition KEY : str := lit "Key".
Definition MISSING_COUNT : str := [32570; 22833; 35821; 35328; 25968].
Definition PLACEHOLDER_ANOMALY : str := [21344; 20301; 31526; 24322; 24120].
Definition IDEOGRAPHIC_COMMA : str := [12289].

(** The attributes of an extractor object that the report reads. *)
Record extractor : Type := mkExtractor {
  strings_data : gmap str (gmap str str);
  languages : gset str;
  supported_languages : option (list str)
}.

#[global] Instance str_le_dec : RelDecision str_le.
Proof. intros a b. unfold str_le. apply _. Defined.

(** [sorted(s)] of a set of strings. *)
Definition sorted (s : gset str) : list str := merge_sort str_le (elements s).

(** [l.remove(x)]: the first occurrence goes. *)
Fixpoint list_remove (x : str) (l : list str) : list str :=
  match l with
  | [] => []
  | y :: l' => if bool_decide (y = x) then l' else y :: list_remove x l'
  end.

(** [sep.join(l)] *)
Fixpoint join (sep : str) (l : list str) : str :=
  match l with
  | [] => []
  | [x] => x
  | x :: l' => x ++ sep ++ join sep l'
  end.

(** The block of [create_dataframe] that chooses the languages to export
    (the same in both files), with what it prints. *)
Definition export_languages (self : extractor) : list str * list message :=
  match supported_languages self with
  | Some ((_ :: _) as supported) =>
      let langs := filter (fun lang => lang ∈ languages self) supported in
      (langs, [UsingLanguages langs;
               FilteredOut (languages self ∖ list_to_set langs)])
  | _ =>
      let langs := sorted (languages self) in
      if bool_decide (lit "default" ∈ langs)
      then (lit "default" :: list_remove (lit "default") langs, [])
      else (langs, [])
  end.

(** The loop of [create_dataframe] over the languages: it fills the cells
    of the row and counts the missing translations. *)
Definition fill_languages (translations : gmap str str) (languages : list str)
    (row : gmap str cell) : gmap str cell * nat :=
  foldl (fun '(row, missing_count) lang =>
    let translation := get_text translations lang in
    let row := <[lang := CStr translation]> row in
    (row, if negb (truthy translation) then S missing_count else missing_count))
    (row, 0%nat) languages.

(** The key under which [sort_values("Key")] orders a row. *)
Definition row_key (row : gmap str cell) : str :=
  match row !! KEY with
  | Some (CStr s) => s
  | _ => []
  end.

Definition row_le (r1 r2 : gmap str cell) : Prop := str_le (row_key r1) (row_key r2).

#[global] Instance row_le_dec : RelDecision row_le.
Proof. intros a b. unfold row_le. apply _. Defined.

(** [df.sort_values("Key")]: the rows in the order of their key cells.
    Rows with equal key cells (there are some only when an exported
    language is itself called [Key]) come in the order of this merge sort;
    the sort of pandas is not stable, and no property below depends on the
    order of such rows. *)
Definition sort_values (rows : list (gmap str cell)) : list (gmap str cell) :=
  merge_sort row_le rows.

(** ** Resource files and their parsing (shared parts) *)

(** An [xml.etree.ElementTree.Element]. *)
Inductive element : Type :=
  | Element (tag : str) (attrib : gmap str str) (text : option str)
            (children : list element) (tail : option str).

Definition tag (e : element) : str := let 'Element t _ _ _ _ := e in t.
Definition attrib (e : element) : gmap str str := let 'Element _ a _ _ _ := e in a.
Definition text (e : element) : option str := let 'Element _ _ t _ _ := e in t.
Definition children (e : element) : list element := let 'Element _ _ _ c _ := e in c.
Definition tail (e : element) : option str := let 'Element _ _ _ _ t := e in t.

(** [[t] if t else []] for a text that may be [None]. *)
Definition part (t : option str) : list str :=
  match t with
  | Some s => if truthy s then [s] else []
  | None => []
  end.

(** [_extract_element_text] *)
Fixpoint _extract_element_text (e : element) : str :=
  let 'Element _ _ text children _ := e in
  let text_parts := part text in
  let text_parts :=
    (fix loop (text_parts : list str) (cs : list element) : list str :=
       match cs with
       | [] => text_parts
       | child :: cs' =>
           let child_text := _extract_element_text child in
           let text_parts := text_parts ++ part (Some child_text) in
           let text_parts := text_parts ++ part (tail child) in
           loop text_parts cs'
       end) text_parts children in
  concat text_parts.

(** [root.findall('string')]: the children of the root with that tag. *)
Definition findall (t : str) (root : element) : list element :=
  filter (fun e => tag e = t) (children root).

(** The dictionary [strings] of one file, in insertion order. *)
Definition odict := list (str * str).

(** [d[k] = v] on an insertion-ordered dictionary. *)
Fixpoint oset (k v : str) (d : odict) : odict :=
  match d with
  | [] => [(k, v)]
  | (k', v') :: d' => if bool_decide (k' = k) then (k, v) :: d' else (k', v') :: oset k v d'
  end.

(** The loop of [parse_strings_xml] over the [string] elements of a root. *)
Definition strings_of_root (root : element) : odict :=
  foldl (fun strings string_elem =>
    match attrib string_elem !! lit "name" with
    | Some name =>
        if truthy name
        then
          let text := _extract_element_text string_elem in
          let text := _unescape_xml text in
          oset name text strings
        else strings
    | None => strings
    end) [] (findall (lit "string") root).

(** A [strings.xml] on disk: its path and the bytes that reading it gives
    ([None] when it cannot be opened). *)
Record xml_file : Type := mkXmlFile {
  path : str;
  content : option (list N)
}.

(** An entry of the [res] directory. *)
Record res_entry : Type := mkResEntry {
  entry_name : str;
  is_dir : bool;
  strings_xml : option xml_file
}.

(** The extracted package: its [res] directory, if there is one. *)
Definition res_dir := option (list res_entry).

(** [find_string_files] (the same in both files). *)
Definition find_string_files (extract_path : res_dir) : list (xml_file * str) :=
  match extract_path with
  | None => []
  | Some entries =>
      foldl (fun string_files values_dir =>
        if startswith (lit "values") (entry_name values_dir) && is_dir values_dir
        then match strings_xml values_dir with
             | Some f => string_files ++ [(f, _extract_language_code (entry_name values_dir))]
             | None => string_files
             end
        else string_files) [] entries
  end.

(** The resource table [{key: {language: value}}]. *)
Abbreviation table := (gmap str (gmap str str)).

(** The body of the loop over [strings.items()]:
    [if key not in all_strings: all_strings[key] = {}] and then
    [all_strings[key][lang_code] = value]. *)
Definition store (lang_code : str) (all_strings : table) (item : str * str) : table :=
  let '(key, value) := item in
  let all_strings :=
    match all_strings !! key with
    | None => <[key := ∅]> all_strings
    | Some _ => all_strings
    end in
  alter (fun translations => <[lang_code := value]> translations) key all_strings.

(** The loop over [strings.items()] for one file. *)
Definition store_file (lang_code : str) (strings : odict) (all_strings : table) : table :=
  foldl (store lang_code) all_strings strings.

(** One pass through that body, with the language of the file the item
    comes from: the step of the two nested loops taken as one. *)
Definition store_step (t : table) (x : str * (str * str)) : table :=
  let '(lang_code, item) := x in store lang_code t item.

(** The states a loop passes through: the one it starts from and the one
    after each iteration. *)
Fixpoint states {S A : Type} (step : S -> A -> S) (s : S) (xs : list A) : list S :=
  s :: match xs with
       | [] => []
       | x :: xs' => states step (step s x) xs'
       end.

(** The two statements of that body, one at a time:
    [if key not in all_strings: all_strings[key] = {}] and
    [all_strings[key][lang_code] = value]. *)
Inductive statement : Type :=
  | EnsureKey (key : str)
  | StoreText (lang_code key value : str).

Definition run (all_strings : table) (s : statement) : table :=
  match s with
  | EnsureKey key =>
      match all_strings !! key with
      | None => <[key := ∅]> all_strings
      | Some _ => all_strings
      end
  | StoreText lang_code key value =>
      alter (fun translations => <[lang_code := value]> translations) key all_strings
  end.

(** The statements of one pass through the body. *)
Definition body (x : str * (str * str)) : list statement :=
  let '(lang_code, (key, value)) := x in
  [EnsureKey key; StoreText lang_code key value].

(** The table after each statement of a run, with the statement that was
    executed last. *)
Fixpoint run_states (all_strings : table) (statements : list statement)
    : list (option statement * table) :=
  match statements with
  | [] => []
  | s :: rest => (Some s, run all_strings s) :: run_states (run all_strings s) rest
  end.

(** What a call of the XML library gives: the root of the document, the
    [ParseError] of the library, or another exception (a [ValueError] or
    [LookupError] for a declared encoding the library cannot handle, an
    error of the operating system). *)
Inductive xml_result : Type :=
  | Parsed (root : element)
  | ParseError
  | OtherError.

(** ** [apk_string_extractor_simple.py] *)

Module ExtractorSimple.

Definition BINARY_XML_MAGIC : list N := [3; 0; 8; 0].
Definition BINARY_TABLE_MAGIC : list N := [2; 0; 12; 0].

(** The class [[\x00-\x08\x0B\x0C\x0E-\x1F\x7F-\x9F]]. *)
Definition control (c : char) : bool :=
  (c <=? 8) || (c =? 11) || (c =? 12) || ((14 <=? c) && (c <=? 31))
  || ((127 <=? c) && (c <=? 159)).

Section WithXmlLibrary.
(** The XML library and the codec, which the program calls and does not
    define: [ET.parse] on the bytes of a file, [ET.fromstring], and
    [bytes.decode('utf-8', errors='ignore')]. *)
Variable ET_parse : list N -> xml_result.
Variable ET_fromstring : str -> xml_result.
Variable decode_utf8_ignore : list N -> str.

(** [_try_parse_binary_xml].  The inner handlers catch [ParseError] only:
    any other exception of the library reaches the outer handler, which
    prints the warning of a failed read and returns [None]. *)
Definition _try_parse_binary_xml (xml_path : xml_file) : option element * list message :=
  match content xml_path with
  | None => (None, [WarnReadFailed (path xml_path)])
  | Some content =>
      if startswith BINARY_XML_MAGIC content || startswith BINARY_TABLE_MAGIC content
      then (None, [WarnBinaryXml (path xml_path)])
      else
        match ET_parse content with
        | Parsed root => (Some root, [])
        | ParseError =>
            let content_str := decode_utf8_ignore content in
            let content_str := filter (fun c => control c = false) content_str in
            match ET_fromstring content_str with
            | Parsed root => (Some root, [])
            | ParseError => (None, [WarnCannotParse (path xml_path)])
            | OtherError => (None, [WarnReadFailed (path xml_path)])
            end
        | OtherError => (None, [WarnReadFailed (path xml_path)])
        end
  end.

(** [parse_strings_xml] *)
Definition parse_strings_xml (xml_path : xml_file) : odict * list message :=
  let strings := [] in
  let '(root, log) := _try_parse_binary_xml xml_path in
  match root with
  | None => (strings, log)
  | Some root => (strings_of_root root, log)
  end.

(** The body of the loop of [extract_all_strings] over the files; the
    state is [self.languages], [all_strings] and what was printed. *)
Definition extract_file (st : gset str * table * list message)
    (file : xml_file * str) : gset str * table * list message :=
  let '(languages, all_strings, log) := st in
  let '(xml_path, lang_code) := file in
  let '(strings, warnings) := parse_strings_xml xml_path in
  let languages := languages ∪ {[ lang_code ]} in
  let log := log ++ warnings ++ [FoundStrings lang_code (length strings)] in
  (languages, store_file lang_code strings all_strings, log).

(** [extract_all_strings]; [extracted] is what [extract_apk] gives: the
    unpacked directory, or the [RuntimeError] it raises. *)
Definition extract_all_strings (self : extractor) (extracted : outcome res_dir)
    : outcome extractor * list message :=
  match extracted with
  | Raise e => (Raise e, [])
  | Return extract_path =>
      let string_files := find_string_files extract_path in
      match string_files with
      | [] => (Raise ValueError, [])
      | _ :: _ =>
          let '(languages, all_strings, log) :=
            foldl extract_file (languages self, ∅, []) string_files in
          (Return (mkExtractor all_strings languages (supported_languages self)), log)
      end
  end.

(** Every state of the table while [extract_all_strings] runs: the empty
    table it starts from and the table after each statement of each pass
    through the body of its inner loop, with that statement. *)
Definition table_states (extract_path : res_dir) : list (option statement * table) :=
  (None, ∅) ::
  run_states ∅
    (flat_map body
       (flat_map (fun '(xml_path, lang_code) =>
                    map (fun item => (lang_code, item)) (parse_strings_xml xml_path).1)
                 (find_string_files extract_path))).
End WithXmlLibrary.

Definition make_row (languages : list str) (key : str) (translations : gmap str str)
    : gmap str cell :=
  let row := {[ KEY := CStr key ]} in
  let '(row, missing_count) := fill_languages translations languages row in
  <[MISSING_COUNT := CInt missing_count]> row.

(** [create_dataframe] *)
Definition create_dataframe (self : extractor) : outcome DataFrame * list message :=
  if bool_decide (strings_data self = ∅) then (Raise ValueError, [])
  else
    let '(languages, log) := export_languages self in
    let data := map (fun '(key, translations) => make_row languages key translations)
                    (map_to_list (strings_data self)) in
    (Return (mkDataFrame ([KEY; MISSING_COUNT] ++ languages) (sort_values data)), log).

End ExtractorSimple.

(** ** [apk_string_extractor_local.py] *)

Module ExtractorLocal.

(** A pattern that begins with the characters of [s] and goes on as [r]. *)
Definition Lit (s : str) (r : Re.regex) : Re.regex :=
  foldr (fun c r => Re.Cat (Re.Chr c) r) r s.

Definition not_space (c : char) : bool := negb (isspace c).
Definition not_rparen (c : char) : bool := negb (c =? 41).
Definition not_dquote (c : char) : bool := negb (c =? DQUOTE).

(** The pattern [string/([^\s]+)]. *)
Definition STRING_NAME : Re.regex :=
  Lit (lit "string/") (Re.Grp (Re.Rep not_space 1)).

(** The pattern of a value line: any white space, an opening parenthesis,
    the group of the characters up to the next closing parenthesis, that
    parenthesis, any white space, a double quote, the group of the
    characters up to the next double quote, and that double quote. *)
Definition VALUE_LINE : Re.regex :=
  Re.Cat (Re.Rep isspace 0)
    (Re.Cat (Re.Chr 40)
       (Re.Cat (Re.Grp (Re.Rep not_rparen 0))
          (Re.Cat (Re.Chr 41)
             (Re.Cat (Re.Rep isspace 0)
                (Re.Cat (Re.Chr DQUOTE)
                   (Re.Cat (Re.Grp (Re.Rep not_dquote 0)) (Re.Chr DQUOTE))))))).

(** [s.split(sep)] for a separator of one character. *)
Fixpoint split (sep : char) (s : str) : list str :=
  match s with
  | [] => [[]]
  | c :: s' =>
      let rest := split sep s' in
      if c =? sep then [] :: rest
      else match rest with
           | l :: ls => (c :: l) :: ls
           | [] => [[c]]
           end
  end.

(** The local variables of [_parse_aapt2_resources_output] and
    [self.languages].  The dictionaries the function creates are objects:
    [objects] holds them by reference, and [strings_data] and
    [current_string_data] hold references, so that a dictionary stored in
    [strings_data] and still bound to [current_string_data] is one object. *)
Record parser : Type := mkParser {
  objects : list (gmap str str);
  p_strings_data : gmap str nat;
  current_string_name : option str;
  current_string_data : nat;
  in_string_section : bool;
  p_languages : gset str
}.

(** The state before the first line: [current_string_data = {}] is the
    object of reference 0. *)
Definition parser_init (languages : gset str) : parser :=
  mkParser [∅] ∅ None 0 false languages.

(** Truthiness of [current_string_name] ([None] or a string). *)
Definition name_truthy (n : option str) : bool :=
  match n with
  | Some s => truthy s
  | None => false
  end.

(** Truthiness of the dictionary behind a reference. *)
Definition dict_truthy (objs : list (gmap str str)) (r : nat) : bool :=
  match objs !! r with
  | Some d => negb (bool_decide (d = ∅))
  | None => false
  end.

(** [if current_string_name and current_string_data:
       strings_data[current_string_name] = current_string_data] *)
Definition save_current (st : parser) : parser :=
  match current_string_name st with
  | Some name =>
      if truthy name && dict_truthy (objects st) (current_string_data st)
      then mkParser (objects st)
                    (<[name := current_string_data st]> (p_strings_data st))
                    (current_string_name st) (current_string_data st)
                    (in_string_section st) (p_languages st)
      else st
  | None => st
  end.

Definition set_in_string_section (b : bool) (st : parser) : parser :=
  mkParser (objects st) (p_strings_data st) (current_string_name st)
           (current_string_data st) b (p_languages st).

(** [current_string_name = name; current_string_data = {}] *)
Definition begin_string (name : str) (st : parser) : parser :=
  mkParser (objects st ++ [∅]) (p_strings_data st) (Some name)
           (length (objects st)) (in_string_section st) (p_languages st).

(** [current_string_data[language] = value; self.languages.add(language)] *)
Definition put_value (language value : str) (st : parser) : parser :=
  mkParser (alter (fun d => <[language := value]> d) (current_string_data st) (objects st))
           (p_strings_data st) (current_string_name st) (current_string_data st)
           (in_string_section st) (p_languages st ∪ {[ language ]}).

(** The body of the loop over the lines. *)
Definition parse_line (st : parser) (line : str) : parser :=
  let line := strip line in
  if contains (lit "type string") line then set_in_string_section true st
  else if in_string_section st && startswith (lit "type ") line
          && negb (contains (lit "string") line)
  then set_in_string_section false st
  else if negb (in_string_section st) then st
  else if startswith (lit "resource ") line && contains (lit "string/") line
  then
    let st := save_current st in
    match Re.search STRING_NAME line with
    | Some m => begin_string (nth 0 (Re.groups m) []) st
    | None => st
    end
  else if name_truthy (current_string_name st) && contains [DQUOTE] line
  then
    match Re.rmatch VALUE_LINE line with
    | Some m =>
        let language := nth 0 (Re.groups m) [] in
        let value := nth 1 (Re.groups m) [] in
        let language := if negb (truthy language) then lit "default" else language in
        put_value language value st
    | None => st
    end
  else st.

(** The dictionary [strings_data] as a reader sees it: every reference
    followed to its object. *)
Definition view (st : parser) : table :=
  omap (fun r => objects st !! r) (p_strings_data st).

(** [_parse_aapt2_resources_output]: the table it returns and
    [self.languages] after it. *)
Definition _parse_aapt2_resources_output (languages : gset str) (output : str)
    : table * gset str :=
  let lines := split NEWLINE output in
  let st := foldl parse_line (parser_init languages) lines in
  let st := save_current st in
  (view st, p_languages st).

(** Every state of [strings_data] while the function runs: before the
    first line, after each line, and after the statement that follows the
    loop. *)
Definition aapt2_states (languages : gset str) (output : str) : list table :=
  let sts := states parse_line (parser_init languages) (split NEWLINE output) in
  map view sts ++ [(_parse_aapt2_resources_output languages output).1].

(** [extract_strings_with_aapt2]; [stdout] is the output of
    [aapt2 dump resources] when the tool ran and returned 0, and [None]
    when it failed, timed out or could not be started. *)
Definition extract_strings_with_aapt2 (languages : gset str) (stdout : option str)
    : table * gset str :=
  match stdout with
  | Some output => _parse_aapt2_resources_output languages output
  | None => (∅, languages)
  end.

Section WithTools.
(** [parse_strings_xml] of this file asks the [aapt] tool first; it is
    taken as given here, as the dictionary it returns for a file. *)
Variable parse_strings_xml : xml_file -> odict.

(** The body of the loop of [_extract_strings_from_xml] over the files. *)
Definition extract_file (st : gset str * table) (file : xml_file * str)
    : gset str * table :=
  let '(languages, all_strings) := st in
  let '(xml_path, lang_code) := file in
  let strings := parse_strings_xml xml_path in
  let languages := languages ∪ {[ lang_code ]} in
  (languages, store_file lang_code strings all_strings).

(** [_extract_strings_from_xml]; [extracted] is what
    [extract_apk_with_aapt] gives. *)
Definition _extract_strings_from_xml (languages : gset str) (all_strings : table)
    (extracted : outcome res_dir) : outcome (gset str * table) :=
  match extracted with
  | Raise e => Raise e
  | Return extract_path =>
      let string_files := find_string_files extract_path in
      match string_files with
      | [] => Return (languages, all_strings)
      | _ :: _ => Return (foldl extract_file (languages, all_strings) string_files)
      end
  end.

(** [extract_all_strings] *)
Definition extract_all_strings (self : extractor) (stdout : option str)
    (extracted : outcome res_dir) : outcome extractor :=
  let '(all_strings, languages) := extract_strings_with_aapt2 (languages self) stdout in
  if bool_decide (all_strings = ∅)
  then
    match _extract_strings_from_xml languages all_strings extracted with
    | Raise e => Raise e
    | Return (languages, all_strings) =>
        Return (mkExtractor all_strings languages (supported_languages self))
    end
  else Return (mkExtractor all_strings languages (supported_languages self)).

(** Every state of the table while [_extract_strings_from_xml] runs on
    [all_strings]: the table it starts from and the table after each
    statement of each pass through the body of its inner loop, with that
    statement. *)
Definition xml_states (all_strings : table) (extract_path : res_dir)
    : list (option statement * table) :=
  (None, all_strings) ::
  run_states all_strings
    (flat_map body
       (flat_map (fun '(xml_path, lang_code) =>
                    map (fun item => (lang_code, item)) (parse_strings_xml xml_path))
                 (find_string_files extract_path))).

(** Every state of the table while [extract_all_strings] runs: the states
    of the parser of the tool output, and then those of the loop over the
    files. *)
Definition table_states (self : extractor) (stdout : option str)
    (extracted : outcome res_dir) : list (option statement * table) :=
  let first :=
    map (fun t => (None, t))
      match stdout with
      | Some output => aapt2_states (languages self) output
      | None => [∅]
      end in
  let '(all_strings, _) := extract_strings_with_aapt2 (languages self) stdout in
  if bool_decide (all_strings = ∅)
  then match extracted with
       | Return extract_path => first ++ xml_states all_strings extract_path
       | Raise _ => first
       end
  else first.
End WithTools.

(** The body of the loop over [self.strings_data.items()]. *)
Definition make_row (languages : list str) (key : str) (translations : gmap str str)
    : gmap str cell :=
  let row := {[ KEY := CStr key ]} in
  let '(row, missing_count) := fill_languages translations languages row in
  let row := <[MISSING_COUNT := CInt missing_count]> row in
  let anomaly_langs := _get_placeholder_anomaly_languages translations languages in
  <[PLACEHOLDER_ANOMALY := CStr (join IDEOGRAPHIC_COMMA anomaly_langs)]> row.

(** [create_dataframe] *)
Definition create_dataframe (self : extractor) : outcome DataFrame * list message :=
  if bool_decide (strings_data self = ∅) then (Raise ValueError, [])
  else
    let '(languages, log) := export_languages self in
    let data := map (fun '(key, translations) => make_row languages key translations)
                    (map_to_list (strings_data self)) in
    (Return (mkDataFrame ([KEY; MISSING_COUNT; PLACEHOLDER_ANOMALY] ++ languages)
                         (sort_values data)), log).

End ExtractorLocal.

(** * The vocabulary of the statements *)

(** [ph] is a numbered placeholder, a percent sign, decimal digits, a
    dollar sign and a type letter, and stands at position [i] of [text]. *)
Definition numbered_at (text : str) (i : nat) (ph : str) : Prop :=
  exists ds t rest,
    drop i text = ph ++ rest /\ ph = 37 :: ds ++ [36; t]
    /\ ds <> [] /\ Forall (fun c => isdecimal c = true) ds /\ type_letter t = true.

(** [ph] is a simple placeholder, a percent sign and a type letter, stands
    at position [i] of [text], and no ASCII digit follows it. *)
Definition simple_at (text : str) (i : nat) (ph : str) : Prop :=
  exists t rest,
    drop i text = ph ++ rest /\ ph = [37; t] /\ type_letter t = true
    /\ (forall c, head rest = Some c -> ascii_digit c = false).

(** How often [x] occurs in [l]. *)
Definition occurrences (l : list str) (x : str) : nat :=
  count_occ (fun a b : str => decide (a = b)) l x.

(** The type letter of a placeholder: its last character. *)
Definition letter (ph : str) : str := drop (length ph - 1) ph.

(** The text of [lang] is absent from [translations] or empty. *)
Definition is_missing (translations : gmap str str) (lang : str) : bool :=
  match translations !! lang with
  | None | Some [] => true
  | Some (_ :: _) => false
  end.

(** How many of the languages of a list are missing, and how many have a
    text. *)
Definition count_missing (translations : gmap str str) (languages : list str) : nat :=
  length (filter (fun lang => is_missing translations lang = true) languages).

Definition count_present (translations : gmap str str) (languages : list str) : nat :=
  length (filter (fun lang => is_missing translations lang = false) languages).

(** No key of the table has an empty locale mapping. *)
Definition no_empty_entry (t : table) : Prop :=
  forall key translations, t !! key = Some translations -> translations <> ∅.

(** What holds of a state of the table: right after the statement that
    creates the entry of a key, no other key has an empty locale mapping;
    in every other state no key has one. *)
Definition point_ok (p : option statement * table) : Prop :=
  match p.1 with
  | Some (EnsureKey key) =>
      forall k translations, p.2 !! k = Some translations -> translations = ∅ -> k = key
  | _ => no_empty_entry p.2
  end.

(** The invariant of [_parse_aapt2_resources_output]: every reference in
    [strings_data] leads to a dictionary that is not empty. *)
Definition parser_ok (st : ExtractorLocal.parser) : Prop :=
  forall key r, ExtractorLocal.p_strings_data st !! key = Some r ->
    exists d, ExtractorLocal.objects st !! r = Some d /\ d <> ∅.

(** The file is one that [_try_parse_binary_xml] takes for binary XML: it
    can be read and begins with one of the two magic prefixes. *)
Definition is_binary (f : xml_file) : Prop :=
  exists bytes, content f = Some bytes
    /\ (startswith ExtractorSimple.BINARY_XML_MAGIC bytes
        || startswith ExtractorSimple.BINARY_TABLE_MAGIC bytes) = true.

(** ** A package with a textual and a binary [strings.xml] *)

Module Example.

(** The bytes of [values/strings.xml]: a [resources] element with the one
    entry [greet], whose text is [Hi %s]. *)
Definition GREET_XML : list N :=
  lit "<resources><string name=" ++ [DQUOTE] ++ lit "greet" ++ [DQUOTE]
  ++ lit ">Hi %s</string></resources>".

(** The tree of that document. *)
Definition GREET_TREE : element :=
  Element (lit "resources") ∅ None
    [Element (lit "string") {[ lit "name" := lit "greet" ]} (Some (lit "Hi %s")) [] None]
    None.

(** The bytes of [values-de/strings.xml]: compiled (binary) XML. *)
Definition DE_BINARY : list N := [3; 0; 8; 0; 156; 1; 0; 0; 1; 0; 28; 0].

Definition GREET_FILE : xml_file :=
  mkXmlFile (lit "res/values/strings.xml") (Some GREET_XML).
Definition DE_FILE : xml_file :=
  mkXmlFile (lit "res/values-de/strings.xml") (Some DE_BINARY).

Definition RES : res_dir :=
  Some [mkResEntry (lit "values") true (Some GREET_FILE);
        mkResEntry (lit "values-de") true (Some DE_FILE)].

(** The XML library on the documents of this package: it parses the one
    textual document and rejects everything else. *)
Definition ET_parse (bytes : list N) : xml_result :=
  if bool_decide (bytes = GREET_XML) then Parsed GREET_TREE else ParseError.
Definition ET_fromstring (text : str) : xml_result := ParseError.
Definition decode_utf8_ignore (bytes : list N) : str := filter (fun c => c < 128) bytes.

(** The run of the simple extractor on the package, without allow-list and
    with the allow-list [de]. *)
Definition extract (allow : option (list str)) : outcome extractor * list message :=
  ExtractorSimple.extract_all_strings ET_parse ET_fromstring decode_utf8_ignore
    (mkExtractor ∅ ∅ allow) (Return RES).

End Example.

(** ** Vocabulary for the further properties *)

(** The text of an element read in document order: its own text, then for
    each child the text of the child and the tail of the child. *)
Fixpoint flatten (e : element) : str :=
  let 'Element _ _ text children _ := e in
  default [] text
  ++ concat (map (fun child => flatten child ++ default [] (tail child)) children).

(** What [parse_strings_xml] stores for a [string] element: its name, when
    it has a non-empty one, with its unescaped text. *)
Definition named_entry (e : element) : option (str * str) :=
  match attrib e !! lit "name" with
  | Some name =>
      if truthy name then Some (name, _unescape_xml (_extract_element_text e)) else None
  | None => None
  end.

(** The step of the loop of [parse_strings_xml], on the entry of an
    element. *)
Definition add_entry (strings : odict) (e : element) : odict :=
  match named_entry e with
  | Some (name, text) => oset name text strings
  | None => strings
  end.

(** The dictionary of a file as a map: every element with an entry
    inserts it. *)
Definition insert_entry (m : gmap str str) (e : element) : gmap str str :=
  match named_entry e with
  | Some (name, text) => <[name := text]> m
  | None => m
  end.

(** The entry of the [res] directory is a [values*] directory that holds
    the file [f] as its [strings.xml]. *)
Definition values_dir_with (e : res_entry) (f : xml_file) : Prop :=
  startswith (lit "values") (entry_name e) = true
  /\ is_dir e = true /\ strings_xml e = Some f.

(** Every locale for which the table holds a text is among [languages]. *)
Definition locales_within (languages : gset str) (t : table) : Prop :=
  forall key translations lang,
    t !! key = Some translations -> is_Some (translations !! lang) -> lang ∈ languages.

(** The same of the dictionaries of the aapt2 parser, stored or not. *)
Definition parser_locales_within (st : ExtractorLocal.parser) : Prop :=
  forall r d lang,
    ExtractorLocal.objects st !! r = Some d -> is_Some (d !! lang) ->
    lang ∈ ExtractorLocal.p_languages st.

(** The text the table holds for a key and a locale, if any:
    [all_strings[key][lang]]. *)
Definition table_text (t : table) (key lang : str) : option str :=
  match t !! key with
  | Some translations => translations !! lang
  | None => None
  end.

(** A key of the table of the aapt2 parser: not empty and free of white
    space. *)
Definition resource_name (key : str) : Prop :=
  key <> [] /\ Forall (fun c => isspace c = false) key.

(** The invariant behind it: the current name, the stored names, and the
    locale tags and values of every dictionary. *)
Definition parser_shapes (st : ExtractorLocal.parser) : Prop :=
  (forall name, ExtractorLocal.current_string_name st = Some name -> resource_name name)
  /\ (forall key r, ExtractorLocal.p_strings_data st !! key = Some r ->
        resource_name key)
  /\ (forall r d lang v, ExtractorLocal.objects st !! r = Some d ->
        d !! lang = Some v -> lang <> [] /\ (41 ∉ lang) /\ (DQUOTE ∉ v)).

(** ** The summary of a report *)

#[global] Instance cell_eq_dec : EqDecision cell.
Proof. solve_decision. Defined.

(** [(df["缺失语言数"] == 0).sum()] of [_print_summary]: the rows whose
    count of missing languages is 0. *)
Definition fully_translated (df : DataFrame) : nat :=
  length (filter (fun row => row !! MISSING_COUNT = Some (CInt 0)) (data df)).

(** [(df[lang] != "").sum()] of [_print_summary]: the rows whose cell in
    the column [lang] is not the empty text. *)
Definition non_empty (df : DataFrame) (lang : str) : nat :=
  length (filter (fun row => row !! lang <> Some (CStr [])) (data df)).

(** The function [_print_summary] applies to each cell of the anomaly
    column: 0 for the empty text, and else the number of parts of the cell
    between ideographic commas. *)
Definition anomaly_cell_count (x : str) : nat :=
  if bool_decide (x = []) then 0%nat else length (ExtractorLocal.split 12289 x).

(** ** The language list of a run *)

(** What reading a file in text mode makes of the line ends: a carriage
    return followed by a newline, and a carriage return alone, become a
    newline. *)
Fixpoint universal_newlines (s : str) : str :=
  match s with
  | [] => []
  | c :: s' =>
      if c =? 13
      then NEWLINE :: match s' with
                      | c' :: s'' =>
                          if c' =? NEWLINE then universal_newlines s''
                          else universal_newlines s'
                      | [] => []
                      end
      else c :: universal_newlines s'
  end.

(** The lines of a text whose line ends are newlines: every line ends
    with its newline, except the last one when the text does not end with
    a newline. *)
Fixpoint file_lines (s : str) : list str :=
  match s with
  | [] => []
  | c :: s' =>
      if c =? NEWLINE then [c] :: file_lines s'
      else match file_lines s' with
           | l :: ls => (c :: l) :: ls
           | [] => [[c]]
           end
  end.

(** [load_language_config] of [apk_string_extractor_local.py]; [content]
    is the decoded text of the configuration file, and [None] when the
    file does not exist or reading it raises.  The loop iterates over the
    lines of the file opened in text mode. *)
Definition load_language_config (content : option str) : option (list str) :=
  match content with
  | None => None
  | Some text =>
      let languages :=
        foldl (fun languages line =>
                 let line := strip line in
                 if truthy line && negb (startswith (lit "#") line)
                 then languages ++ [line] else languages)
              [] (file_lines (universal_newlines text)) in
      if bool_decide (languages = []) then None else Some languages
  end.

(** What a line of the configuration file contributes. *)
Definition config_entry (lang : str) : Prop :=
  lang <> [] /\ strip lang = lang /\ startswith (lit "#") lang = false.

(** What the constructors raise. *)
Inductive init_error : Type :=
  | FileNotFoundError
  | TypeError.

(** [APKStringExtractor.__init__] of [apk_string_extractor_local.py];
    [apk_exists] is [self.apk_path.exists()] and [read_config] gives the
    text of a configuration file.  Joining the languages for the message
    raises [TypeError] when [load_language_config] returned [None]. *)
Definition local_init (apk_exists : bool) (lang_config : option str)
    (supported_langs : option (list str)) (read_config : str -> option str)
    : init_error + extractor :=
  if negb apk_exists then inl FileNotFoundError
  else
    match supported_langs with
    | Some ((_ :: _) as langs) => inr (mkExtractor ∅ ∅ (Some langs))
    | _ =>
        match lang_config with
        | Some ((_ :: _) as path) =>
            match load_language_config (read_config path) with
            | Some langs => inr (mkExtractor ∅ ∅ (Some langs))
            | None => inl TypeError
            end
        | _ => inr (mkExtractor ∅ ∅ None)
        end
    end.

(** [APKStringExtractor.__init__] of [apk_string_extractor_simple.py]. *)
Definition simple_init (apk_exists : bool) (supported_langs : option (list str))
    : init_error + extractor :=
  if negb apk_exists then inl FileNotFoundError
  else inr (mkExtractor ∅ ∅ supported_langs).

(** The block of [main] (the same in both files) that reads the option
    [--languages]: the items between commas, stripped, without the empty
    ones. *)
Definition supported_langs_of_arg (languages : option str) : option (list str) :=
  match languages with
  | Some ((_ :: _) as arg) =>
      Some (omap (fun lang => if truthy (strip lang) then Some (strip lang) else None)
                 (ExtractorLocal.split 44 arg))
  | _ => None
  end.

(** ** [parse_strings_xml] of [apk_string_extractor_local.py] *)

Module LocalXml.

(** The pattern of a name attribute: the text [name=], a double quote, the
    group of one or more characters other than a double quote, and a
    double quote. *)
Definition NAME_ATTRIBUTE : Re.regex :=
  ExtractorLocal.Lit (lit "name=" ++ [DQUOTE])
    (Re.Cat (Re.Grp (Re.Rep ExtractorLocal.not_dquote 1)) (Re.Chr DQUOTE)).

(** The pattern of a text node: the text [T: ], a double quote, the group
    of the characters up to the next double quote, and that double quote. *)
Definition TEXT_NODE : Re.regex :=
  ExtractorLocal.Lit (lit "T: " ++ [DQUOTE])
    (Re.Cat (Re.Grp (Re.Rep ExtractorLocal.not_dquote 0)) (Re.Chr DQUOTE)).

(** The body of the loop of [_parse_aapt_xmltree_output] over the lines,
    on [strings] and [current_string_name]. *)
Definition xmltree_line (st : odict * option str) (line : str) : odict * option str :=
  let '(strings, current_string_name) := st in
  if contains (lit "E: string") line && contains (lit "name=") line
  then
    match Re.search NAME_ATTRIBUTE line with
    | Some m => (strings, Some (nth 0 (Re.groups m) []))
    | None => st
    end
  else
    match current_string_name with
    | Some name =>
        if truthy name && contains (lit "T:") line
        then
          match Re.search TEXT_NODE line with
          | Some m =>
              let text := nth 0 (Re.groups m) [] in
              (oset name (_unescape_xml text) strings, None)
          | None => st
          end
        else st
    | None => st
    end.

(** [_parse_aapt_xmltree_output] *)
Definition _parse_aapt_xmltree_output (output : str) : odict :=
  (foldl xmltree_line ([], None) (ExtractorLocal.split NEWLINE output)).1.

(** What running [aapt dump xmltree] gives: its output when it returned 0,
    a failure when it returned something else, or an exception (the tool
    is missing or timed out). *)
Inductive tool_result : Type :=
  | ToolOutput (stdout : str)
  | ToolFailed
  | ToolRaised.

(** [parse_strings_xml]; [parsed] is the root [ET.parse] gives for the
    file, and [None] when it raises. *)
Definition parse_strings_xml (aapt : tool_result) (parsed : option element) : odict :=
  let from_file :=
    match parsed with
    | Some root => strings_of_root root
    | None => []
    end in
  match aapt with
  | ToolRaised => []
  | ToolFailed => from_file
  | ToolOutput stdout =>
      match _parse_aapt_xmltree_output stdout with
      | [] => from_file
      | (_ :: _) as strings => strings
      end
  end.

End LocalXml.

(** The entries of a dictionary of one file: the name is not empty and the
    text neither begins nor ends with white space. *)
Definition trimmed (text : str) : Prop :=
  forall c, (head text = Some c -> isspace c = false)
            /\ (last text = Some c -> isspace c = false).

Definition file_entries_ok (strings : odict) : Prop :=
  NoDup (map fst strings)
  /\ forall key value, (key, value) ∈ strings -> key <> [] /\ trimmed value.

(** No key of the table is the empty string. *)
Definition keys_not_empty (t : table) : Prop :=
  forall key translations, t !! key = Some translations -> key <> [].

(** ** The name of the output file *)

(** The text before the last [sep] of [s], if [s] holds one. *)
Fixpoint before_last (sep : char) (s : str) : option str :=
  match s with
  | [] => None
  | c :: s' =>
      match before_last sep s' with
      | Some front => Some (c :: front)
      | None => if c =? sep then Some [] else None
      end
  end.

(** [s.rsplit(sep, 1)[0]] for a separator of one character. *)
Definition rsplit_head (sep : char) (s : str) : str :=
  default s (before_last sep s).

(** The values of the option [--format]. *)
Inductive format : Type :=
  | Excel
  | Csv.

Definition extension (f : format) : str :=
  match f with
  | Csv => lit ".csv"
  | Excel => lit ".xlsx"
  end.

(** The block of [main] (the same in both files) that settles
    [args.output] before the export. *)
Definition output_path (f : format) (output : str) : str :=
  if negb (endswith (extension f) output)
  then rsplit_head 46 output ++ extension f
  else output.

(** * Properties *)

(** ** The string primitives *)

Lemma startswith_spec (p s : str) :
  startswith p s = true <-> exists rest, s = p ++ rest.
Proof.
  revert s. induction p as [|a p IH]; intros s; simpl.
  - split; eauto.
  - destruct s as [|b s].
    + split; [discriminate | intros [rest H]; discriminate].
    + rewrite andb_true_iff, N.eqb_eq, IH. split.
      * intros [-> [rest ->]]. eauto.
      * intros [rest H]. injection H as -> ->. eauto.
Qed.

(** The scan of [replace] resumes right behind a replaced occurrence. *)
Lemma replace_from_skip (old new : str) (k : nat) (s : str) :
  replace_from old new k s = replace_from old new 0 (drop k s).
Proof.
  revert k. induction s as [|c s IH]; intros [|k]; simpl; try reflexivity.
  - apply IH.
Qed.

Lemma replace_cons (a : char) (old new : str) (c : char) (s : str) :
  replace (a :: old) new (c :: s) =
    if startswith (a :: old) (c :: s)
    then new ++ replace (a :: old) new (drop (length old) s)
    else c :: replace (a :: old) new s.
Proof.
  unfold replace. cbn [replace_from].
  destruct (startswith (a :: old) (c :: s)); [|reflexivity].
  cbn [length]. rewrite Nat.sub_succ, Nat.sub_0_r.
  now rewrite replace_from_skip.
Qed.

(** A text in which the first character of [old] does not occur is left
    as it is. *)
Lemma replace_absent (a : char) (old new s : str) :
  a ∉ s -> replace (a :: old) new s = s.
Proof.
  induction s as [|c s IH]; intros Hin; [reflexivity|].
  rewrite replace_cons. apply not_elem_of_cons in Hin as [Hc Hs].
  cbn [startswith]. destruct (N.eqb_spec a c) as [->|_]; [contradiction|].
  cbn [andb]. now rewrite IH.
Qed.

(** The escapes on backslash, backslash, n before a text without
    backslash: the pass for backslash-n takes the second backslash. *)
Lemma android_escapes_double_backslash_n (t : str) :
  BACKSLASH ∉ t ->
  android_escapes (BACKSLASH :: BACKSLASH :: 110 :: t) = BACKSLASH :: NEWLINE :: t.
Proof.
  intros Ht.
  assert (Hn : 92 ∉ 110 :: t).
  { apply not_elem_of_cons. split; [discriminate | assumption]. }
  assert (Hl : 92 ∉ 10 :: t).
  { apply not_elem_of_cons. split; [discriminate | assumption]. }
  unfold android_escapes, unescape_quote, unescape_apos, unescape_newline,
    unescape_tab, collapse_backslash, BACKSLASH, DQUOTE, SQUOTE, NEWLINE, TAB.
  repeat (rewrite replace_cons;
          match goal with
          | |- context [startswith ?p ?s] =>
              let b := eval cbv in (startswith p s) in
              change (startswith p s) with b
          end; cbn iota; cbn [length drop app];
          rewrite ?(replace_absent 92 _ _ _ Hn), ?(replace_absent 92 _ _ _ Hl),
                  ?(replace_absent 92 _ _ _ Ht)).
  reflexivity.
Qed.

(** ** C1: the unescaper *)

(** C1, as the code has it: for every text, [_unescape_xml] applies the
    Android escapes one after the other in the order backslash-quote,
    backslash-apostrophe, backslash-n, backslash-t, and the collapsing of a
    double backslash last, and then trims.  On the three characters
    backslash, backslash, n the pair backslash-n is therefore rewritten
    first: the escapes give a backslash and a newline, and the trimmed
    result is the single backslash; between other characters the backslash
    and the newline both stay. *)
Theorem unescape_xml_order :
  (forall (c : char) (text : str),
      _unescape_xml (c :: text) =
        strip (collapse_backslash (unescape_tab (unescape_newline
          (unescape_apos (unescape_quote (xml_entities (c :: text))))))))
  /\ _unescape_xml [] = []
  /\ (forall t : str,
        BACKSLASH ∉ t ->
        android_escapes (BACKSLASH :: BACKSLASH :: 110 :: t) = BACKSLASH :: NEWLINE :: t)
  /\ android_escapes [BACKSLASH; BACKSLASH; 110] = [BACKSLASH; NEWLINE]
  /\ _unescape_xml [BACKSLASH; BACKSLASH; 110] = [BACKSLASH]
  /\ _unescape_xml (lit "a" ++ [BACKSLASH; BACKSLASH; 110] ++ lit "b")
       = lit "a" ++ [BACKSLASH; NEWLINE] ++ lit "b"
  /\ _unescape_xml (lit "a " ++ [BACKSLASH; BACKSLASH] ++ lit " b")
       = lit "a " ++ [BACKSLASH] ++ lit " b".
Proof.
  split; [intros c text; reflexivity|].
  split; [reflexivity|].
  split; [exact android_escapes_double_backslash_n|].
  repeat split; vm_compute; reflexivity.
Qed.

(** C1, as the specification states it, fails: the unescaped text of backslash,
    backslash, n is the single backslash, and not a backslash followed by
    the letter n. *)
Lemma unescape_xml_double_backslash_n :
  _unescape_xml [BACKSLASH; BACKSLASH; 110] = [BACKSLASH]
  /\ _unescape_xml [BACKSLASH; BACKSLASH; 110] <> [BACKSLASH; 110].
Proof. split; [vm_compute; reflexivity | vm_compute; discriminate]. Qed.

(** ** C7: the locale code of a directory name *)

(** C7: [_extract_language_code] is a function of the directory name alone,
    and it maps [values] to [default], [values-en-rUS] to [en-US] and
    [values-zh] to [zh]. *)
Theorem extract_language_code_examples :
  (forall a b : str, a = b -> _extract_language_code a = _extract_language_code b)
  /\ _extract_language_code (lit "values") = lit "default"
  /\ _extract_language_code (lit "values-en-rUS") = lit "en-US"
  /\ _extract_language_code (lit "values-zh") = lit "zh".
Proof.
  split; [intros a b ->; reflexivity|].
  repeat split; vm_compute; reflexivity.
Qed.

(** ** The matcher *)

Local Ltac slia := simpl length in *; lia.

Lemma take_consumed {A : Type} (xs r : list A) :
  take (length (xs ++ r) - length r) (xs ++ r) = xs.
Proof.
  rewrite length_app, Nat.add_sub. apply take_app_length.
Qed.

Lemma take_prefix {A : Type} (xs r : list A) (n : nat) :
  n = length xs -> take n (xs ++ r) = xs.
Proof. intros ->. apply take_app_length. Qed.

(** What [rep] returns was returned by the rest of the pattern after a run
    of at least [lo] characters of the class. *)
Lemma rep_sound {A : Type} (p : char -> bool) (lo : nat) (s : str)
    (k : str -> option A) (a : A) :
  Re.rep p lo s k = Some a ->
  exists ds s', s = ds ++ s' /\ Forall (fun c => p c = true) ds
                /\ (lo <= length ds)%nat /\ k s' = Some a.
Proof.
  revert lo. induction s as [|c s IH]; intros lo H; simpl in H.
  - destruct lo; [|discriminate]. exists [], []. repeat split; auto.
  - assert (Hstop : match lo with O => k (c :: s) | S _ => None end = Some a ->
                    exists ds s', c :: s = ds ++ s' /\ Forall (fun c => p c = true) ds
                                  /\ (lo <= length ds)%nat /\ k s' = Some a).
    { destruct lo; [|discriminate]. intros Hk. exists [], (c :: s). repeat split; auto. }
    destruct (p c) eqn:Hp; [|auto].
    destruct (Re.rep p (pred lo) s k) as [a'|] eqn:Hrec; [|auto].
    injection H as ->.
    destruct (IH _ Hrec) as (ds & s' & -> & Hds & Hlo & Hk).
    exists (c :: ds), s'. repeat split; auto. simpl. lia.
Qed.

(** [rep] is greedy: when the run of the class ends where the rest of the
    pattern succeeds, that is the result. *)
Lemma rep_greedy {A : Type} (p : char -> bool) (lo : nat) (ds s' : str)
    (k : str -> option A) (a : A) :
  Forall (fun c => p c = true) ds ->
  (lo <= length ds)%nat ->
  (forall c, head s' = Some c -> p c = false) ->
  k s' = Some a ->
  Re.rep p lo (ds ++ s') k = Some a.
Proof.
  intros Hds. revert lo. induction Hds as [|c ds Hc Hds IH]; intros lo Hlo Hend Hk.
  - simpl in *. assert (lo = 0%nat) as -> by lia.
    destruct s' as [|c s']; simpl; [assumption|].
    rewrite (Hend c eq_refl). assumption.
  - simpl. rewrite Hc. rewrite IH; auto. simpl in Hlo. lia.
Qed.

(** The positions [finditer] reports increase strictly. *)
Lemma finditer_from_sorted (r : Re.regex) (s : str) (pos skip : nat) :
  StronglySorted lt (map Re.start (Re.finditer_from r pos skip s))
  /\ Forall (fun m => (pos <= Re.start m)%nat) (Re.finditer_from r pos skip s).
Proof.
  revert pos skip. induction s as [|c s IH]; intros pos skip; simpl.
  - split; constructor.
  - assert (Hweak : forall k,
      Forall (fun m => (pos <= Re.start m)%nat) (Re.finditer_from r (S pos) k s)).
    { intros k. destruct (IH (S pos) k) as [_ H].
      eapply Forall_impl; [exact H|]. simpl. intros; lia. }
    destruct skip as [|k]; [|split; [apply IH | apply Hweak]].
    destruct (Re.match_here r (c :: s)) as [[g0 gs]|]; [|split; [apply IH | apply Hweak]].
    destruct (IH (S pos) (length g0 - 1)%nat) as [Hs Hle].
    split.
    + simpl. constructor; [assumption|].
      rewrite Forall_map. eapply Forall_impl; [exact Hle|]. simpl. intros; lia.
    + constructor; [simpl; lia | apply Hweak].
Qed.

(** For a pattern whose matches cannot overlap, [finditer] reports every
    position at which the pattern matches, with the match found there. *)
Lemma finditer_from_spec (r : Re.regex) (s : str) (pos skip : nat) :
  (forall i, (i < skip)%nat -> Re.match_here r (drop i s) = None) ->
  (forall i g0 gs j, Re.match_here r (drop i s) = Some (g0, gs) ->
     (i < j < i + length g0)%nat -> Re.match_here r (drop j s) = None) ->
  forall m, m ∈ Re.finditer_from r pos skip s <->
    exists i, (i < length s)%nat /\ Re.start m = (pos + i)%nat
              /\ Re.match_here r (drop i s) = Some (Re.group0 m, Re.groups m).
Proof.
  revert pos skip. induction s as [|c s IH]; intros pos skip H1 H2 m.
  - simpl. split; [intros H; inversion H | intros (i & Hi & _); simpl in Hi; slia].
  - assert (H2' : forall i g0 gs j, Re.match_here r (drop i s) = Some (g0, gs) ->
              (i < j < i + length g0)%nat -> Re.match_here r (drop j s) = None).
    { intros i g0 gs j Hm Hj. apply (H2 (S i) g0 gs (S j)); [exact Hm | slia]. }
    assert (Hrec : forall k,
      (forall i, (i < k)%nat -> Re.match_here r (drop i s) = None) ->
      (m ∈ Re.finditer_from r (S pos) k s <->
       exists i, (0 < i < length (c :: s))%nat /\ Re.start m = (pos + i)%nat
                 /\ Re.match_here r (drop i (c :: s)) = Some (Re.group0 m, Re.groups m))).
    { intros k Hk. rewrite (IH (S pos) k Hk H2' m). split.
      - intros (i & Hi & Hst & Hm). exists (S i). simpl. repeat split; auto; slia.
      - intros ([|i] & Hi & Hst & Hm); [exfalso; slia|]. exists i. simpl in *.
        repeat split; auto; slia. }
    simpl. destruct skip as [|k].
    + destruct (Re.match_here r (c :: s)) as [[g0 gs]|] eqn:Hhere.
      * rewrite elem_of_cons, Hrec.
        -- split.
           ++ intros [-> | (i & Hi & Hst & Hm)].
              ** exists 0%nat. simpl. repeat split; auto; slia.
              ** exists i. repeat split; auto; slia.
           ++ intros ([|i] & Hi & Hst & Hm).
              ** left. simpl in Hm. rewrite Hhere in Hm. injection Hm as -> ->.
                 destruct m as [st g0' gs']. simpl in *. f_equal. slia.
              ** right. exists (S i). repeat split; auto; slia.
        -- intros i Hi. apply (H2 0%nat g0 gs (S i)); [exact Hhere | slia].
      * rewrite Hrec; [|intros i Hi; slia]. split.
        -- intros (i & Hi & Hst & Hm). exists i. repeat split; auto; slia.
        -- intros ([|i] & Hi & Hst & Hm).
           ++ simpl in Hm. congruence.
           ++ exists (S i). repeat split; auto; slia.
    + rewrite Hrec; [|intros i Hi; apply (H1 (S i)); slia]. split.
      * intros (i & Hi & Hst & Hm). exists i. repeat split; auto; slia.
      * intros ([|i] & Hi & Hst & Hm).
        -- rewrite (H1 0%nat) in Hm; [discriminate | slia].
        -- exists (S i). repeat split; auto; slia.
Qed.

(** ** The two placeholder patterns *)

Lemma isdecimal_not_special (c : char) :
  isdecimal c = true -> c <> 37 /\ c <> 36.
Proof. intros H. split; intros ->; vm_compute in H; discriminate. Qed.

Lemma type_letter_cases (t : char) :
  type_letter t = true <-> t = 115 \/ t = 100.
Proof.
  unfold type_letter. rewrite orb_true_iff, !N.eqb_eq. reflexivity.
Qed.

(** The pattern [NUMBERED] matches at the head of [s] exactly when [s]
    begins with a numbered placeholder, and then [group(0)] is that
    placeholder and [group(1)] its digits. *)
Lemma match_here_NUMBERED (s g0 : str) (gs : list str) :
  Re.match_here NUMBERED s = Some (g0, gs) <->
  exists ds t rest,
    s = g0 ++ rest /\ g0 = 37 :: ds ++ [36; t] /\ ds <> []
    /\ Forall (fun c => isdecimal c = true) ds /\ type_letter t = true /\ gs = [ds].
Proof.
  assert (E : forall ds t rest,
    (take (length (37 :: ds ++ 36 :: t :: rest) - length rest)
          (37 :: ds ++ 36 :: t :: rest),
     [] ++ [take (length (ds ++ 36 :: t :: rest) - length (36 :: t :: rest))
                 (ds ++ 36 :: t :: rest)])
    = (37 :: ds ++ [36; t], [ds])).
  { intros ds t rest. f_equal.
    - replace (37 :: ds ++ 36 :: t :: rest) with ((37 :: ds ++ [36; t]) ++ rest)
        by (simpl; now rewrite <- app_assoc).
      apply take_prefix. rewrite length_app. simpl. lia.
    - simpl app. f_equal. apply take_prefix. rewrite length_app. simpl. lia. }
  unfold Re.match_here, NUMBERED.
  change (Re.run (Re.Cat (Re.Chr 37) ?r) s [] ?k) with
    (match s with x :: s' => if x =? 37 then Re.run r s' [] k else None | [] => None end).
  split.
  - destruct s as [|x s1]; [discriminate|].
    destruct (x =? 37) eqn:Hx; [|discriminate]. apply N.eqb_eq in Hx as ->.
    cbn [Re.run]. intros H.
    apply rep_sound in H as (ds & s' & -> & Hds & Hlo & Hk).
    destruct s' as [|y s']; [discriminate|].
    destruct (y =? 36) eqn:Hy; [|discriminate]. apply N.eqb_eq in Hy as ->.
    destruct s' as [|t rest]; [discriminate|].
    destruct (type_letter t) eqn:Ht; [|discriminate].
    rewrite E in Hk. injection Hk as <- <-.
    exists ds, t, rest. repeat split; auto.
    + simpl. now rewrite <- app_assoc.
    + intros ->. simpl in Hlo. lia.
  - intros (ds & t & rest & -> & -> & Hne & Hds & Ht & ->).
    replace ((37 :: ds ++ [36; t]) ++ rest) with (37 :: ds ++ 36 :: t :: rest)
      by (simpl; now rewrite <- app_assoc).
    rewrite N.eqb_refl. cbn [Re.run].
    erewrite rep_greedy; [reflexivity | exact Hds | | | ].
    + destruct ds; [congruence | simpl; lia].
    + simpl. intros c [= <-]. reflexivity.
    + cbn beta. rewrite N.eqb_refl, Ht, E. reflexivity.
Qed.

(** The pattern [SIMPLE] matches at the head of [s] exactly when [s] begins
    with a simple placeholder that no ASCII digit follows. *)
Lemma match_here_SIMPLE (s g0 : str) (gs : list str) :
  Re.match_here SIMPLE s = Some (g0, gs) <->
  exists t rest,
    s = g0 ++ rest /\ g0 = [37; t] /\ type_letter t = true
    /\ (forall c, head rest = Some c -> ascii_digit c = false) /\ gs = [].
Proof.
  unfold Re.match_here, SIMPLE. cbn [Re.run]. split.
  - destruct s as [|x s1]; [discriminate|].
    destruct (x =? 37) eqn:Hx; [|discriminate]. apply N.eqb_eq in Hx as ->.
    destruct s1 as [|t rest]; [discriminate|].
    destruct (type_letter t) eqn:Ht; [|discriminate].
    destruct rest as [|d rest].
    + intros [= <- <-]. exists t, []. repeat split; auto. discriminate.
    + destruct (ascii_digit d) eqn:Hd; [discriminate|].
      intros [= <- <-]. exists t, (d :: rest).
      replace (S (S (length rest)) - length rest)%nat with 2%nat by lia.
      repeat split; auto. simpl. intros c [= <-]. exact Hd.
  - intros (t & rest & -> & -> & Ht & Hd & ->). simpl. rewrite Ht.
    destruct rest as [|d rest]; [reflexivity|].
    rewrite (Hd d eq_refl).
    replace (S (S (length (d :: rest))) - length (d :: rest))%nat with 2%nat by lia.
    reflexivity.
Qed.

(** Matches that begin with a percent sign and hold no other one cannot
    overlap. *)
Lemma no_overlap_by_head (r : Re.regex) :
  (forall s g0 gs, Re.match_here r s = Some (g0, gs) ->
     exists rest tl, s = g0 ++ rest /\ g0 = 37 :: tl /\ 37 ∉ tl) ->
  forall (s : str) i g0 gs j, Re.match_here r (drop i s) = Some (g0, gs) ->
    (i < j < i + length g0)%nat -> Re.match_here r (drop j s) = None.
Proof.
  intros Hr s i g0 gs j Hm Hj.
  destruct (Hr _ _ _ Hm) as (rest & tl & Hs & -> & Hin).
  destruct (Re.match_here r (drop j s)) as [[g0' gs']|] eqn:Hm'; [exfalso|reflexivity].
  destruct (Hr _ _ _ Hm') as (rest' & tl' & Hs' & -> & _).
  apply Hin.
  replace j with (i + S (j - i - 1))%nat in Hs' by lia.
  rewrite <- drop_drop, Hs in Hs'. simpl in Hs'.
  assert (Hlen : (j - i - 1 < length tl)%nat) by (simpl in Hj; lia).
  rewrite drop_app_le in Hs' by lia.
  destruct (drop (j - i - 1) tl) as [|x rest''] eqn:Hd.
  - apply (f_equal length) in Hd. rewrite length_drop in Hd. simpl in Hd. lia.
  - injection Hs' as -> _.
    apply (list_elem_of_lookup_2 tl (j - i - 1)).
    rewrite <- (Nat.add_0_r (j - i - 1)), <- lookup_drop, Hd. reflexivity.
Qed.

Lemma NUMBERED_head (s g0 : str) (gs : list str) :
  Re.match_here NUMBERED s = Some (g0, gs) ->
  exists rest tl, s = g0 ++ rest /\ g0 = 37 :: tl /\ 37 ∉ tl.
Proof.
  intros H. apply match_here_NUMBERED in H as (ds & t & rest & -> & -> & _ & Hds & Ht & _).
  exists rest, (ds ++ [36; t]). repeat split; auto.
  rewrite elem_of_app, !elem_of_cons, elem_of_nil.
  intros [Hin | [H | [H | []]]].
  - rewrite Forall_forall in Hds. apply Hds in Hin.
    apply isdecimal_not_special in Hin. tauto.
  - discriminate.
  - subst t. vm_compute in Ht. discriminate.
Qed.

Lemma SIMPLE_head (s g0 : str) (gs : list str) :
  Re.match_here SIMPLE s = Some (g0, gs) ->
  exists rest tl, s = g0 ++ rest /\ g0 = 37 :: tl /\ 37 ∉ tl.
Proof.
  intros H. apply match_here_SIMPLE in H as (t & rest & -> & -> & Ht & _).
  exists rest, [t]. repeat split; auto.
  rewrite elem_of_cons, elem_of_nil. intros [H | []].
  subst t. vm_compute in Ht. discriminate.
Qed.

(** What [finditer] finds for the two patterns. *)
Lemma finditer_NUMBERED (text : str) (i : nat) (ph : str) :
  (exists m, m ∈ Re.finditer NUMBERED text /\ Re.start m = i /\ Re.group0 m = ph)
  <-> numbered_at text i ph.
Proof.
  unfold Re.finditer, numbered_at. split.
  - intros (m & Hin & <- & <-).
    apply finditer_from_spec in Hin as (i & Hi & -> & Hm);
      [|intros; lia | apply no_overlap_by_head, NUMBERED_head].
    apply match_here_NUMBERED in Hm as (ds & t & rest & Hs & Hg & Hne & Hds & Ht & _).
    exists ds, t, rest. repeat split; auto.
  - intros (ds & t & rest & Hs & Hg & Hne & Hds & Ht).
    exists (Re.mkMatch i ph [ds]). repeat split.
    apply finditer_from_spec;
      [intros; lia | apply no_overlap_by_head, NUMBERED_head |].
    exists i. repeat split.
    + destruct (decide (i < length text)%nat) as [|Hge]; [assumption|].
      rewrite drop_ge in Hs by lia. subst ph. discriminate.
    + simpl. apply match_here_NUMBERED. exists ds, t, rest. repeat split; auto.
Qed.

Lemma finditer_SIMPLE (text : str) (i : nat) (ph : str) :
  (exists m, m ∈ Re.finditer SIMPLE text /\ Re.start m = i /\ Re.group0 m = ph)
  <-> simple_at text i ph.
Proof.
  unfold Re.finditer, simple_at. split.
  - intros (m & Hin & <- & <-).
    apply finditer_from_spec in Hin as (i & Hi & -> & Hm);
      [|intros; lia | apply no_overlap_by_head, SIMPLE_head].
    apply match_here_SIMPLE in Hm as (t & rest & Hs & Hg & Ht & Hd & _).
    exists t, rest. repeat split; auto.
  - intros (t & rest & Hs & Hg & Ht & Hd).
    exists (Re.mkMatch i ph []). repeat split.
    apply finditer_from_spec;
      [intros; lia | apply no_overlap_by_head, SIMPLE_head |].
    exists i. repeat split.
    + destruct (decide (i < length text)%nat) as [|Hge]; [assumption|].
      rewrite drop_ge in Hs by lia. subst ph. discriminate.
    + simpl. apply match_here_SIMPLE. exists t, rest. repeat split; auto.
Qed.

Lemma append_matches_map (acc : list str) (ms : list Re.Match) :
  append_matches acc ms = acc ++ map Re.group0 ms.
Proof.
  unfold append_matches. revert acc.
  induction ms as [|m ms IH]; intros acc; simpl.
  - now rewrite app_nil_r.
  - rewrite IH, <- app_assoc. reflexivity.
Qed.

Lemma _extract_placeholders_eq (text : str) :
  _extract_placeholders text =
    map Re.group0 (Re.finditer NUMBERED text) ++ map Re.group0 (Re.finditer SIMPLE text).
Proof.
  unfold _extract_placeholders. destruct text as [|c text]; [reflexivity|].
  cbn [truthy negb]. now rewrite !append_matches_map.
Qed.

(** ** C10: the order of the extracted placeholders *)

(** C10: for every text, [_extract_placeholders] returns the numbered
    placeholders of the text, all of them and in the order of their
    positions, and after them the simple placeholders, all of them and in
    the order of their positions.  So the result need not be in document
    order: in [%s %1$s] the simple placeholder stands first (position 0,
    the numbered one at position 3) and is returned last. *)
Theorem extract_placeholders_numbered_first :
  (forall text : str,
     let numbered := Re.finditer NUMBERED text in
     let simple := Re.finditer SIMPLE text in
     _extract_placeholders text = map Re.group0 numbered ++ map Re.group0 simple
     /\ StronglySorted lt (map Re.start numbered)
     /\ StronglySorted lt (map Re.start simple)
     /\ (forall i ph,
           (exists m, m ∈ numbered /\ Re.start m = i /\ Re.group0 m = ph)
           <-> numbered_at text i ph)
     /\ (forall i ph,
           (exists m, m ∈ simple /\ Re.start m = i /\ Re.group0 m = ph)
           <-> simple_at text i ph))
  /\ (let text := lit "%s %1$s" in
      simple_at text 0 (lit "%s") /\ numbered_at text 3 (lit "%1$s")
      /\ _extract_placeholders text = [lit "%1$s"; lit "%s"]).
Proof.
  split.
  - intros text numbered simple. split; [apply _extract_placeholders_eq|].
    split; [apply finditer_from_sorted|]. split; [apply finditer_from_sorted|].
    split; [apply finditer_NUMBERED | apply finditer_SIMPLE].
  - cbv zeta. split; [|split].
    + exists 115, (lit " %1$s"). repeat split; try reflexivity.
      simpl. intros c [= <-]. reflexivity.
    + exists [49], 115, []. repeat split; try reflexivity; try discriminate.
      repeat constructor.
    + vm_compute. reflexivity.
Qed.

(** ** Counters and type letters *)

Lemma Counter_fold_lookup (l : list str) (c : gmap str nat) (x : str) :
  foldl (fun c x => <[x := S (default 0%nat (c !! x))]> c) c l !! x =
    match occurrences l x with
    | O => c !! x
    | S n => Some (S n + default 0 (c !! x))%nat
    end.
Proof.
  unfold occurrences. revert c. induction l as [|y l IH]; intros c; [reflexivity|].
  cbn [foldl]. rewrite IH. destruct (decide (y = x)) as [->|Hne].
  - rewrite count_occ_cons_eq by reflexivity. rewrite lookup_insert_eq. simpl.
    destruct (count_occ _ l x); f_equal; lia.
  - rewrite count_occ_cons_neq by assumption. rewrite lookup_insert_ne by assumption.
    reflexivity.
Qed.

Lemma Counter_lookup (l : list str) (x : str) :
  Counter l !! x = match occurrences l x with O => None | S n => Some (S n) end.
Proof.
  unfold Counter. rewrite Counter_fold_lookup, lookup_empty. simpl.
  destruct (occurrences l x); [reflexivity | f_equal; lia].
Qed.

(** Two counters are equal exactly when the lists they count are equal as
    multisets. *)
Lemma Counter_eq_iff (l1 l2 : list str) :
  Counter l1 = Counter l2 <-> l1 ≡ₚ l2.
Proof.
  rewrite (Permutation_count_occ (fun a b : str => decide (a = b))). split.
  - intros H x. apply (f_equal (fun c => c !! x)) in H.
    rewrite !Counter_lookup in H. unfold occurrences in H.
    destruct (count_occ _ l1 x), (count_occ _ l2 x); congruence.
  - intros H. apply map_eq. intros x. rewrite !Counter_lookup.
    unfold occurrences. now rewrite H.
Qed.

(** Every extracted placeholder ends in its type letter. *)
Lemma extracted_ends_in_letter (text ph : str) :
  ph ∈ _extract_placeholders text ->
  exists front t, ph = front ++ [t] /\ type_letter t = true.
Proof.
  rewrite _extract_placeholders_eq, elem_of_app, !list_elem_of_fmap.
  intros [(m & -> & Hin) | (m & -> & Hin)].
  - assert (H : numbered_at text (Re.start m) (Re.group0 m))
      by (apply finditer_NUMBERED; eauto).
    destruct H as (ds & t & rest & _ & Hg & _ & _ & Ht).
    exists (37 :: ds ++ [36]), t. split; [|assumption].
    rewrite Hg. simpl. now rewrite <- app_assoc.
  - assert (H : simple_at text (Re.start m) (Re.group0 m))
      by (apply finditer_SIMPLE; eauto).
    destruct H as (t & rest & _ & Hg & Ht & _).
    exists [37], t. split; assumption.
Qed.

Lemma letter_snoc (front : str) (t : char) : letter (front ++ [t]) = [t].
Proof.
  unfold letter. rewrite length_app. simpl.
  replace (length front + 1 - 1)%nat with (length front) by lia.
  apply drop_app_length.
Qed.

Lemma endswith_snoc (c : char) (front : str) (t : char) :
  endswith [c] (front ++ [t]) = (c =? t).
Proof.
  unfold endswith. rewrite reverse_app. simpl.
  now rewrite andb_true_r.
Qed.

(** On extracted placeholders, [normalize_to_types] keeps every
    placeholder and gives its type letter. *)
Lemma normalize_to_types_letters (phs : list str) :
  Forall (fun ph => exists front t, ph = front ++ [t] /\ type_letter t = true) phs ->
  normalize_to_types phs = map letter phs.
Proof.
  unfold normalize_to_types.
  enough (H : forall acc,
    Forall (fun ph => exists front t, ph = front ++ [t] /\ type_letter t = true) phs ->
    foldl (fun types ph =>
      let t := if endswith (lit "s") ph then lit "s"
               else if endswith (lit "d") ph then lit "d" else [] in
      if truthy t then types ++ [t] else types) acc phs = acc ++ map letter phs)
    by (apply (H [])).
  induction phs as [|ph phs IH]; intros acc Hall; simpl.
  - now rewrite app_nil_r.
  - inversion Hall as [|? ? (front & t & -> & Ht) Hall']; subst.
    rewrite letter_snoc.
    match goal with
    | |- foldl ?f ?a phs = _ => replace a with (acc ++ [[t]])
    end.
    + rewrite IH by assumption. now rewrite <- app_assoc.
    + change (lit "s") with [115]. change (lit "d") with [100].
      rewrite !endswith_snoc.
      apply type_letter_cases in Ht as [-> | ->]; reflexivity.
Qed.

Lemma type_letters_of_text (text : str) :
  normalize_to_types (_extract_placeholders text)
  = map letter (_extract_placeholders text).
Proof.
  apply normalize_to_types_letters, Forall_forall.
  intros ph Hin. now apply extracted_ends_in_letter in Hin.
Qed.

(** ** C3: the placeholder comparator *)

(** C3: [_compare_placeholders] is true exactly when both texts are empty,
    or both are non-empty and their placeholders, each reduced to its type
    letter, form the same multiset.  It is true of
    [Hello %1$s, you have %2$d] and its reordered Turkish translation, and
    false of [Hello %s] and [Merhaba %d]. *)
Theorem compare_placeholders_spec :
  (forall default_text other_text : str,
     _compare_placeholders default_text other_text = true <->
       (default_text = [] /\ other_text = [])
       \/ (default_text <> [] /\ other_text <> []
           /\ map letter (_extract_placeholders default_text)
              ≡ₚ map letter (_extract_placeholders other_text)))
  /\ _compare_placeholders (lit "Hello %1$s, you have %2$d")
       (lit "%2$d i" ++ [231] ++ lit "in %1$s merhaba") = true
  /\ _compare_placeholders (lit "Hello %s") (lit "Merhaba %d") = false.
Proof.
  split; [|split; vm_compute; reflexivity].
  intros d o. unfold _compare_placeholders.
  destruct d as [|c d], o as [|c' o]; cbn [truthy negb orb].
  - rewrite bool_decide_eq_true. split; [auto | reflexivity].
  - rewrite bool_decide_eq_true. split; [discriminate|].
    intros [[_ H] | [H _]]; congruence.
  - rewrite bool_decide_eq_true. split; [discriminate|].
    intros [[H _] | [_ [H _]]]; congruence.
  - rewrite bool_decide_eq_true, Counter_eq_iff, !type_letters_of_text. split.
    + intros H. right. repeat split; [discriminate | discriminate | exact H].
    + intros [[H _] | [_ [_ H]]]; [discriminate | exact H].
Qed.

(** ** C4 and C9: the anomaly languages of a key *)

Lemma foldl_append_filter {A : Type} (cond : A -> bool) (acc l : list A) :
  foldl (fun acc x => if cond x then acc ++ [x] else acc) acc l
  = acc ++ filter (fun x => cond x = true) l.
Proof.
  revert acc. induction l as [|x l IH]; intros acc; simpl.
  - now rewrite app_nil_r.
  - rewrite IH. rewrite filter_cons. destruct (cond x); simpl.
    + destruct (decide (true = true)); [|congruence]. now rewrite <- app_assoc.
    + destruct (decide (false = true)); [discriminate | reflexivity].
Qed.

Lemma truthy_true (s : str) : truthy s = true <-> s <> [].
Proof. destruct s; simpl; split; congruence. Qed.

Lemma truthy_false (s : str) : truthy s = false <-> s = [].
Proof. destruct s; simpl; split; congruence. Qed.

(** With at least two languages, the anomaly languages are those of the
    tail that have a text which does not compare with the text of the head;
    there are none when the head has no text. *)
Lemma anomaly_languages_eq (translations : gmap str str) (first second : str)
    (rest : list str) :
  _get_placeholder_anomaly_languages translations (first :: second :: rest) =
    if truthy (get_text translations first)
    then filter (fun lang =>
           truthy (get_text translations lang)
           && negb (_compare_placeholders (get_text translations first)
                                          (get_text translations lang)) = true)
         (second :: rest)
    else [].
Proof.
  unfold _get_placeholder_anomaly_languages.
  cbn [length Nat.leb orb drop].
  destruct (bool_decide (translations = ∅)) eqn:He.
  - apply bool_decide_eq_true in He. subst.
    unfold get_text. rewrite lookup_empty. reflexivity.
  - cbn [orb]. destruct (truthy (get_text translations first)); [|reflexivity].
    cbn [negb]. rewrite (foldl_append_filter (fun lang =>
      truthy (get_text translations lang)
      && negb (_compare_placeholders (get_text translations first)
                                     (get_text translations lang)))).
    reflexivity.
Qed.

Lemma anomaly_languages_short (translations : gmap str str) (languages : list str) :
  (length languages <= 1)%nat ->
  _get_placeholder_anomaly_languages translations languages = [].
Proof.
  intros H. unfold _get_placeholder_anomaly_languages.
  destruct languages as [|a [|b l]]; simpl in H; try lia;
    cbn [length Nat.leb]; now rewrite orb_true_r.
Qed.



(** ** The rows of a report *)

Lemma sort_values_elem (rows : list (gmap str cell)) (row : gmap str cell) :
  row ∈ sort_values rows <-> row ∈ rows.
Proof.
  unfold sort_values. now rewrite (merge_sort_Permutation row_le rows).
Qed.

(** The rows of the report of [apk_string_extractor_local.py] are the rows
    built for the keys of the table, with the exported languages. *)
Lemma local_rows (self : extractor) (df : DataFrame) (log : list message) :
  ExtractorLocal.create_dataframe self = (Return df, log) ->
  columns df = [KEY; MISSING_COUNT; PLACEHOLDER_ANOMALY] ++ (export_languages self).1
  /\ forall row, row ∈ data df <->
       exists key translations,
         strings_data self !! key = Some translations
         /\ row = ExtractorLocal.make_row (export_languages self).1 key translations.
Proof.
  unfold ExtractorLocal.create_dataframe.
  destruct (bool_decide (strings_data self = ∅)); [discriminate|].
  destruct (export_languages self) as [langs log']. intros [= <- <-]. simpl.
  split; [reflexivity|]. intros row.
  rewrite sort_values_elem, list_elem_of_fmap. split.
  - intros ([key translations] & -> & Hin). apply elem_of_map_to_list in Hin. eauto.
  - intros (key & translations & Hin & ->). exists (key, translations).
    split; [reflexivity | now apply elem_of_map_to_list].
Qed.

Lemma simple_rows (self : extractor) (df : DataFrame) (log : list message) :
  ExtractorSimple.create_dataframe self = (Return df, log) ->
  columns df = [KEY; MISSING_COUNT] ++ (export_languages self).1
  /\ forall row, row ∈ data df <->
       exists key translations,
         strings_data self !! key = Some translations
         /\ row = ExtractorSimple.make_row (export_languages self).1 key translations.
Proof.
  unfold ExtractorSimple.create_dataframe.
  destruct (bool_decide (strings_data self = ∅)); [discriminate|].
  destruct (export_languages self) as [langs log']. intros [= <- <-]. simpl.
  split; [reflexivity|]. intros row.
  rewrite sort_values_elem, list_elem_of_fmap. split.
  - intros ([key translations] & -> & Hin). apply elem_of_map_to_list in Hin. eauto.
  - intros (key & translations & Hin & ->). exists (key, translations).
    split; [reflexivity | now apply elem_of_map_to_list].
Qed.

(** The anomaly cell of a row of the local report. *)
Lemma local_row_anomaly (languages : list str) (key : str)
    (translations : gmap str str) :
  ExtractorLocal.make_row languages key translations !! PLACEHOLDER_ANOMALY
  = Some (CStr (join IDEOGRAPHIC_COMMA
                  (_get_placeholder_anomaly_languages translations languages))).
Proof.
  unfold ExtractorLocal.make_row.
  destruct (fill_languages translations languages _) as [row missing_count].
  apply lookup_insert_eq.
Qed.

(** The languages exported under an allow-list. *)
Lemma export_languages_allow (self : extractor) (a : str) (allow : list str) :
  supported_languages self = Some (a :: allow) ->
  (export_languages self).1 = filter (fun lang => lang ∈ languages self) (a :: allow).
Proof. unfold export_languages. intros ->. reflexivity. Qed.

(** C9: with at least two languages, the anomaly languages are computed
    against the text of the first language of the list that is passed,
    whichever it is; the report passes the exported language list, so under
    an allow-list the anomaly cell of every row is judged against the first
    allow-listed language found in the package.  With the allow-list
    [fr, default] the row of [greet] flags [default] (judged against the
    French text), where without allow-list it flags [fr]. *)
Theorem anomaly_baseline_is_first_language :
  (forall (translations : gmap str str) (first second : str) (rest : list str),
     _get_placeholder_anomaly_languages translations (first :: second :: rest) =
       if truthy (get_text translations first)
       then filter (fun lang =>
              truthy (get_text translations lang)
              && negb (_compare_placeholders (get_text translations first)
                                             (get_text translations lang)) = true)
            (second :: rest)
       else [])
  /\ (forall (self : extractor) (a : str) (allow : list str)
        (df : DataFrame) (log : list message) (row : gmap str cell),
        supported_languages self = Some (a :: allow) ->
        ExtractorLocal.create_dataframe self = (Return df, log) ->
        row ∈ data df ->
        exists key translations,
          strings_data self !! key = Some translations
          /\ row !! PLACEHOLDER_ANOMALY =
             Some (CStr (join IDEOGRAPHIC_COMMA
               (_get_placeholder_anomaly_languages translations
                  (filter (fun lang => lang ∈ languages self) (a :: allow))))))
  /\ (let translations : gmap str str :=
        {[ lit "default" := lit "Hi %s"; lit "fr" := lit "Bonjour %d" ]} in
      let discovered : gset str := {[ lit "default"; lit "fr" ]} in
      let table : gmap str (gmap str str) := {[ lit "greet" := translations ]} in
      let allow := [lit "fr"; lit "default"] in
      (export_languages (mkExtractor table discovered (Some allow))).1 = allow
      /\ _get_placeholder_anomaly_languages translations allow = [lit "default"]
      /\ match (ExtractorLocal.create_dataframe
                  (mkExtractor table discovered (Some allow))).1 with
         | Return df =>
             map (fun row => row !! PLACEHOLDER_ANOMALY) (data df)
             = [Some (CStr (lit "default"))]
         | Raise _ => False
         end
      /\ (export_languages (mkExtractor table discovered None)).1
         = [lit "default"; lit "fr"]
      /\ _get_placeholder_anomaly_languages translations [lit "default"; lit "fr"]
         = [lit "fr"]).
Proof.
  split; [exact anomaly_languages_eq|]. split.
  - intros self a allow df log row Hallow Hdf Hrow.
    apply local_rows in Hdf as [_ Hrows]. apply Hrows in Hrow as (key & tr & Hk & ->).
    exists key, tr. split; [assumption|].
    rewrite local_row_anomaly, (export_languages_allow self a allow Hallow).
    reflexivity.
  - cbv zeta. repeat split; vm_compute; reflexivity.
Qed.


(** ** The order of strings *)

Local Ltac n_cases :=
  repeat match goal with
  | |- context [?x <? ?y] => destruct (N.ltb_spec x y)
  | |- context [?x =? ?y] => destruct (N.eqb_spec x y)
  | H : context [?x <? ?y] |- _ => destruct (N.ltb_spec x y)
  | H : context [?x =? ?y] |- _ => destruct (N.eqb_spec x y)
  end.

Lemma str_ltb_irrefl (a : str) : str_ltb a a = false.
Proof.
  induction a as [|x a IH]; simpl; [reflexivity|].
  rewrite N.ltb_irrefl, N.eqb_refl. exact IH.
Qed.

Lemma str_ltb_asym (a b : str) : str_ltb a b = true -> str_ltb b a = false.
Proof.
  revert b. induction a as [|x a IH]; intros [|y b]; simpl; try congruence.
  intros H. n_cases; simpl in *; try lia; try congruence. now apply IH.
Qed.

Lemma str_ltb_trans (a b c : str) :
  str_ltb a b = true -> str_ltb b c = true -> str_ltb a c = true.
Proof.
  revert b c. induction a as [|x a IH]; intros [|y b] [|z c]; simpl; try congruence.
  intros H1 H2. n_cases; simpl in *; try lia; try congruence. now apply (IH b).
Qed.

Lemma str_ltb_connex (a b : str) :
  str_ltb a b = false -> str_ltb b a = false -> a = b.
Proof.
  revert b. induction a as [|x a IH]; intros [|y b]; simpl; try congruence.
  intros H1 H2. n_cases; simpl in *; try lia; try congruence.
  f_equal; first [congruence | now apply IH].
Qed.

#[global] Instance str_le_total : Total str_le.
Proof.
  intros a b. unfold str_le.
  destruct (str_ltb b a) eqn:H; [right; now apply str_ltb_asym | now left].
Qed.

#[global] Instance str_le_trans : Transitive str_le.
Proof.
  intros a b c. unfold str_le. intros H1 H2.
  destruct (str_ltb c a) eqn:H; [|reflexivity].
  destruct (str_ltb b c) eqn:Hbc.
  - rewrite (str_ltb_trans b c a Hbc H) in H1. discriminate.
  - assert (b = c) as -> by now apply str_ltb_connex.
    congruence.
Qed.

#[global] Instance str_le_antisym : AntiSymm (=) str_le.
Proof. intros a b H1 H2. now apply str_ltb_connex. Qed.

(** ** C5: the exported languages *)

(** [sorted] of a set lists its elements, each once, in ascending order. *)
Lemma sorted_spec (s : gset str) :
  StronglySorted str_le (sorted s) /\ NoDup (sorted s)
  /\ forall x, x ∈ sorted s <-> x ∈ s.
Proof.
  unfold sorted. split; [apply StronglySorted_merge_sort; apply _|]. split.
  - rewrite (merge_sort_Permutation str_le (elements s)). apply NoDup_elements.
  - intros x. rewrite (merge_sort_Permutation str_le (elements s)).
    apply elem_of_elements.
Qed.

(** Removing an element that occurs once keeps the order and drops that
    element only. *)
Lemma list_remove_spec (x : str) (l : list str) :
  StronglySorted str_le l -> NoDup l ->
  StronglySorted str_le (list_remove x l) /\ NoDup (list_remove x l)
  /\ forall y, y ∈ list_remove x l <-> y ∈ l /\ y <> x.
Proof.
  induction l as [|z l IH]; intros Hs Hn; simpl.
  - split; [assumption|]. split; [assumption|].
    intros y. rewrite elem_of_nil. tauto.
  - apply StronglySorted_inv in Hs as [Hs Hz]. apply NoDup_cons in Hn as [Hzl Hn].
    destruct (bool_decide (z = x)) eqn:Hzx.
    + apply bool_decide_eq_true in Hzx as ->.
      split; [assumption|]. split; [assumption|].
      intros y. rewrite elem_of_cons. split.
      * intros Hy. split; [now right | intros ->; contradiction].
      * intros [[-> | Hy] Hne]; [contradiction | assumption].
    + apply bool_decide_eq_false in Hzx.
      destruct (IH Hs Hn) as (Hs' & Hn' & Hin'). split; [|split].
      * constructor; [assumption|]. rewrite Forall_forall in *.
        intros y Hy. apply Hz. now apply Hin' in Hy as [Hy _].
      * apply NoDup_cons. split; [|assumption].
        intros Hy. apply Hin' in Hy as [Hy _]. contradiction.
      * intros y. rewrite !elem_of_cons, Hin'. split.
        -- intros [-> | [Hy Hne]]; [split; [now left | assumption] | split; [now right | assumption]].
        -- intros [[-> | Hy] Hne]; [now left | now right].
Qed.

(** C5: under an allow-list the exported languages are the allow-list cut
    down to the discovered languages, in the order of the allow-list, and
    the discovered languages left out are printed; otherwise they are the
    discovered languages in ascending order, except that [default], when
    discovered, comes first. *)
Theorem export_languages_spec (self : extractor) :
  let discovered := languages self in
  let projected := (export_languages self).1 in
  match supported_languages self with
  | Some ((_ :: _) as allow) =>
      projected = filter (fun lang => lang ∈ discovered) allow
      /\ projected `sublist_of` allow
      /\ (forall lang, lang ∈ projected <-> lang ∈ allow /\ lang ∈ discovered)
      /\ exists excluded,
           (export_languages self).2 = [UsingLanguages projected; FilteredOut excluded]
           /\ forall lang, lang ∈ excluded <-> lang ∈ discovered /\ lang ∉ allow
  | _ =>
      exists rest,
        StronglySorted str_le rest /\ NoDup rest
        /\ if decide (lit "default" ∈ discovered)
           then projected = lit "default" :: rest
                /\ forall lang, lang ∈ rest <-> lang ∈ discovered /\ lang <> lit "default"
           else projected = rest
                /\ forall lang, lang ∈ rest <-> lang ∈ discovered
  end.
Proof.
  intros discovered projected. subst discovered projected. unfold export_languages.
  assert (Hsorted : exists rest,
    StronglySorted str_le rest /\ NoDup rest
    /\ if decide (lit "default" ∈ languages self)
       then (if bool_decide (lit "default" ∈ sorted (languages self))
             then (lit "default" :: list_remove (lit "default") (sorted (languages self)),
                   @nil message)
             else (sorted (languages self), [])).1 = lit "default" :: rest
            /\ forall lang, lang ∈ rest <-> lang ∈ languages self /\ lang <> lit "default"
       else (if bool_decide (lit "default" ∈ sorted (languages self))
             then (lit "default" :: list_remove (lit "default") (sorted (languages self)),
                   @nil message)
             else (sorted (languages self), [])).1 = rest
            /\ forall lang, lang ∈ rest <-> lang ∈ languages self).
  { destruct (sorted_spec (languages self)) as (Hs & Hn & Hin).
    destruct (decide (lit "default" ∈ languages self)) as [Hd | Hd].
    - rewrite bool_decide_eq_true_2 by now apply Hin.
      destruct (list_remove_spec (lit "default") _ Hs Hn) as (Hs' & Hn' & Hin').
      exists (list_remove (lit "default") (sorted (languages self))).
      split; [assumption|]. split; [assumption|]. split; [reflexivity|].
      intros lang. rewrite Hin', Hin. reflexivity.
    - rewrite bool_decide_eq_false_2 by (intros H; now apply Hin in H).
      exists (sorted (languages self)).
      split; [assumption|]. split; [assumption|]. split; [reflexivity | exact Hin]. }
  destruct (supported_languages self) as [[|a allow]|]; try exact Hsorted.
  cbn [fst snd]. split; [reflexivity|]. split; [apply sublist_filter|].
  split.
  - intros lang. rewrite list_elem_of_filter. tauto.
  - eexists. split; [reflexivity|]. intros lang.
    rewrite elem_of_difference, elem_of_list_to_set, list_elem_of_filter.
    tauto.
Qed.

(** ** C6: the missing count of a row *)

Lemma is_missing_spec (translations : gmap str str) (lang : str) :
  (is_missing translations lang = true <->
     translations !! lang = None \/ translations !! lang = Some [])
  /\ (is_missing translations lang = false <->
        exists text, translations !! lang = Some text /\ text <> []).
Proof.
  unfold is_missing. destruct (translations !! lang) as [[|c text]|].
  - split; split.
    + intros _. now right.
    + reflexivity.
    + discriminate.
    + intros (text' & [= <-] & H). congruence.
  - split; split.
    + discriminate.
    + intros [H | H]; discriminate.
    + intros _. eexists. split; [reflexivity | discriminate].
    + reflexivity.
  - split; split.
    + intros _. now left.
    + reflexivity.
    + discriminate.
    + intros (text' & H & _). discriminate.
Qed.

Lemma is_missing_truthy (translations : gmap str str) (lang : str) :
  negb (truthy (get_text translations lang)) = is_missing translations lang.
Proof.
  unfold get_text, is_missing.
  destruct (translations !! lang) as [[|c text]|]; reflexivity.
Qed.

(** The loop over the languages counts the missing ones. *)
Lemma fill_languages_count (translations : gmap str str) (languages : list str)
    (row : gmap str cell) :
  (fill_languages translations languages row).2 = count_missing translations languages.
Proof.
  unfold fill_languages, count_missing.
  enough (H : forall row n,
    (foldl (fun '(row, missing_count) lang =>
       let translation := get_text translations lang in
       let row := <[lang := CStr translation]> row in
       (row, if negb (truthy translation) then S missing_count else missing_count))
       (row, n) languages).2
    = (n + length (filter (fun lang => is_missing translations lang = true) languages))%nat)
    by (apply (H row 0%nat)).
  clear row. induction languages as [|lang languages IH]; intros row n; simpl.
  - lia.
  - rewrite IH, is_missing_truthy, filter_cons.
    destruct (is_missing translations lang); simpl.
    + destruct (decide (true = true)); [simpl; lia | congruence].
    + destruct (decide (false = true)); [discriminate | lia].
Qed.

(** Every language is either missing or present. *)
Lemma count_missing_present (translations : gmap str str) (languages : list str) :
  (count_missing translations languages + count_present translations languages)%nat
  = length languages.
Proof.
  unfold count_missing, count_present.
  induction languages as [|lang languages IH]; [reflexivity|].
  rewrite !filter_cons. destruct (is_missing translations lang).
  - destruct (decide (true = true)); [|congruence].
    destruct (decide (true = false)); [discriminate|]. simpl. lia.
  - destruct (decide (false = true)); [discriminate|].
    destruct (decide (false = false)); [|congruence]. simpl. lia.
Qed.

Lemma local_row_missing (languages : list str) (key : str)
    (translations : gmap str str) :
  ExtractorLocal.make_row languages key translations !! MISSING_COUNT
  = Some (CInt (count_missing translations languages)).
Proof.
  unfold ExtractorLocal.make_row.
  pose proof (fill_languages_count translations languages {[ KEY := CStr key ]}) as H.
  destruct (fill_languages translations languages _) as [row missing_count].
  simpl in H. subst missing_count.
  rewrite lookup_insert_ne by (vm_compute; discriminate).
  apply lookup_insert_eq.
Qed.

Lemma simple_row_missing (languages : list str) (key : str)
    (translations : gmap str str) :
  ExtractorSimple.make_row languages key translations !! MISSING_COUNT
  = Some (CInt (count_missing translations languages)).
Proof.
  unfold ExtractorSimple.make_row.
  pose proof (fill_languages_count translations languages {[ KEY := CStr key ]}) as H.
  destruct (fill_languages translations languages _) as [row missing_count].
  simpl in H. subst missing_count.
  apply lookup_insert_eq.
Qed.

(** The cell of an exported language in a row. *)
Lemma fill_languages_lookup (translations : gmap str str) (languages : list str)
    (row : gmap str cell) (lang : str) :
  lang ∈ languages ->
  (fill_languages translations languages row).1 !! lang
  = Some (CStr (get_text translations lang)).
Proof.
  unfold fill_languages.
  induction languages as [|l languages IH] using rev_ind; [intros H; inversion H|].
  intros Hin. rewrite foldl_app. cbn [foldl].
  destruct (foldl _ (row, 0%nat) languages) as [row' n] eqn:Hfold. cbn [fst] in *.
  destruct (decide (l = lang)) as [-> | Hne].
  - apply lookup_insert_eq.
  - rewrite lookup_insert_ne by assumption. apply IH.
    apply elem_of_app in Hin as [Hin | Hin]; [assumption|].
    apply list_elem_of_singleton in Hin. congruence.
Qed.

Lemma simple_row_cell (languages : list str) (key : str)
    (translations : gmap str str) (lang : str) :
  lang ∈ languages -> lang <> MISSING_COUNT ->
  ExtractorSimple.make_row languages key translations !! lang
  = Some (CStr (get_text translations lang)).
Proof.
  intros Hin Hne. unfold ExtractorSimple.make_row.
  pose proof (fill_languages_lookup translations languages {[ KEY := CStr key ]} lang Hin)
    as H.
  destruct (fill_languages translations languages _) as [row missing_count].
  cbn [fst] in H. rewrite lookup_insert_ne by congruence. exact H.
Qed.

Lemma fill_languages_snoc (translations : gmap str str) (languages : list str)
    (lang : str) (row : gmap str cell) :
  fill_languages translations (languages ++ [lang]) row
  = (<[lang := CStr (get_text translations lang)]>
       (fill_languages translations languages row).1,
     if negb (truthy (get_text translations lang))
     then S (fill_languages translations languages row).2
     else (fill_languages translations languages row).2).
Proof.
  unfold fill_languages. rewrite foldl_app. cbn [foldl].
  destruct (foldl _ (row, 0%nat) languages) as [row' n]. reflexivity.
Qed.

Lemma fill_languages_other (translations : gmap str str) (languages : list str)
    (row : gmap str cell) (lang : str) :
  lang ∉ languages ->
  (fill_languages translations languages row).1 !! lang = row !! lang.
Proof.
  induction languages as [|l languages IH] using rev_ind; [reflexivity|].
  intros Hin. rewrite fill_languages_snoc. cbn [fst].
  rewrite elem_of_app, list_elem_of_singleton in Hin.
  rewrite lookup_insert_ne by (intros ->; apply Hin; now right).
  apply IH. intros H. apply Hin. now left.
Qed.

Lemma KEY_not_fixed : KEY <> MISSING_COUNT /\ KEY <> PLACEHOLDER_ANOMALY
                      /\ MISSING_COUNT <> PLACEHOLDER_ANOMALY.
Proof. repeat split; vm_compute; discriminate. Qed.

Lemma local_row_key (languages : list str) (key : str) (translations : gmap str str) :
  KEY ∉ languages ->
  row_key (ExtractorLocal.make_row languages key translations) = key.
Proof.
  intros Hk. unfold ExtractorLocal.make_row, row_key.
  pose proof (fill_languages_other translations languages {[ KEY := CStr key ]} KEY Hk) as H.
  destruct (fill_languages translations languages _) as [row n]. cbn [fst] in H.
  destruct KEY_not_fixed as (H1 & H2 & _).
  rewrite !lookup_insert_ne by congruence.
  rewrite H, lookup_singleton_eq. reflexivity.
Qed.

Lemma simple_row_key (languages : list str) (key : str) (translations : gmap str str) :
  KEY ∉ languages ->
  row_key (ExtractorSimple.make_row languages key translations) = key.
Proof.
  intros Hk. unfold ExtractorSimple.make_row, row_key.
  pose proof (fill_languages_other translations languages {[ KEY := CStr key ]} KEY Hk) as H.
  destruct (fill_languages translations languages _) as [row n]. cbn [fst] in H.
  destruct KEY_not_fixed as (H1 & H2 & _).
  rewrite !lookup_insert_ne by congruence.
  rewrite H, lookup_singleton_eq. reflexivity.
Qed.

Lemma local_row_cell (languages : list str) (key : str)
    (translations : gmap str str) (lang : str) :
  lang ∈ languages -> lang <> MISSING_COUNT -> lang <> PLACEHOLDER_ANOMALY ->
  ExtractorLocal.make_row languages key translations !! lang
  = Some (CStr (get_text translations lang)).
Proof.
  intros Hin Hm Ha. unfold ExtractorLocal.make_row.
  pose proof (fill_languages_lookup translations languages {[ KEY := CStr key ]} lang Hin)
    as H.
  destruct (fill_languages translations languages _) as [row missing_count].
  cbn [fst] in H. rewrite !lookup_insert_ne by congruence. exact H.
Qed.

(** C6: in both reports the rows are the rows of the keys of the table,
    one for each key.  The row of a key shows that key in the key column
    (unless an exported language is itself called [Key]) and, in the
    column of each exported language, the text the table has for that key
    and language, or the empty text.  Its missing count is the number of
    exported languages, counted as the list has them, whose text for that
    key is absent or empty, and the number of exported languages minus the
    missing count is the number of them with a non-empty text for that
    key. *)
Theorem missing_count_spec :
  (forall translations lang,
     (is_missing translations lang = true <->
        translations !! lang = None \/ translations !! lang = Some [])
     /\ (is_missing translations lang = false <->
           exists text, translations !! lang = Some text /\ text <> []))
  /\ (forall self df log,
        ExtractorLocal.create_dataframe self = (Return df, log) ->
        let langs := (export_languages self).1 in
        (forall key translations,
           strings_data self !! key = Some translations ->
           ExtractorLocal.make_row langs key translations ∈ data df)
        /\ forall row,
             row ∈ data df ->
             exists key translations,
               strings_data self !! key = Some translations
               /\ row = ExtractorLocal.make_row langs key translations
               /\ ((KEY ∉ langs) -> row !! KEY = Some (CStr key))
               /\ (forall lang,
                     lang ∈ langs -> lang <> MISSING_COUNT ->
                     lang <> PLACEHOLDER_ANOMALY ->
                     row !! lang = Some (CStr (default [] (translations !! lang))))
               /\ row !! MISSING_COUNT
                  = Some (CInt (count_missing translations langs))
               /\ (length langs - count_missing translations langs)%nat
                  = count_present translations langs)
  /\ (forall self df log,
        ExtractorSimple.create_dataframe self = (Return df, log) ->
        let langs := (export_languages self).1 in
        (forall key translations,
           strings_data self !! key = Some translations ->
           ExtractorSimple.make_row langs key translations ∈ data df)
        /\ forall row,
             row ∈ data df ->
             exists key translations,
               strings_data self !! key = Some translations
               /\ row = ExtractorSimple.make_row langs key translations
               /\ ((KEY ∉ langs) -> row !! KEY = Some (CStr key))
               /\ (forall lang,
                     lang ∈ langs -> lang <> MISSING_COUNT ->
                     row !! lang = Some (CStr (default [] (translations !! lang))))
               /\ row !! MISSING_COUNT
                  = Some (CInt (count_missing translations langs))
               /\ (length langs - count_missing translations langs)%nat
                  = count_present translations langs)
  /\ (let table : gmap str (gmap str str) :=
        <[lit "b" := {[ lit "default" := lit "B"; lit "fr" := [] ]}]>
          {[ lit "a" := {[ lit "default" := lit "A"; lit "de" := lit "A" ]} ]} in
      let self := mkExtractor table {[ lit "default"; lit "de"; lit "fr" ]} None in
      let cells := fun row : gmap str cell => (row !! KEY, row !! MISSING_COUNT) in
      match (ExtractorLocal.create_dataframe self).1,
            (ExtractorSimple.create_dataframe self).1 with
      | Return df, Return df' =>
          map cells (data df)
          = [(Some (CStr (lit "a")), Some (CInt 1));
             (Some (CStr (lit "b")), Some (CInt 2))]
          /\ map cells (data df')
             = [(Some (CStr (lit "a")), Some (CInt 1));
                (Some (CStr (lit "b")), Some (CInt 2))]
      | _, _ => False
      end).
Proof.
  split; [exact is_missing_spec|].
  assert (Hcompl : forall translations languages,
    (length languages - count_missing translations languages)%nat
    = count_present translations languages).
  { intros t l. pose proof (count_missing_present t l). lia. }
  assert (Hkey : forall langs key (tr : gmap str str),
            KEY ∉ langs ->
            (fill_languages tr langs {[ KEY := CStr key ]}).1 !! KEY = Some (CStr key)).
  { intros langs key tr HK. rewrite fill_languages_other by assumption.
    apply lookup_singleton_eq. }
  split; [|split].
  - intros self df log Hdf langs. subst langs.
    apply local_rows in Hdf as [_ Hrows]. split.
    + intros key tr Hk. apply Hrows. now exists key, tr.
    + intros row Hrow. apply Hrows in Hrow as (key & tr & Hk & ->).
      exists key, tr. split; [assumption|]. split; [reflexivity|]. split.
      * intros HK. specialize (Hkey _ key tr HK). unfold ExtractorLocal.make_row.
        destruct (fill_languages tr (export_languages self).1 _) as [row n].
        cbn [fst] in Hkey. destruct KEY_not_fixed as (H1 & H2 & _).
        rewrite !lookup_insert_ne by congruence. exact Hkey.
      * split; [intros lang Hin Hm Ha; now apply local_row_cell|].
        split; [apply local_row_missing | apply Hcompl].
  - intros self df log Hdf langs. subst langs.
    apply simple_rows in Hdf as [_ Hrows]. split.
    + intros key tr Hk. apply Hrows. now exists key, tr.
    + intros row Hrow. apply Hrows in Hrow as (key & tr & Hk & ->).
      exists key, tr. split; [assumption|]. split; [reflexivity|]. split.
      * intros HK. specialize (Hkey _ key tr HK). unfold ExtractorSimple.make_row.
        destruct (fill_languages tr (export_languages self).1 _) as [row n].
        cbn [fst] in Hkey. destruct KEY_not_fixed as (H1 & H2 & _).
        rewrite !lookup_insert_ne by congruence. exact Hkey.
      * split; [intros lang Hin Hm; now apply simple_row_cell|].
        split; [apply simple_row_missing | apply Hcompl].
  - vm_compute. split; reflexivity.
Qed.

(** ** C8: where the resource table can have an empty entry *)

Lemma states_last {S A : Type} (step : S -> A -> S) (s : S) (xs : list A) :
  last (states step s xs) = Some (foldl step s xs).
Proof.
  revert s. induction xs as [|x xs IH]; intros s; [reflexivity|].
  cbn [states foldl]. rewrite <- IH. destruct xs; reflexivity.
Qed.

Lemma states_Forall {S A : Type} (P : S -> Prop) (step : S -> A -> S)
    (s : S) (xs : list A) :
  P s -> (forall s x, P s -> P (step s x)) -> Forall P (states step s xs).
Proof.
  intros Hs Hstep. revert s Hs.
  induction xs as [|x xs IH]; intros s Hs; cbn [states]; constructor; auto.
Qed.

Lemma no_empty_entry_empty : no_empty_entry ∅.
Proof. intros key translations H. rewrite lookup_empty in H. discriminate. Qed.

(** One pass through the body of the loop over [strings.items()] keeps
    the table free of empty entries. *)
Lemma store_no_empty_entry (lang_code : str) (t : table) (item : str * str) :
  no_empty_entry t -> no_empty_entry (store lang_code t item).
Proof.
  intros Ht key translations. destruct item as [k value]. unfold store.
  destruct (decide (k = key)) as [-> | Hne].
  - rewrite lookup_alter_eq.
    destruct (t !! key) as [d|] eqn:Hk.
    + rewrite Hk. intros [= <-]. apply insert_non_empty.
    + rewrite lookup_insert_eq. intros [= <-]. apply insert_non_empty.
  - rewrite lookup_alter_ne by assumption.
    destruct (t !! k); [|rewrite lookup_insert_ne by assumption]; apply Ht.
Qed.

Lemma parser_init_ok (languages : gset str) :
  parser_ok (ExtractorLocal.parser_init languages).
Proof. intros key r H. simpl in H. rewrite lookup_empty in H. discriminate. Qed.

Lemma save_current_ok (st : ExtractorLocal.parser) :
  parser_ok st -> parser_ok (ExtractorLocal.save_current st).
Proof.
  intros Hst. unfold ExtractorLocal.save_current.
  destruct (ExtractorLocal.current_string_name st) as [name|]; [|assumption].
  destruct (truthy name); [|assumption]. cbn [andb].
  destruct (ExtractorLocal.dict_truthy _ _) eqn:Hd; [|assumption].
  intros key r. simpl. destruct (decide (name = key)) as [-> | Hne].
  - rewrite lookup_insert_eq. intros [= <-].
    unfold ExtractorLocal.dict_truthy in Hd.
    destruct (ExtractorLocal.objects st !! ExtractorLocal.current_string_data st)
      as [d|]; [|discriminate].
    exists d. split; [reflexivity|].
    apply negb_true_iff, bool_decide_eq_false in Hd. assumption.
  - rewrite lookup_insert_ne by assumption. apply Hst.
Qed.

Lemma begin_string_ok (name : str) (st : ExtractorLocal.parser) :
  parser_ok st -> parser_ok (ExtractorLocal.begin_string name st).
Proof.
  intros Hst key r H. simpl in *. destruct (Hst key r H) as (d & Hd & Hne).
  exists d. split; [|assumption]. apply lookup_app_l_Some. assumption.
Qed.

Lemma put_value_ok (language value : str) (st : ExtractorLocal.parser) :
  parser_ok st -> parser_ok (ExtractorLocal.put_value language value st).
Proof.
  intros Hst key r H. simpl in *. destruct (Hst key r H) as (d & Hd & Hne).
  destruct (decide (ExtractorLocal.current_string_data st = r)) as [-> | Hr].
  - exists (<[language := value]> d). split; [|apply insert_non_empty].
    rewrite list_lookup_alter_eq, Hd. reflexivity.
  - exists d. split; [|assumption].
    rewrite list_lookup_alter_ne by assumption. assumption.
Qed.

Lemma parse_line_ok (st : ExtractorLocal.parser) (line : str) :
  parser_ok st -> parser_ok (ExtractorLocal.parse_line st line).
Proof.
  intros Hst. unfold ExtractorLocal.parse_line.
  repeat match goal with
  | |- parser_ok (if ?b then _ else _) => destruct b
  | |- parser_ok (match ?o with Some _ => _ | None => _ end) => destruct o
  end;
  auto using save_current_ok, begin_string_ok, put_value_ok.
Qed.

Lemma view_no_empty_entry (st : ExtractorLocal.parser) :
  parser_ok st -> no_empty_entry (ExtractorLocal.view st).
Proof.
  intros Hst key translations. unfold ExtractorLocal.view.
  rewrite lookup_omap. destruct (ExtractorLocal.p_strings_data st !! key) as [r|] eqn:Hr;
    [|discriminate].
  simpl. destruct (Hst key r Hr) as (d & Hd & Hne). rewrite Hd. now intros [= <-].
Qed.

Lemma foldl_invariant {S A : Type} (P : S -> Prop) (step : S -> A -> S)
    (s : S) (xs : list A) :
  P s -> (forall s x, P s -> P (step s x)) -> P (foldl step s xs).
Proof.
  intros Hs Hstep. revert s Hs. induction xs as [|x xs IH]; intros s Hs; simpl; auto.
Qed.

Lemma store_step_no_empty_entry (t : table) (x : str * (str * str)) :
  no_empty_entry t -> no_empty_entry (store_step t x).
Proof. destruct x as [lang_code item]. apply store_no_empty_entry. Qed.

Lemma store_file_flat (lang_code : str) (strings : odict) (t : table) :
  store_file lang_code strings t
  = foldl store_step t (map (fun item => (lang_code, item)) strings).
Proof.
  unfold store_file. revert t.
  induction strings as [|item strings IH]; intros t; simpl; [reflexivity|]. apply IH.
Qed.

Lemma aapt2_states_ok (languages : gset str) (output : str) :
  Forall no_empty_entry (ExtractorLocal.aapt2_states languages output)
  /\ last (ExtractorLocal.aapt2_states languages output)
     = Some (ExtractorLocal._parse_aapt2_resources_output languages output).1.
Proof.
  unfold ExtractorLocal.aapt2_states. split.
  - apply Forall_app. split.
    + apply Forall_fmap. eapply Forall_impl.
      * apply (states_Forall parser_ok); [apply parser_init_ok | apply parse_line_ok].
      * intros st. apply view_no_empty_entry.
    + constructor; [|constructor]. cbn [fst ExtractorLocal._parse_aapt2_resources_output].
      apply view_no_empty_entry, save_current_ok.
      apply (foldl_invariant parser_ok); [apply parser_init_ok | apply parse_line_ok].
  - apply last_snoc.
Qed.

Lemma run_body (t : table) (x : str * (str * str)) :
  foldl run t (body x) = store_step t x.
Proof. destruct x as [lang_code [key value]]. reflexivity. Qed.

Lemma run_passes (items : list (str * (str * str))) (t : table) :
  foldl run t (flat_map body items) = foldl store_step t items.
Proof.
  revert t. induction items as [|x items IH]; intros t; [reflexivity|].
  cbn [flat_map foldl]. rewrite foldl_app, run_body. apply IH.
Qed.

Lemma last_app_cons {A : Type} (l1 : list A) (x : A) (l2 : list A) :
  last (l1 ++ x :: l2) = last (x :: l2).
Proof.
  rewrite last_app. destruct (last (x :: l2)) eqn:E; [reflexivity|].
  apply last_None in E. discriminate.
Qed.

Lemma run_states_last (label : option statement) (t : table)
    (statements : list statement) :
  snd <$> last ((label, t) :: run_states t statements) = Some (foldl run t statements).
Proof.
  revert label t. induction statements as [|s statements IH]; intros label t;
    [reflexivity|].
  cbn [run_states foldl]. rewrite <- (IH (Some s) (run t s)). reflexivity.
Qed.

(** Creating the entry of a key leaves no other key with an empty locale
    mapping. *)
Lemma ensure_key_ok (t : table) (key : str) :
  no_empty_entry t -> point_ok (Some (EnsureKey key), run t (EnsureKey key)).
Proof.
  intros Ht k translations. cbn [snd run].
  destruct (decide (k = key)) as [-> | Hne]; [reflexivity|].
  destruct (t !! key); [|rewrite lookup_insert_ne by congruence];
    intros Hk He; now destruct (Ht k translations Hk).
Qed.

Lemma run_states_ok (items : list (str * (str * str))) (t : table) :
  no_empty_entry t -> Forall point_ok (run_states t (flat_map body items)).
Proof.
  revert t. induction items as [|[lang_code [key value]] items IH]; intros t Ht;
    [constructor|].
  cbn [flat_map body app run_states].
  constructor; [now apply ensure_key_ok|].
  assert (Hstore : no_empty_entry (run (run t (EnsureKey key))
                                       (StoreText lang_code key value))).
  { exact (store_no_empty_entry lang_code t (key, value) Ht). }
  constructor; [exact Hstore | now apply IH].
Qed.

Lemma local_xml_states_ok (parse : xml_file -> odict) (t : table)
    (extract_path : res_dir) :
  no_empty_entry t ->
  Forall point_ok (ExtractorLocal.xml_states parse t extract_path).
Proof.
  intros Ht. unfold ExtractorLocal.xml_states.
  constructor; [exact Ht | now apply run_states_ok].
Qed.

Lemma local_extract_files_flat (parse : xml_file -> odict)
    (files : list (xml_file * str)) (languages : gset str) (t : table) :
  (foldl (ExtractorLocal.extract_file parse) (languages, t) files).2
  = foldl store_step t
      (flat_map (fun '(xml_path, lang_code) =>
                   map (fun item => (lang_code, item)) (parse xml_path)) files).
Proof.
  revert languages t. induction files as [|[xml_path lang_code] files IH];
    intros languages t; [reflexivity|].
  cbn [foldl flat_map ExtractorLocal.extract_file].
  rewrite IH, foldl_app, store_file_flat. reflexivity.
Qed.

Lemma simple_extract_files_flat (ET_parse : list N -> xml_result)
    (ET_fromstring : str -> xml_result) (decode : list N -> str)
    (files : list (xml_file * str)) (st : gset str * table * list message) :
  (foldl (ExtractorSimple.extract_file ET_parse ET_fromstring decode) st files).1.2
  = foldl store_step st.1.2
      (flat_map (fun '(xml_path, lang_code) =>
                   map (fun item => (lang_code, item))
                       (ExtractorSimple.parse_strings_xml
                          ET_parse ET_fromstring decode xml_path).1) files).
Proof.
  revert st. induction files as [|[xml_path lang_code] files IH];
    intros [[languages t] log]; [reflexivity|].
  cbn [foldl flat_map]. rewrite IH, foldl_app. f_equal.
  unfold ExtractorSimple.extract_file.
  destruct (ExtractorSimple.parse_strings_xml _ _ _ xml_path) as [strings warnings].
  cbn [fst snd]. apply store_file_flat.
Qed.

(** C8: while either extractor runs, a key of the resource table has an
    empty locale mapping only between the two statements of the loop body
    that stores a string of a file: right after the statement that creates
    the entry of a key, that key and no other may have an empty mapping,
    and a key that was not in the table does have one there.  In every
    other state no key has an empty mapping: before the first line of the
    tool output and after each line, after the statement that stores the
    last string of the tool output, and after every whole pass through the
    loop body.  The last state is the table the run ends with, and it has
    no empty mapping. *)
Theorem resource_table_empty_only_between_statements :
  (forall (parse : xml_file -> odict) (self : extractor) (stdout : option str)
      (extracted : outcome res_dir),
      Forall point_ok (ExtractorLocal.table_states parse self stdout extracted)
      /\ forall self',
           ExtractorLocal.extract_all_strings parse self stdout extracted = Return self' ->
           snd <$> last (ExtractorLocal.table_states parse self stdout extracted)
           = Some (strings_data self')
           /\ no_empty_entry (strings_data self'))
  /\ (forall (ET_parse : list N -> xml_result)
        (ET_fromstring : str -> xml_result) (decode : list N -> str)
        (self : extractor) (extract_path : res_dir),
        Forall point_ok
          (ExtractorSimple.table_states ET_parse ET_fromstring decode extract_path)
        /\ forall self' log,
             ExtractorSimple.extract_all_strings ET_parse ET_fromstring decode self
               (Return extract_path) = (Return self', log) ->
             snd <$> last (ExtractorSimple.table_states ET_parse ET_fromstring decode
                             extract_path)
             = Some (strings_data self')
             /\ no_empty_entry (strings_data self'))
  /\ (forall (t : table) (key : str),
        t !! key = None -> run t (EnsureKey key) !! key = Some ∅).
Proof.
  split; [|split].
  - intros parse self stdout extracted.
    unfold ExtractorLocal.table_states, ExtractorLocal.extract_all_strings.
    set (first := match stdout with
                  | Some output => ExtractorLocal.aapt2_states (languages self) output
                  | None => [∅]
                  end).
    assert (Hfirst : Forall no_empty_entry first
              /\ last first
                 = Some (ExtractorLocal.extract_strings_with_aapt2 (languages self) stdout).1).
    { subst first. destruct stdout as [output|]; [apply aapt2_states_ok|].
      split; [repeat constructor; apply no_empty_entry_empty | reflexivity]. }
    destruct Hfirst as [Hall Hlast].
    assert (Hlabel : Forall point_ok (map (fun t => (None, t)) first)).
    { apply Forall_fmap. eapply Forall_impl; [exact Hall|]. intros t Ht. exact Ht. }
    assert (Hend : no_empty_entry
              (ExtractorLocal.extract_strings_with_aapt2 (languages self) stdout).1).
    { rewrite Forall_forall in Hall. apply Hall.
      apply last_Some_elem_of in Hlast. exact Hlast. }
    destruct (ExtractorLocal.extract_strings_with_aapt2 (languages self) stdout)
      as [all_strings langs]. cbn [fst] in Hlast, Hend.
    assert (Hlast' : snd <$> last (map (fun t : table => (@None statement, t)) first)
                     = Some all_strings).
    { change (snd <$> last ((fun t : table => (@None statement, t)) <$> first)
              = Some all_strings).
      now rewrite fmap_last, Hlast. }
    destruct (bool_decide (all_strings = ∅)) eqn:He.
    + apply bool_decide_eq_true in He. subst all_strings.
      destruct extracted as [extract_path | e]; [|split; [assumption | discriminate]].
      split.
      * apply Forall_app. split; [assumption|].
        apply local_xml_states_ok, no_empty_entry_empty.
      * intros self'. unfold ExtractorLocal._extract_strings_from_xml.
        unfold ExtractorLocal.xml_states.
        rewrite last_app_cons.
        pose proof (local_extract_files_flat parse (find_string_files extract_path)
                      langs ∅) as Hflat.
        destruct (find_string_files extract_path) as [|file files].
        -- intros [= <-]. split; [reflexivity | apply no_empty_entry_empty].
        -- destruct (foldl _ _ (file :: files)) as [languages' t'].
           cbn [snd] in Hflat. intros [= <-]. cbn [strings_data].
           rewrite Hflat. split.
           ++ rewrite <- run_passes. apply run_states_last.
           ++ apply (foldl_invariant no_empty_entry);
                [apply no_empty_entry_empty | apply store_step_no_empty_entry].
    + split; [assumption|]. intros self' [= <-]. split; [exact Hlast' | exact Hend].
  - intros ET_parse ET_fromstring decode self extract_path.
    unfold ExtractorSimple.table_states, ExtractorSimple.extract_all_strings.
    split.
    + constructor; [apply no_empty_entry_empty|].
      apply run_states_ok, no_empty_entry_empty.
    + intros self' log.
      pose proof (simple_extract_files_flat ET_parse ET_fromstring decode
                    (find_string_files extract_path) (languages self, ∅, [])) as Hflat.
      destruct (find_string_files extract_path) as [|file files]; [discriminate|].
      destruct (foldl _ _ (file :: files)) as [[languages' t'] log'].
      cbn [fst snd] in Hflat. intros [= <- <-]. cbn [strings_data]. rewrite Hflat.
      split.
      * rewrite <- run_passes. apply run_states_last.
      * apply (foldl_invariant no_empty_entry);
          [apply no_empty_entry_empty | apply store_step_no_empty_entry].
  - intros t key Hk. cbn [run]. rewrite Hk. apply lookup_insert_eq.
Qed.

(** The claim as the specification words it fails between the two
    statements: on the package of [Example], right after the entry of the
    key [greet] is created, that key has an empty locale mapping. *)
Lemma resource_table_empty_entry_between_statements :
  let points := ExtractorSimple.table_states Example.ET_parse Example.ET_fromstring
                  Example.decode_utf8_ignore Example.RES in
  points !! 1%nat = Some (Some (EnsureKey (lit "greet")), {[ lit "greet" := ∅ ]})
  /\ ({[ lit "greet" := ∅ ]} : table) !! lit "greet" = Some ∅
  /\ points !! 2%nat
     = Some (Some (StoreText (lit "default") (lit "greet") (lit "Hi %s")),
             {[ lit "greet" := {[ lit "default" := lit "Hi %s" ]} ]}).
Proof.
  intros points. subst points. split; [|split].
  - vm_compute. reflexivity.
  - apply lookup_singleton_eq.
  - vm_compute. reflexivity.
Qed.

(** ** C2: a locale whose resource file is binary *)

(** Membership in the exported languages. *)
Lemma export_languages_elem (self : extractor) (lang : str) :
  lang ∈ (export_languages self).1 <->
    match supported_languages self with
    | Some ((_ :: _) as allow) => lang ∈ allow /\ lang ∈ languages self
    | _ => lang ∈ languages self
    end.
Proof.
  unfold export_languages.
  assert (Hsorted : lang ∈ (if bool_decide (lit "default" ∈ sorted (languages self))
                    then (lit "default" :: list_remove (lit "default") (sorted (languages self)),
                          @nil message)
                    else (sorted (languages self), [])).1 <-> lang ∈ languages self).
  { destruct (sorted_spec (languages self)) as (Hs & Hn & Hin).
    destruct (bool_decide (lit "default" ∈ sorted (languages self))) eqn:Hd; cbn [fst].
    - apply bool_decide_eq_true in Hd.
      destruct (list_remove_spec (lit "default") _ Hs Hn) as (_ & _ & Hin').
      rewrite elem_of_cons, Hin', Hin. apply Hin in Hd. split.
      + intros [-> | [H _]]; assumption.
      + intros H. destruct (decide (lang = lit "default")); [now left | now right].
    - apply Hin. }
  destruct (supported_languages self) as [[|a allow]|]; try exact Hsorted.
  cbn [fst]. rewrite list_elem_of_filter. tauto.
Qed.

(** A binary file gives no strings and the warning. *)
Lemma parse_binary (ET_parse : list N -> xml_result)
    (ET_fromstring : str -> xml_result) (decode : list N -> str) (f : xml_file) :
  is_binary f ->
  ExtractorSimple.parse_strings_xml ET_parse ET_fromstring decode f
  = ([], [WarnBinaryXml (path f)]).
Proof.
  intros (bytes & Hc & Hm).
  unfold ExtractorSimple.parse_strings_xml, ExtractorSimple._try_parse_binary_xml.
  rewrite Hc, Hm. reflexivity.
Qed.

(** Storing the strings of another locale leaves a locale without text. *)
Lemma store_other_lang (lang lang_code : str) (t : table) (item : str * str) :
  lang_code <> lang ->
  (forall key translations, t !! key = Some translations -> translations !! lang = None) ->
  forall key translations,
    store lang_code t item !! key = Some translations -> translations !! lang = None.
Proof.
  intros Hne Ht key translations. destruct item as [k value]. unfold store.
  destruct (decide (k = key)) as [-> | Hk].
  - rewrite lookup_alter_eq. destruct (t !! key) as [d|] eqn:Hd.
    + rewrite Hd. intros [= <-]. rewrite lookup_insert_ne by assumption. eauto.
    + rewrite lookup_insert_eq. intros [= <-].
      rewrite lookup_insert_ne by assumption. apply lookup_empty.
  - rewrite lookup_alter_ne by assumption.
    destruct (t !! k); [|rewrite lookup_insert_ne by assumption]; apply Ht.
Qed.

Lemma store_file_other_lang (lang lang_code : str) (strings : odict) (t : table) :
  lang_code <> lang ->
  (forall key translations, t !! key = Some translations -> translations !! lang = None) ->
  forall key translations,
    store_file lang_code strings t !! key = Some translations ->
    translations !! lang = None.
Proof.
  intros Hne. unfold store_file.
  intros Ht.
  apply (foldl_invariant
    (fun t : table => forall (key : str) (translations : gmap str str),
       t !! key = Some translations -> translations !! lang = None)
    (store lang_code) t strings Ht).
  intros t' item. now apply store_other_lang.
Qed.

(** What the loop over the files does for a locale all of whose files are
    binary. *)
Lemma extract_files_binary (ET_parse : list N -> xml_result)
    (ET_fromstring : str -> xml_result) (decode : list N -> str)
    (lang : str) (files : list (xml_file * str))
    (st : gset str * table * list message) :
  (forall f, (f, lang) ∈ files -> is_binary f) ->
  (forall key translations,
     st.1.2 !! key = Some translations -> translations !! lang = None) ->
  let st' := foldl (ExtractorSimple.extract_file ET_parse ET_fromstring decode) st files in
  (forall m, m ∈ st.2 -> m ∈ st'.2)
  /\ (forall f, (f, lang) ∈ files -> WarnBinaryXml (path f) ∈ st'.2)
  /\ (forall l, l ∈ st.1.1 -> l ∈ st'.1.1)
  /\ (forall f l, (f, l) ∈ files -> l ∈ st'.1.1)
  /\ (forall key translations,
        st'.1.2 !! key = Some translations -> translations !! lang = None).
Proof.
  revert st. induction files as [|[f l] files IH]; intros st Hbin Ht; cbn [foldl].
  - split; [auto|]. split; [intros f H; inversion H|]. split; [auto|].
    split; [intros f l H; inversion H | exact Ht].
  - set (st1 := ExtractorSimple.extract_file ET_parse ET_fromstring decode st (f, l)).
    assert (H1 : (forall m, m ∈ st.2 -> m ∈ st1.2)
                 /\ (l = lang -> WarnBinaryXml (path f) ∈ st1.2)
                 /\ (forall l', l' ∈ st.1.1 -> l' ∈ st1.1.1)
                 /\ l ∈ st1.1.1
                 /\ (forall key translations,
                       st1.1.2 !! key = Some translations -> translations !! lang = None)).
    { subst st1. destruct st as [[languages t] log]. unfold ExtractorSimple.extract_file.
      destruct (decide (l = lang)) as [-> | Hne].
      - rewrite parse_binary by (apply Hbin; left). cbn [fst snd store_file foldl].
        split; [intros m Hm; apply elem_of_app; now left|].
        split; [intros _; rewrite !elem_of_app, !elem_of_cons; tauto|].
        split; [intros l' Hl'; apply elem_of_union; now left|].
        split; [apply elem_of_union; right; now apply elem_of_singleton | exact Ht].
      - destruct (ExtractorSimple.parse_strings_xml _ _ _ f) as [strings warnings].
        cbn [fst snd].
        split; [intros m Hm; apply elem_of_app; now left|].
        split; [intros ->; contradiction|].
        split; [intros l' Hl'; apply elem_of_union; now left|].
        split; [apply elem_of_union; right; now apply elem_of_singleton|].
        now apply store_file_other_lang. }
    destruct H1 as (Hlog & Hwarn & Hlangs & Hl & Ht1).
    destruct (IH st1) as (Hlog' & Hwarn' & Hlangs' & Hl' & Ht');
      [intros f' Hf'; apply Hbin; now right | exact Ht1 |].
    split; [auto|]. split.
    { intros f' Hf'. apply elem_of_cons in Hf' as [[= -> <-] | Hf']; auto. }
    split; [auto|]. split; [|exact Ht'].
    intros f' l' Hf'. apply elem_of_cons in Hf' as [[= -> ->] | Hf']; eauto.
Qed.

(** C2, as the code has it: when every [strings.xml] of a locale is
    detected as binary by its magic prefix, the simple extractor, whose only
    strategy is the textual parse, skips each such file with the
    binary-XML warning and stores no text for the locale, but it still
    records the locale as discovered.  The locale is therefore exported
    whenever no allow-list is given, and under an allow-list exactly when
    the allow-list names it; and in every row its cell is the empty text. *)
Theorem binary_locale_is_discovered_without_text
    (ET_parse : list N -> xml_result) (ET_fromstring : str -> xml_result)
    (decode : list N -> str) (self self' : extractor) (extract_path : res_dir)
    (log : list message) (f : xml_file) (lang : str) :
  ExtractorSimple.extract_all_strings ET_parse ET_fromstring decode self
    (Return extract_path) = (Return self', log) ->
  (f, lang) ∈ find_string_files extract_path ->
  (forall f', (f', lang) ∈ find_string_files extract_path -> is_binary f') ->
  WarnBinaryXml (path f) ∈ log
  /\ lang ∈ languages self'
  /\ (forall key translations,
        strings_data self' !! key = Some translations -> translations !! lang = None)
  /\ (lang ∈ (export_languages self').1 <->
        match supported_languages self with
        | Some ((_ :: _) as allow) => lang ∈ allow
        | _ => True
        end)
  /\ (forall df log' row,
        ExtractorSimple.create_dataframe self' = (Return df, log') ->
        row ∈ data df ->
        lang ∈ (export_languages self').1 -> lang <> MISSING_COUNT ->
        row !! lang = Some (CStr [])).
Proof.
  intros Hrun Hf Hbin. unfold ExtractorSimple.extract_all_strings in Hrun.
  pose proof (extract_files_binary ET_parse ET_fromstring decode lang
                (find_string_files extract_path) (languages self, ∅, []) Hbin) as H.
  destruct (find_string_files extract_path) as [|file files] eqn:Hfiles;
    [discriminate|].
  rewrite <- Hfiles in *. clear Hfiles.
  destruct H as (_ & Hwarn & _ & Hlangs & Ht).
  { cbn [fst snd]. intros key translations Hk. rewrite lookup_empty in Hk. discriminate. }
  destruct (foldl _ _ (find_string_files extract_path)) as [[languages' t'] log'].
  cbn [fst snd] in *.
  assert (Hself : self' = mkExtractor t' languages' (supported_languages self)
                  /\ log = log').
  { destruct (find_string_files extract_path); [inversion Hf|].
    injection Hrun as <- <-. split; reflexivity. }
  destruct Hself as [-> ->]. cbn [languages strings_data].
  assert (Hdisc : lang ∈ languages') by (eapply Hlangs; exact Hf).
  split; [now apply Hwarn|]. split; [exact Hdisc|]. split; [exact Ht|]. split.
  - rewrite export_languages_elem. cbn [supported_languages languages].
    destruct (supported_languages self) as [[|a allow]|]; tauto.
  - intros df log'' row Hdf Hrow Hexp Hne.
    apply simple_rows in Hdf as [_ Hrows].
    apply Hrows in Hrow as (key & translations & Hk & ->).
    rewrite simple_row_cell by assumption.
    cbn [strings_data] in Hk. apply Ht in Hk.
    do 2 f_equal. exact (f_equal (default []) Hk).
Qed.

(** C2 on the example package: [values-de/strings.xml] is binary, there is
    no allow-list, and [de] is exported. *)
Lemma binary_locale_is_discovered_without_text_witness :
  let self' := mkExtractor {[ lit "greet" := {[ lit "default" := lit "Hi %s" ]} ]}
                 {[ lit "default"; lit "de" ]} None in
  WarnBinaryXml (path Example.DE_FILE) ∈ (Example.extract None).2
  /\ lit "de" ∈ languages self'
  /\ (forall key translations,
        strings_data self' !! key = Some translations -> translations !! lit "de" = None)
  /\ (lit "de" ∈ (export_languages self').1 <-> True)
  /\ (forall df log' row,
        ExtractorSimple.create_dataframe self' = (Return df, log') ->
        row ∈ data df ->
        lit "de" ∈ (export_languages self').1 -> lit "de" <> MISSING_COUNT ->
        row !! lit "de" = Some (CStr [])).
Proof.
  intros self'.
  assert (Hfiles : find_string_files Example.RES
                   = [(Example.GREET_FILE, lit "default"); (Example.DE_FILE, lit "de")])
    by (vm_compute; reflexivity).
  apply (binary_locale_is_discovered_without_text
           Example.ET_parse Example.ET_fromstring Example.decode_utf8_ignore
           (mkExtractor ∅ ∅ None) self' Example.RES (Example.extract None).2
           Example.DE_FILE (lit "de")).
  - vm_compute. reflexivity.
  - rewrite Hfiles. right. left.
  - intros f'. rewrite Hfiles, !elem_of_cons, elem_of_nil.
    intros [H | [H | []]].
    + vm_compute in H. discriminate.
    + injection H as ->. exists Example.DE_BINARY. split; reflexivity.
Defined.

(** C2, as the specification states it, fails: on the example package, run without
    allow-list, the file of [de] is binary and is skipped with the warning,
    and yet [de] is among the exported languages and is a column of the
    report. *)
Lemma binary_locale_is_projected :
  (startswith ExtractorSimple.BINARY_XML_MAGIC Example.DE_BINARY = true
   /\ find_string_files Example.RES
      = [(Example.GREET_FILE, lit "default"); (Example.DE_FILE, lit "de")])
  /\ exists self' log,
       Example.extract None = (Return self', log)
       /\ log = [FoundStrings (lit "default") 1;
                 WarnBinaryXml (path Example.DE_FILE);
                 FoundStrings (lit "de") 0]
       /\ supported_languages self' = None
       /\ (export_languages self').1 = [lit "default"; lit "de"]
       /\ match (ExtractorSimple.create_dataframe self').1 with
          | Return df =>
              columns df = [KEY; MISSING_COUNT; lit "default"; lit "de"]
              /\ map (fun row => (row !! lit "default", row !! lit "de")) (data df)
                 = [(Some (CStr (lit "Hi %s")), Some (CStr []))]
          | Raise _ => False
          end.
Proof.
  split; [split; vm_compute; reflexivity|].
  exists (mkExtractor {[ lit "greet" := {[ lit "default" := lit "Hi %s" ]} ]}
            {[ lit "default"; lit "de" ]} None).
  exists [FoundStrings (lit "default") 1; WarnBinaryXml (path Example.DE_FILE);
          FoundStrings (lit "de") 0].
  split; [vm_compute; reflexivity|].
  split; [reflexivity|]. split; [reflexivity|].
  split; [vm_compute; reflexivity|].
  vm_compute. split; reflexivity.
Qed.

(** * Further properties of the code *)

(** ** Trimming *)

Lemma lstrip_suffix (s : str) :
  exists w, s = w ++ lstrip s /\ Forall (fun c => isspace c = true) w.
Proof.
  induction s as [|c s IH]; simpl.
  - exists []. split; [reflexivity | constructor].
  - destruct (isspace c) eqn:Hc.
    + destruct IH as (w & Hs & Hw). exists (c :: w). split.
      * simpl. now rewrite <- Hs.
      * now constructor.
    + exists []. split; [reflexivity | constructor].
Qed.

Lemma lstrip_head (s : str) (c : char) :
  head (lstrip s) = Some c -> isspace c = false.
Proof.
  induction s as [|x s IH]; simpl; [discriminate|].
  destruct (isspace x) eqn:Hx; [exact IH|]. simpl. now intros [= <-].
Qed.

Lemma lstrip_blank (s : str) :
  Forall (fun c => isspace c = true) s -> lstrip s = [].
Proof.
  induction 1 as [|c s Hc Hs IH]; simpl; [reflexivity|]. now rewrite Hc.
Qed.

Lemma lstrip_id (s : str) :
  (forall c, head s = Some c -> isspace c = false) -> lstrip s = s.
Proof.
  destruct s as [|c s]; simpl; [reflexivity|]. intros H. now rewrite (H c eq_refl).
Qed.

Lemma rstrip_prefix (s : str) :
  exists w, s = rstrip s ++ w /\ Forall (fun c => isspace c = true) w.
Proof.
  unfold rstrip. destruct (lstrip_suffix (reverse s)) as (w & Hs & Hw).
  exists (reverse w). split.
  - rewrite <- reverse_app, <- Hs. now rewrite reverse_involutive.
  - now apply Forall_reverse.
Qed.

Lemma rstrip_last (s : str) (c : char) :
  last (rstrip s) = Some c -> isspace c = false.
Proof.
  unfold rstrip. rewrite last_reverse. apply lstrip_head.
Qed.

Lemma rstrip_id (s : str) :
  (forall c, last s = Some c -> isspace c = false) -> rstrip s = s.
Proof.
  intros H. unfold rstrip. rewrite lstrip_id; [apply reverse_involutive|].
  intros c Hc. apply H. now rewrite <- (reverse_involutive s), last_reverse.
Qed.

(** What [strip] returns neither begins nor ends with white space. *)
Lemma strip_trimmed (s : str) (c : char) :
  (head (strip s) = Some c -> isspace c = false)
  /\ (last (strip s) = Some c -> isspace c = false).
Proof.
  unfold strip. split; [|apply rstrip_last].
  destruct (rstrip_prefix (lstrip s)) as (w & Hs & _).
  intros Hc. apply (lstrip_head s).
  rewrite Hs. destruct (rstrip (lstrip s)); [discriminate | exact Hc].
Qed.

Lemma strip_blank (s : str) :
  Forall (fun c => isspace c = true) s -> strip s = [].
Proof. intros H. unfold strip. now rewrite lstrip_blank. Qed.

Lemma strip_id (s : str) :
  (forall c, head s = Some c -> isspace c = false) ->
  (forall c, last s = Some c -> isspace c = false) ->
  strip s = s.
Proof. intros Hh Hl. unfold strip. rewrite lstrip_id by assumption. now apply rstrip_id. Qed.

(** A text without ampersand and without backslash passes the entity
    decoding and the Android escapes unchanged. *)
Lemma escapes_plain (text : str) :
  38 ∉ text -> BACKSLASH ∉ text ->
  android_escapes (xml_entities text) = text.
Proof.
  intros Ha Hb.
  unfold android_escapes, xml_entities, unescape_quote, unescape_apos,
    unescape_newline, unescape_tab, collapse_backslash.
  change (lit "&lt;") with (38 :: lit "lt;").
  change (lit "&gt;") with (38 :: lit "gt;").
  change (lit "&amp;") with (38 :: lit "amp;").
  change (lit "&quot;") with (38 :: lit "quot;").
  change (lit "&apos;") with (38 :: lit "apos;").
  repeat (rewrite (replace_absent _ _ _ text) by assumption).
  reflexivity.
Qed.

Lemma isspace_not_special (c : char) :
  isspace c = true -> c <> 38 /\ c <> BACKSLASH.
Proof. intros H. split; intros ->; vm_compute in H; discriminate. Qed.

(** X1: the text [_unescape_xml] returns never begins and never ends with
    a white-space character. *)
Theorem unescape_xml_is_trimmed (text : str) (c : char) :
  (head (_unescape_xml text) = Some c -> isspace c = false)
  /\ (last (_unescape_xml text) = Some c -> isspace c = false).
Proof.
  unfold _unescape_xml. destruct (negb (truthy text)).
  - split; discriminate.
  - apply strip_trimmed.
Qed.

(** X2: a text without ampersand and backslash that neither begins nor
    ends with white space is returned as it is. *)
Theorem unescape_xml_plain (text : str) :
  38 ∉ text -> BACKSLASH ∉ text ->
  (forall c, head text = Some c -> isspace c = false) ->
  (forall c, last text = Some c -> isspace c = false) ->
  _unescape_xml text = text.
Proof.
  intros Ha Hb Hh Hl. unfold _unescape_xml.
  destruct text as [|x text]; [reflexivity|]. cbn [truthy negb].
  rewrite escapes_plain by assumption. now apply strip_id.
Qed.

Lemma unescape_xml_plain_witness :
  _unescape_xml (lit "Hi %s") = lit "Hi %s".
Proof.
  apply unescape_xml_plain.
  - intros H. repeat (apply elem_of_cons in H as [H|H]; [discriminate|]). inversion H.
  - intros H. repeat (apply elem_of_cons in H as [H|H]; [discriminate|]). inversion H.
  - intros c [= <-]. reflexivity.
  - intros c [= <-]. reflexivity.
Defined.

(** X3: a text of white space only is unescaped to the empty text. *)
Theorem unescape_xml_blank (text : str) :
  Forall (fun c => isspace c = true) text -> _unescape_xml text = [].
Proof.
  intros H. unfold _unescape_xml. destruct (negb (truthy text)); [reflexivity|].
  rewrite escapes_plain.
  - now apply strip_blank.
  - intros Hin. rewrite Forall_forall in H. apply H in Hin.
    now apply isspace_not_special in Hin.
  - intros Hin. rewrite Forall_forall in H. apply H in Hin.
    now apply isspace_not_special in Hin.
Qed.

Lemma unescape_xml_blank_witness : _unescape_xml [32; TAB; NEWLINE] = [].
Proof. apply unescape_xml_blank. repeat constructor. Defined.

(** ** The comparator and the anomaly languages *)

Lemma compare_placeholders_refl (a : str) : _compare_placeholders a a = true.
Proof.
  unfold _compare_placeholders.
  destruct (negb (truthy a) || negb (truthy a)); now apply bool_decide_eq_true.
Qed.

Lemma compare_placeholders_sym (a b : str) :
  _compare_placeholders a b = _compare_placeholders b a.
Proof.
  unfold _compare_placeholders. rewrite (orb_comm (negb (truthy a))).
  destruct (negb (truthy b) || negb (truthy a)); apply bool_decide_ext; split; congruence.
Qed.

(** X4: the comparison of placeholders is reflexive and symmetric: a text
    always agrees with itself, and the outcome does not depend on which of
    the two texts is passed as the default one. *)
Theorem compare_placeholders_reflexive_symmetric :
  (forall a : str, _compare_placeholders a a = true)
  /\ (forall a b : str, _compare_placeholders a b = _compare_placeholders b a).
Proof. split; [exact compare_placeholders_refl | exact compare_placeholders_sym]. Qed.

(** X5: the anomaly languages are taken, in their order, from the
    languages after the first one; a language whose text is the text of
    the first language is never among them, so the first language itself is
    not; there are fewer of them than languages, and none for an empty
    language list. *)
Theorem anomaly_languages_bounds (translations : gmap str str)
    (first : str) (rest : list str) :
  let anomalies := _get_placeholder_anomaly_languages translations (first :: rest) in
  anomalies `sublist_of` rest
  /\ (forall lang,
        get_text translations lang = get_text translations first -> lang ∉ anomalies)
  /\ (first ∉ anomalies)
  /\ (_count_placeholder_anomalies translations (first :: rest) <= length rest)%nat
  /\ _get_placeholder_anomaly_languages translations [] = [].
Proof.
  intros anomalies.
  assert (Hsub : anomalies `sublist_of` rest
                 /\ forall lang,
                      get_text translations lang = get_text translations first ->
                      lang ∉ anomalies).
  { subst anomalies. destruct rest as [|second rest].
    - rewrite anomaly_languages_short by (simpl; lia).
      split; [apply sublist_nil_l | intros lang _; apply not_elem_of_nil].
    - rewrite anomaly_languages_eq.
      destruct (truthy (get_text translations first));
        [|split; [apply sublist_nil_l | intros lang _; apply not_elem_of_nil]].
      split; [apply sublist_filter|].
      intros lang Heq Hin. apply list_elem_of_filter in Hin as [Hc _].
      rewrite Heq, compare_placeholders_refl in Hc.
      rewrite andb_false_r in Hc. discriminate. }
  destruct Hsub as [Hsub Hsame]. split; [exact Hsub|]. split; [exact Hsame|].
  split; [now apply Hsame|]. split.
  - unfold _count_placeholder_anomalies. fold anomalies.
    now apply sublist_length in Hsub.
  - apply anomaly_languages_short. simpl. lia.
Qed.

(** A text without percent sign has no placeholder. *)
Lemma percent_at (text : str) (i : nat) (tl rest : str) :
  drop i text = (37 :: tl) ++ rest -> 37 ∈ text.
Proof.
  intros Hd. apply (list_elem_of_lookup_2 text i).
  rewrite <- (Nat.add_0_r i), <- lookup_drop, Hd. reflexivity.
Qed.

Lemma extract_placeholders_no_percent (text : str) :
  37 ∉ text -> _extract_placeholders text = [].
Proof.
  intros Hp. rewrite _extract_placeholders_eq.
  assert (Hn : Re.finditer NUMBERED text = []).
  { destruct (Re.finditer NUMBERED text) as [|m ms] eqn:Hf; [reflexivity|].
    exfalso. apply Hp.
    assert (H : numbered_at text (Re.start m) (Re.group0 m)).
    { apply finditer_NUMBERED. exists m. rewrite Hf. repeat split. left. }
    destruct H as (ds & t & rest & Hd & Hg & _). rewrite Hg in Hd.
    exact (percent_at _ _ _ _ Hd). }
  assert (Hs : Re.finditer SIMPLE text = []).
  { destruct (Re.finditer SIMPLE text) as [|m ms] eqn:Hf; [reflexivity|].
    exfalso. apply Hp.
    assert (H : simple_at text (Re.start m) (Re.group0 m)).
    { apply finditer_SIMPLE. exists m. rewrite Hf. repeat split. left. }
    destruct H as (t & rest & Hd & Hg & _). rewrite Hg in Hd.
    exact (percent_at _ _ _ _ Hd). }
  now rewrite Hn, Hs.
Qed.

(** X6: a text without percent sign has no placeholder; two such texts,
    both non-empty, compare as consistent, so a language is never flagged
    when neither its text nor the text of the first language holds a
    percent sign. *)
Theorem no_percent_no_anomaly :
  (forall text : str, 37 ∉ text -> _extract_placeholders text = [])
  /\ (forall a b : str,
        a <> [] -> b <> [] -> 37 ∉ a -> 37 ∉ b -> _compare_placeholders a b = true)
  /\ (forall (translations : gmap str str) (first : str) (rest : list str) (lang : str),
        37 ∉ get_text translations first ->
        37 ∉ get_text translations lang ->
        lang ∉ _get_placeholder_anomaly_languages translations (first :: rest)).
Proof.
  assert (Hcmp : forall a b : str,
            a <> [] -> b <> [] -> 37 ∉ a -> 37 ∉ b -> _compare_placeholders a b = true).
  { intros a b Ha Hb Hpa Hpb. unfold _compare_placeholders.
    apply truthy_true in Ha, Hb. rewrite Ha, Hb. cbn [negb orb].
    rewrite !extract_placeholders_no_percent by assumption.
    now apply bool_decide_eq_true. }
  split; [exact extract_placeholders_no_percent|]. split; [exact Hcmp|].
  intros translations first rest lang Hd Hl.
  destruct rest as [|second rest];
    try (rewrite anomaly_languages_short by (simpl; lia); apply not_elem_of_nil).
  rewrite anomaly_languages_eq.
  destruct (truthy (get_text translations first)) eqn:Ht; [|apply not_elem_of_nil].
  intros Hin. apply list_elem_of_filter in Hin as [Hc _].
  apply andb_true_iff in Hc as [Hl' Hc].
  rewrite Hcmp in Hc; [discriminate | | | assumption | assumption].
  - now apply truthy_true.
  - now apply truthy_true.
Qed.

(** ** The locale code of a qualifier *)

Lemma replace_from_absent (old new s : str) :
  contains old s = false -> replace_from old new 0 s = s.
Proof.
  induction s as [|c s IH]; [reflexivity|].
  cbn [contains replace_from]. intros H. apply orb_false_iff in H as [H1 H2].
  cbn [startswith] in H1. rewrite H1. now rewrite IH.
Qed.

(** A text that begins with [old] has it replaced there, and the scan
    goes on behind it. *)
Lemma replace_prefix (a : char) (old new s : str) :
  replace (a :: old) new ((a :: old) ++ s) = new ++ replace (a :: old) new s.
Proof.
  cbn [app]. rewrite replace_cons.
  match goal with
  | |- (if ?b then _ else _) = _ =>
      assert (H : b = true) by (apply startswith_spec; now exists s); rewrite H
  end.
  now rewrite drop_app_length.
Qed.

Lemma sub_from_no_match (r : Re.regex) (t : list Re.titem) (pos : nat) (s : str) :
  Re.search_from r pos s = None -> Re.sub_from r t 0 s = s.
Proof.
  revert pos. induction s as [|c s IH]; intros pos; [reflexivity|].
  cbn [Re.search_from Re.sub_from].
  destruct (Re.match_here r (c :: s)) as [[g0 gs]|]; [discriminate|].
  intros H. now rewrite (IH _ H).
Qed.

Lemma sub_from_skip (r : Re.regex) (t : list Re.titem) (k : nat) (s : str) :
  Re.sub_from r t k s = Re.sub_from r t 0 (drop k s).
Proof.
  revert k. induction s as [|c s IH]; intros [|k]; simpl; try reflexivity. apply IH.
Qed.

(** The pattern [REGION_MARKER] at the head of a text. *)
Lemma match_here_REGION (x y : char) (rest : str) :
  upper x = true -> upper y = true ->
  Re.match_here REGION_MARKER (45 :: 114 :: x :: y :: rest)
  = Some ([45; 114; x; y], [[x; y]]).
Proof.
  intros Hx Hy. unfold Re.match_here, REGION_MARKER. cbn [Re.run].
  rewrite !N.eqb_refl, Hx, Hy. cbn [length app].
  replace (S (S (S (S (length rest)))) - length rest)%nat with 4%nat by lia.
  replace (S (S (length rest)) - length rest)%nat with 2%nat by lia.
  reflexivity.
Qed.

Lemma match_here_REGION_other (c : char) (s : str) :
  c <> 45 -> Re.match_here REGION_MARKER (c :: s) = None.
Proof.
  intros Hc. unfold Re.match_here, REGION_MARKER. cbn [Re.run].
  destruct (N.eqb_spec c 45); [contradiction | reflexivity].
Qed.

(** The substitution passes over a text without hyphen. *)
Lemma sub_region_app (l s : str) :
  45 ∉ l ->
  Re.sub REGION_MARKER [Re.TChr 45; Re.TRef 1] (l ++ s)
  = l ++ Re.sub REGION_MARKER [Re.TChr 45; Re.TRef 1] s.
Proof.
  unfold Re.sub. induction l as [|c l IH]; intros Hl; [reflexivity|].
  apply not_elem_of_cons in Hl as [Hc Hl].
  cbn [app Re.sub_from].
  rewrite match_here_REGION_other by congruence. now rewrite IH.
Qed.

(** X7: for a directory name [values-q] in which the text [values-] does
    not occur again and the region pattern (hyphen, r, two capital letters)
    does not occur, the locale code is [q] itself. *)
Theorem extract_language_code_passes_qualifier (q : str) :
  contains (lit "values-") q = false ->
  Re.search REGION_MARKER q = None ->
  _extract_language_code (lit "values-" ++ q) = q.
Proof.
  intros Hv Hr. unfold _extract_language_code.
  rewrite bool_decide_eq_false_2 by discriminate.
  change (lit "values-") with (118 :: lit "alues-").
  rewrite replace_prefix. cbn [app]. unfold replace.
  rewrite replace_from_absent by exact Hv.
  unfold Re.sub. now apply (sub_from_no_match _ _ 0%nat).
Qed.

Lemma extract_language_code_passes_qualifier_witness :
  _extract_language_code (lit "values-" ++ lit "fr-CA") = lit "fr-CA".
Proof. apply extract_language_code_passes_qualifier; reflexivity. Defined.

(** X8: for a directory name made of [values-], a language part without
    hyphen, and the region marker (hyphen, r, two capital letters), in
    which [values-] does not occur again, the locale code is the language
    part, a hyphen and the two letters. *)
Theorem extract_language_code_region (l : str) (x y : char) :
  45 ∉ l -> upper x = true -> upper y = true ->
  contains (lit "values-") (l ++ [45; 114; x; y]) = false ->
  _extract_language_code (lit "values-" ++ l ++ [45; 114; x; y]) = l ++ [45; x; y].
Proof.
  intros Hl Hx Hy Hv. unfold _extract_language_code.
  rewrite bool_decide_eq_false_2 by discriminate.
  change (lit "values-") with (118 :: lit "alues-").
  rewrite replace_prefix. cbn [app]. unfold replace.
  rewrite replace_from_absent by exact Hv.
  rewrite sub_region_app by exact Hl. f_equal.
  unfold Re.sub. cbn [Re.sub_from].
  rewrite match_here_REGION by assumption. reflexivity.
Qed.

Lemma extract_language_code_region_witness :
  _extract_language_code (lit "values-" ++ lit "zh" ++ [45; 114; 67; 78])
  = lit "zh" ++ [45; 67; 78].
Proof.
  apply extract_language_code_region; try reflexivity.
  intros H. repeat (apply elem_of_cons in H as [H|H]; [discriminate|]). inversion H.
Defined.

(** ** The text of an element and the strings of a file *)

Lemma part_concat (t : option str) : concat (part t) = default [] t.
Proof.
  destruct t as [[|c s]|]; simpl; try reflexivity. now rewrite app_nil_r.
Qed.

(** X9: [_extract_element_text] returns the text of the element in
    document order: its own text, then for each child the whole text of the
    child followed by the tail of the child; the tail of the element itself
    is not part of it. *)
Theorem extract_element_text_flatten (e : element) :
  _extract_element_text e = flatten e.
Proof.
  revert e. fix IH 1. intros [tg at_ tx cs tl].
  cbn [_extract_element_text flatten].
  rewrite <- (part_concat tx). generalize (part tx) as acc.
  induction cs as [|c cs IHcs]; intros acc; cbn [map concat].
  - now rewrite app_nil_r.
  - rewrite IHcs, !concat_app, !part_concat, IH. cbn [default from_option id].
    now rewrite <- !app_assoc.
Qed.


(** ** The dictionary of one file *)

Lemma oset_keys (k v : str) (d : odict) :
  map fst (oset k v d) = if bool_decide (k ∈ map fst d) then map fst d else map fst d ++ [k].
Proof.
  induction d as [|[k' v'] d IH]; [reflexivity|].
  cbn [oset map fst]. destruct (decide (k' = k)) as [-> | Hne].
  - rewrite bool_decide_eq_true_2 by reflexivity.
    rewrite bool_decide_eq_true_2 by left. reflexivity.
  - rewrite bool_decide_eq_false_2 by assumption. cbn [map fst]. rewrite IH.
    destruct (decide (k ∈ map fst d)) as [Hin | Hin].
    + rewrite !bool_decide_eq_true_2; [reflexivity | now right | assumption].
    + rewrite !bool_decide_eq_false_2; [reflexivity | | assumption].
      intros H. apply elem_of_cons in H as [H | H]; congruence.
Qed.

Lemma oset_NoDup (k v : str) (d : odict) :
  NoDup (map fst d) -> NoDup (map fst (oset k v d)).
Proof.
  intros Hd. rewrite oset_keys. destruct (decide (k ∈ map fst d)) as [Hin | Hin].
  - now rewrite bool_decide_eq_true_2.
  - rewrite bool_decide_eq_false_2 by assumption.
    apply NoDup_app. split; [assumption|]. split; [|apply NoDup_singleton].
    intros x Hx Hx'. apply list_elem_of_singleton in Hx'. congruence.
Qed.

(** As a map, [d[k] = v] is an insertion. *)
Lemma oset_to_map (k v : str) (d : odict) :
  NoDup (map fst d) ->
  (list_to_map (oset k v d) : gmap str str) = <[k := v]> (list_to_map d).
Proof.
  induction d as [|[k' v'] d IH]; intros Hd; [reflexivity|].
  cbn [map fst] in Hd. apply NoDup_cons in Hd as [Hk' Hd].
  cbn [oset]. destruct (decide (k' = k)) as [-> | Hne].
  - rewrite bool_decide_eq_true_2 by reflexivity. cbn [list_to_map foldr uncurry].
    simpl. now rewrite insert_insert_eq.
  - rewrite bool_decide_eq_false_2 by assumption. simpl. rewrite IH by assumption.
    now apply insert_insert_ne.
Qed.

Lemma foldl_ext {A B : Type} (f g : A -> B -> A) (a : A) (l : list B) :
  (forall a x, f a x = g a x) -> foldl f a l = foldl g a l.
Proof.
  intros H. revert a. induction l as [|x l IH]; intros a; simpl; [reflexivity|].
  now rewrite H, IH.
Qed.

Lemma strings_of_root_fold (root : element) :
  strings_of_root root = foldl add_entry [] (findall (lit "string") root).
Proof.
  unfold strings_of_root. apply foldl_ext. intros strings e.
  unfold add_entry, named_entry.
  destruct (attrib e !! lit "name") as [name|]; [|reflexivity].
  destruct (truthy name); reflexivity.
Qed.

Lemma add_entry_NoDup (strings : odict) (e : element) :
  NoDup (map fst strings) -> NoDup (map fst (add_entry strings e)).
Proof.
  intros H. unfold add_entry. destruct (named_entry e) as [[name text]|]; [|assumption].
  now apply oset_NoDup.
Qed.

Lemma entries_NoDup (elems : list element) :
  NoDup (map fst (foldl add_entry [] elems)).
Proof.
  apply (foldl_invariant (fun d : odict => NoDup (map fst d))); [constructor|].
  intros d e. apply add_entry_NoDup.
Qed.

Lemma entries_to_map (elems : list element) :
  (list_to_map (foldl add_entry [] elems) : gmap str str)
  = foldl insert_entry ∅ elems.
Proof.
  induction elems as [|e elems IH] using rev_ind; [reflexivity|].
  rewrite !foldl_app. cbn [foldl]. rewrite <- IH.
  unfold add_entry at 1. unfold insert_entry at 1.
  destruct (named_entry e) as [[name text]|]; [|reflexivity].
  apply oset_to_map, entries_NoDup.
Qed.

Lemma insert_entries_other (m : gmap str str) (elems : list element) (k : str) :
  (forall e v, e ∈ elems -> named_entry e <> Some (k, v)) ->
  foldl insert_entry m elems !! k = m !! k.
Proof.
  revert m. induction elems as [|e elems IH]; intros m H; [reflexivity|].
  cbn [foldl]. rewrite IH by (intros e' v He'; apply H; now right).
  unfold insert_entry. destruct (named_entry e) as [[name text]|] eqn:He; [|reflexivity].
  apply lookup_insert_ne. intros ->. apply (H e text); [left | exact He].
Qed.

Lemma insert_entries_source (elems : list element) (k v : str) :
  foldl insert_entry ∅ elems !! k = Some v ->
  exists e, e ∈ elems /\ named_entry e = Some (k, v).
Proof.
  induction elems as [|e elems IH] using rev_ind.
  - cbn [foldl]. rewrite lookup_empty. discriminate.
  - rewrite foldl_app. cbn [foldl]. unfold insert_entry at 1.
    destruct (named_entry e) as [[name text]|] eqn:He.
    + destruct (decide (name = k)) as [-> | Hne].
      * rewrite lookup_insert_eq. intros [= ->]. exists e. split; [|assumption].
        apply elem_of_app. right. left.
      * rewrite lookup_insert_ne by assumption. intros H.
        destruct (IH H) as (e' & He' & Hn). exists e'. split; [|assumption].
        apply elem_of_app. now left.
    + intros H. destruct (IH H) as (e' & He' & Hn). exists e'. split; [|assumption].
      apply elem_of_app. now left.
Qed.

Lemma named_entry_name (e : element) (k v : str) :
  named_entry e = Some (k, v) ->
  k <> [] /\ attrib e !! lit "name" = Some k
  /\ v = _unescape_xml (_extract_element_text e).
Proof.
  unfold named_entry. destruct (attrib e !! lit "name") as [name|]; [|discriminate].
  destruct (truthy name) eqn:Ht; [|discriminate]. intros [= <- <-].
  split; [now apply truthy_true | split; reflexivity].
Qed.

Lemma named_entry_intro (e : element) (k : str) :
  k <> [] -> attrib e !! lit "name" = Some k ->
  named_entry e = Some (k, _unescape_xml (_extract_element_text e)).
Proof.
  intros Hk Ha. unfold named_entry.
  destruct (attrib e !! lit "name") as [name|] eqn:E.
  - injection Ha as ->. apply truthy_true in Hk. now rewrite Hk.
  - discriminate.
Qed.

(** X10: the dictionary that [parse_strings_xml] builds from a root has
    each key once; every entry is the non-empty name of a [string] child of
    the root with the unescaped text of that child; and of several
    children with one name the last one gives the text. *)
Theorem strings_of_root_entries (root : element) :
  let strings := strings_of_root root in
  let elems := findall (lit "string") root in
  NoDup (map fst strings)
  /\ (forall k v, (k, v) ∈ strings ->
        k <> []
        /\ exists e, e ∈ elems /\ attrib e !! lit "name" = Some k
                     /\ v = _unescape_xml (_extract_element_text e))
  /\ (forall l1 e l2 k,
        elems = l1 ++ e :: l2 ->
        k <> [] -> attrib e !! lit "name" = Some k ->
        (forall e', e' ∈ l2 -> attrib e' !! lit "name" <> Some k) ->
        (k, _unescape_xml (_extract_element_text e)) ∈ strings).
Proof.
  intros strings elems. subst strings elems. rewrite strings_of_root_fold.
  set (elems := findall (lit "string") root).
  pose proof (entries_NoDup elems) as Hnd.
  split; [exact Hnd|]. split.
  - intros k v Hin.
    apply (elem_of_list_to_map (M := gmap str)) in Hin; [|exact Hnd].
    rewrite entries_to_map in Hin.
    apply insert_entries_source in Hin as (e & He & Hn).
    apply named_entry_name in Hn as (Hk & Ha & Hv). eauto.
  - intros l1 e l2 k Hel Hk Ha Hl2.
    apply (elem_of_list_to_map (M := gmap str)); [exact Hnd|].
    rewrite entries_to_map, Hel, foldl_app. cbn [foldl].
    rewrite insert_entries_other.
    + unfold insert_entry. rewrite (named_entry_intro e k Hk Ha).
      apply lookup_insert_eq.
    + intros e' v He' Hn. apply named_entry_name in Hn as (_ & Ha' & _).
      now apply (Hl2 e').
Qed.


(** ** The files found and the languages discovered *)

Lemma find_string_files_elem (entries : list res_entry) (f : xml_file) (lang : str) :
  (f, lang) ∈ find_string_files (Some entries) <->
  exists e, e ∈ entries /\ values_dir_with e f
            /\ lang = _extract_language_code (entry_name e).
Proof.
  unfold find_string_files, values_dir_with.
  induction entries as [|e entries IH] using rev_ind.
  - cbn [foldl]. split; [intros H; inversion H|].
    intros (e & He & _). inversion He.
  - rewrite foldl_app. cbn [foldl].
    assert (Hsplit : forall P : res_entry -> Prop,
              (exists e', e' ∈ entries ++ [e] /\ P e')
              <-> (exists e', e' ∈ entries /\ P e') \/ P e).
    { intros P. split.
      - intros (e' & He' & HP). apply elem_of_app in He' as [He' | He'].
        + left. eauto.
        + apply list_elem_of_singleton in He' as ->. now right.
      - intros [(e' & He' & HP) | HP].
        + exists e'. split; [apply elem_of_app; now left | assumption].
        + exists e. split; [apply elem_of_app; right; left | assumption]. }
    rewrite (Hsplit (fun e' =>
      (startswith (lit "values") (entry_name e') = true
       /\ is_dir e' = true /\ strings_xml e' = Some f)
      /\ lang = _extract_language_code (entry_name e'))).
    rewrite <- IH.
    destruct (startswith (lit "values") (entry_name e) && is_dir e) eqn:Hv.
    + apply andb_true_iff in Hv as [Hv Hd].
      destruct (strings_xml e) as [f'|] eqn:Hf.
      * rewrite elem_of_app, list_elem_of_singleton. split.
        -- intros [H | [= -> ->]]; [now left | right]. repeat split; assumption.
        -- intros [H | [(_ & _ & [= ->]) ->]]; [now left | now right].
      * split; [now left|]. intros [H | [(_ & _ & H) _]]; [assumption | discriminate].
    + split; [now left|]. intros [H | [(H1 & H2 & _) _]]; [assumption|].
      rewrite H1, H2 in Hv. discriminate.
Qed.

Lemma simple_extract_files_languages (ET_parse : list N -> xml_result)
    (ET_fromstring : str -> xml_result) (decode : list N -> str)
    (files : list (xml_file * str)) (st : gset str * table * list message) (lang : str) :
  lang ∈ (foldl (ExtractorSimple.extract_file ET_parse ET_fromstring decode) st files).1.1
  <-> lang ∈ st.1.1 \/ exists f, (f, lang) ∈ files.
Proof.
  revert st. induction files as [|[f l] files IH]; intros [[languages t] log].
  - cbn [foldl fst]. split; [now left|]. intros [H | (f & H)]; [assumption | inversion H].
  - cbn [foldl]. rewrite IH. unfold ExtractorSimple.extract_file.
    destruct (ExtractorSimple.parse_strings_xml _ _ _ f) as [strings warnings].
    cbn [fst]. rewrite elem_of_union, elem_of_singleton. split.
    + intros [[H | ->] | (f' & H)].
      * now left.
      * right. exists f. left.
      * right. exists f'. now right.
    + intros [H | (f' & H)]; [now left; left|].
      apply elem_of_cons in H as [[= -> ->] | H]; [left; now right | right; eauto].
Qed.

(** X12: when [extract_all_strings] of the simple extractor returns, the
    discovered languages are the ones known before together with the
    locale code of every [values*] directory of [res] that holds a
    [strings.xml], whether or not that file could be parsed. *)
Theorem simple_discovered_languages (ET_parse : list N -> xml_result)
    (ET_fromstring : str -> xml_result) (decode : list N -> str)
    (self self' : extractor) (extract_path : res_dir) (log : list message) :
  ExtractorSimple.extract_all_strings ET_parse ET_fromstring decode self
    (Return extract_path) = (Return self', log) ->
  forall lang,
    lang ∈ languages self' <->
    lang ∈ languages self
    \/ exists entries e f,
         extract_path = Some entries /\ e ∈ entries /\ values_dir_with e f
         /\ lang = _extract_language_code (entry_name e).
Proof.
  unfold ExtractorSimple.extract_all_strings. intros Hrun lang.
  pose proof (simple_extract_files_languages ET_parse ET_fromstring decode
                (find_string_files extract_path) (languages self, ∅, []) lang) as H.
  remember (find_string_files extract_path) as found eqn:Hfound.
  destruct found as [|file files]; [discriminate|].
  destruct (foldl _ _ (file :: files)) as [[languages' t'] log'].
  injection Hrun as <- _. cbn [languages]. cbn [fst] in H. rewrite H. clear H.
  rewrite Hfound.
  destruct extract_path as [entries|]; [|discriminate].
  split.
  - intros [H | (f & H)]; [now left | right].
    apply find_string_files_elem in H as (e & He & Hv & Hl). exists entries, e, f. auto.
  - intros [H | (entries' & e & f & [= <-] & He & Hv & Hl)]; [now left | right].
    exists f. apply find_string_files_elem. eauto.
Qed.

Lemma simple_discovered_languages_witness :
  let self := mkExtractor ∅ ∅ None in
  let self' := mkExtractor {[ lit "greet" := {[ lit "default" := lit "Hi %s" ]} ]}
                 {[ lit "default"; lit "de" ]} None in
  lit "de" ∈ languages self' <->
  lit "de" ∈ languages self
  \/ exists entries e f,
       Example.RES = Some entries /\ e ∈ entries /\ values_dir_with e f
       /\ lit "de" = _extract_language_code (entry_name e).
Proof.
  intros self self'.
  apply (simple_discovered_languages Example.ET_parse Example.ET_fromstring
           Example.decode_utf8_ignore self self' Example.RES (Example.extract None).2).
  vm_compute. reflexivity.
Defined.


(** ** Errors of the simple extractor *)

Lemma simple_all_binary_table (ET_parse : list N -> xml_result)
    (ET_fromstring : str -> xml_result) (decode : list N -> str)
    (files : list (xml_file * str)) (st : gset str * table * list message) :
  (forall f lang, (f, lang) ∈ files -> is_binary f) ->
  (foldl (ExtractorSimple.extract_file ET_parse ET_fromstring decode) st files).1.2
  = st.1.2.
Proof.
  revert st. induction files as [|[f l] files IH]; intros [[languages t] log] Hbin;
    [reflexivity|].
  cbn [foldl]. rewrite IH by (intros f' l' H; apply (Hbin f' l'); now right).
  unfold ExtractorSimple.extract_file.
  rewrite parse_binary by (apply (Hbin f l); left). reflexivity.
Qed.

(** X13: [extract_all_strings] of the simple extractor passes on the error
    of the unpacking; after a successful unpacking it raises [ValueError]
    exactly when no [strings.xml] was found and returns otherwise, even
    when no file could be parsed.  When every file found is binary, the
    table it returns is empty and [create_dataframe] then raises
    [ValueError]. *)
Theorem simple_extract_errors (ET_parse : list N -> xml_result)
    (ET_fromstring : str -> xml_result) (decode : list N -> str)
    (self : extractor) :
  let run := ExtractorSimple.extract_all_strings ET_parse ET_fromstring decode self in
  (forall e, run (Raise e) = (Raise e, []))
  /\ (forall extract_path,
        find_string_files extract_path = [] ->
        run (Return extract_path) = (Raise ValueError, []))
  /\ (forall extract_path,
        find_string_files extract_path <> [] ->
        exists self' log, run (Return extract_path) = (Return self', log))
  /\ (forall extract_path self' log,
        run (Return extract_path) = (Return self', log) ->
        (forall f lang, (f, lang) ∈ find_string_files extract_path -> is_binary f) ->
        strings_data self' = ∅
        /\ ExtractorSimple.create_dataframe self' = (Raise ValueError, [])).
Proof.
  intros run. subst run. unfold ExtractorSimple.extract_all_strings.
  split; [reflexivity|]. split; [intros path ->; reflexivity|]. split.
  - intros path Hne. destruct (find_string_files path) as [|file files]; [congruence|].
    destruct (foldl _ _ (file :: files)) as [[languages' t'] log']. eauto.
  - intros path self' log Hrun Hbin.
    pose proof (simple_all_binary_table ET_parse ET_fromstring decode
                  (find_string_files path) (languages self, ∅, []) Hbin) as Ht.
    destruct (find_string_files path) as [|file files]; [discriminate|].
    destruct (foldl _ _ (file :: files)) as [[languages' t'] log'].
    cbn [fst snd] in Ht. subst t'. injection Hrun as <- _.
    split; [reflexivity|]. unfold ExtractorSimple.create_dataframe. cbn [strings_data].
    now rewrite bool_decide_eq_true_2.
Qed.

(** ** Every locale with a text is a discovered locale *)

Lemma store_locales_within (languages : gset str) (lang_code : str) (t : table)
    (item : str * str) :
  locales_within languages t ->
  locales_within (languages ∪ {[ lang_code ]}) (store lang_code t item).
Proof.
  intros Ht key translations lang. destruct item as [k value]. unfold store.
  destruct (decide (k = key)) as [-> | Hk].
  - rewrite lookup_alter_eq. rewrite elem_of_union, elem_of_singleton.
    destruct (t !! key) as [d|] eqn:Hd.
    + rewrite Hd. intros [= <-]. destruct (decide (lang_code = lang)) as [-> | Hl];
        [now right|].
      rewrite lookup_insert_ne by assumption. intros H. left. eapply Ht; eauto.
    + rewrite lookup_insert_eq. intros [= <-].
      destruct (decide (lang_code = lang)) as [-> | Hl]; [now right|].
      rewrite lookup_insert_ne, lookup_empty by assumption. intros [x Hx]. discriminate.
  - rewrite lookup_alter_ne by assumption. intros H1 H2. apply elem_of_union. left.
    destruct (t !! k); [|rewrite lookup_insert_ne in H1 by assumption]; eapply Ht; eauto.
Qed.

Lemma locales_within_empty (languages : gset str) : locales_within languages ∅.
Proof. intros key translations lang Hk. rewrite lookup_empty in Hk. discriminate. Qed.

Lemma locales_within_mono (l1 l2 : gset str) (t : table) :
  l1 ⊆ l2 -> locales_within l1 t -> locales_within l2 t.
Proof. intros Hsub Ht key translations lang H1 H2. apply Hsub. eapply Ht; eauto. Qed.

Lemma store_file_locales_within (languages : gset str) (lang_code : str)
    (strings : odict) (t : table) :
  locales_within languages t ->
  locales_within (languages ∪ {[ lang_code ]}) (store_file lang_code strings t).
Proof.
  intros Ht. unfold store_file.
  apply (foldl_invariant (locales_within (languages ∪ {[ lang_code ]}))).
  - apply (locales_within_mono languages); [apply union_subseteq_l | exact Ht].
  - intros t' item Ht'.
    apply (locales_within_mono ((languages ∪ {[ lang_code ]}) ∪ {[ lang_code ]}));
      [|now apply store_locales_within].
    apply union_least; [reflexivity | apply union_subseteq_r].
Qed.

Lemma simple_extract_files_locales (ET_parse : list N -> xml_result)
    (ET_fromstring : str -> xml_result) (decode : list N -> str)
    (files : list (xml_file * str)) (st : gset str * table * list message) :
  locales_within st.1.1 st.1.2 ->
  let st' := foldl (ExtractorSimple.extract_file ET_parse ET_fromstring decode) st files in
  locales_within st'.1.1 st'.1.2.
Proof.
  revert st. induction files as [|[f l] files IH]; intros [[languages t] log] Hst;
    [exact Hst|].
  cbn [foldl]. apply IH. unfold ExtractorSimple.extract_file.
  destruct (ExtractorSimple.parse_strings_xml _ _ _ f) as [strings warnings].
  cbn [fst snd] in *. now apply store_file_locales_within.
Qed.

Lemma local_extract_files_locales (parse : xml_file -> odict)
    (files : list (xml_file * str)) (st : gset str * table) :
  locales_within st.1 st.2 ->
  let st' := foldl (ExtractorLocal.extract_file parse) st files in
  locales_within st'.1 st'.2.
Proof.
  revert st. induction files as [|[f l] files IH]; intros [languages t] Hst;
    [exact Hst|].
  cbn [foldl]. apply IH. unfold ExtractorLocal.extract_file.
  cbn [fst snd] in *. now apply store_file_locales_within.
Qed.

Lemma parser_locales_parse_line (st : ExtractorLocal.parser) (line : str) :
  parser_locales_within st -> parser_locales_within (ExtractorLocal.parse_line st line).
Proof.
  assert (Hsave : forall st, parser_locales_within st ->
                    parser_locales_within (ExtractorLocal.save_current st)).
  { intros st0 H0. unfold ExtractorLocal.save_current.
    destruct (ExtractorLocal.current_string_name st0) as [name|]; [|assumption].
    destruct (truthy name && ExtractorLocal.dict_truthy _ _); assumption. }
  assert (Hbegin : forall name st, parser_locales_within st ->
                     parser_locales_within (ExtractorLocal.begin_string name st)).
  { intros name st0 H0 r d lang Hr Hd. cbn in Hr |- *.
    apply lookup_app_Some in Hr as [Hr | [_ Hr]]; [eapply H0; eauto|].
    apply list_lookup_singleton_Some in Hr as [_ <-].
    rewrite lookup_empty in Hd. destruct Hd as [x Hx]. discriminate. }
  assert (Hput : forall language value st, parser_locales_within st ->
                   parser_locales_within (ExtractorLocal.put_value language value st)).
  { intros language value st0 H0 r d lang Hr Hd. cbn in Hr |- *.
    rewrite elem_of_union, elem_of_singleton.
    destruct (decide (ExtractorLocal.current_string_data st0 = r)) as [<- | Hne].
    - rewrite list_lookup_alter_eq in Hr.
      destruct (ExtractorLocal.objects st0 !! ExtractorLocal.current_string_data st0)
        as [d0|] eqn:Hd0; [|discriminate].
      injection Hr as <-. destruct (decide (language = lang)) as [-> | Hl]; [now right|].
      rewrite lookup_insert_ne in Hd by assumption. left. eapply H0; eauto.
    - rewrite list_lookup_alter_ne in Hr by assumption. left. eapply H0; eauto. }
  intros Hst. unfold ExtractorLocal.parse_line.
  repeat match goal with
  | |- parser_locales_within (if ?b then _ else _) => destruct b
  | |- parser_locales_within (match ?o with Some _ => _ | None => _ end) => destruct o
  end; auto.
Qed.

Lemma parser_view_locales (st : ExtractorLocal.parser) :
  parser_locales_within st ->
  locales_within (ExtractorLocal.p_languages st) (ExtractorLocal.view st).
Proof.
  intros Hst key translations lang. unfold ExtractorLocal.view. rewrite lookup_omap.
  destruct (ExtractorLocal.p_strings_data st !! key) as [r|]; [|discriminate].
  cbn. intros Hr Hd. eapply Hst; eauto.
Qed.

Lemma aapt2_locales_within (languages : gset str) (output : str) :
  let result := ExtractorLocal._parse_aapt2_resources_output languages output in
  locales_within result.2 result.1.
Proof.
  cbn zeta. unfold ExtractorLocal._parse_aapt2_resources_output. cbn [fst snd].
  set (st := foldl ExtractorLocal.parse_line _ _).
  assert (Hst : parser_locales_within st).
  { subst st. apply (foldl_invariant parser_locales_within).
    - intros r d lang Hr Hd. cbn in Hr.
      apply list_lookup_singleton_Some in Hr as [_ <-].
      rewrite lookup_empty in Hd. destruct Hd as [x Hx]. discriminate.
    - intros s x. apply parser_locales_parse_line. }
  assert (Hsave : parser_locales_within (ExtractorLocal.save_current st)).
  { unfold ExtractorLocal.save_current.
    destruct (ExtractorLocal.current_string_name st) as [name|]; [|assumption].
    destruct (truthy name && ExtractorLocal.dict_truthy _ _); assumption. }
  now apply parser_view_locales.
Qed.

(** X14: in the extractor object that [extract_all_strings] returns, of
    either file, every locale for which the table holds a text of some key
    is one of the discovered languages. *)
Theorem table_locales_are_discovered :
  (forall (ET_parse : list N -> xml_result) (ET_fromstring : str -> xml_result)
      (decode : list N -> str) (self self' : extractor) (extracted : outcome res_dir)
      (log : list message),
      ExtractorSimple.extract_all_strings ET_parse ET_fromstring decode self extracted
        = (Return self', log) ->
      locales_within (languages self') (strings_data self'))
  /\ (forall (parse : xml_file -> odict) (self self' : extractor) (stdout : option str)
        (extracted : outcome res_dir),
        ExtractorLocal.extract_all_strings parse self stdout extracted = Return self' ->
        locales_within (languages self') (strings_data self')).
Proof.
  split.
  - intros ET_parse ET_fromstring decode self self' extracted log.
    unfold ExtractorSimple.extract_all_strings.
    destruct extracted as [path | e]; [|discriminate].
    pose proof (simple_extract_files_locales ET_parse ET_fromstring decode
                  (find_string_files path) (languages self, ∅, [])) as H.
    destruct (find_string_files path) as [|file files]; [discriminate|].
    destruct (foldl _ _ (file :: files)) as [[languages' t'] log'].
    intros [= <- _]. cbn [languages strings_data]. apply H.
    apply locales_within_empty.
  - intros parse self self' stdout extracted.
    unfold ExtractorLocal.extract_all_strings.
    assert (H2 : let r := ExtractorLocal.extract_strings_with_aapt2 (languages self) stdout in
                 locales_within r.2 r.1).
    { destruct stdout as [output|]; [apply aapt2_locales_within|].
      apply locales_within_empty. }
    cbn zeta in H2.
    destruct (ExtractorLocal.extract_strings_with_aapt2 (languages self) stdout)
      as [all_strings langs]. cbn [fst snd] in H2.
    destruct (bool_decide (all_strings = ∅)); [|now intros [= <-]].
    unfold ExtractorLocal._extract_strings_from_xml.
    destruct extracted as [path | e]; [|discriminate].
    pose proof (local_extract_files_locales parse (find_string_files path)
                  (langs, all_strings) H2) as H.
    destruct (find_string_files path) as [|file files]; [now intros [= <-]|].
    destruct (foldl _ _ (file :: files)) as [languages' t']. now intros [= <-].
Qed.


(** ** The table holds what the files hold *)

Lemma store_text_same (lang_code : str) (t : table) (k v key : str) :
  table_text (store lang_code t (k, v)) key lang_code
  = if bool_decide (k = key) then Some v else table_text t key lang_code.
Proof.
  unfold table_text, store. destruct (decide (k = key)) as [-> | Hne].
  - rewrite bool_decide_eq_true_2 by reflexivity. rewrite lookup_alter_eq.
    destruct (t !! key) as [d|] eqn:Hd.
    + rewrite Hd. cbn. apply lookup_insert_eq.
    + rewrite lookup_insert_eq. cbn. apply lookup_insert_eq.
  - rewrite bool_decide_eq_false_2 by assumption. rewrite lookup_alter_ne by assumption.
    destruct (t !! k); [reflexivity|]. now rewrite lookup_insert_ne.
Qed.

Lemma store_text_other (lang_code lang : str) (t : table) (item : str * str) (key : str) :
  lang_code <> lang ->
  table_text (store lang_code t item) key lang = table_text t key lang.
Proof.
  intros Hl. destruct item as [k v]. unfold table_text, store.
  destruct (decide (k = key)) as [-> | Hne].
  - rewrite lookup_alter_eq. destruct (t !! key) as [d|] eqn:Hd.
    + rewrite Hd. cbn. now apply lookup_insert_ne.
    + rewrite lookup_insert_eq. cbn. rewrite lookup_insert_ne by assumption.
      apply lookup_empty.
  - rewrite lookup_alter_ne by assumption.
    destruct (t !! k); [reflexivity|]. now rewrite lookup_insert_ne.
Qed.

Lemma store_file_text_other (lang_code lang : str) (strings : odict) (t : table)
    (key : str) :
  lang_code <> lang ->
  table_text (store_file lang_code strings t) key lang = table_text t key lang.
Proof.
  intros Hl. unfold store_file. revert t.
  induction strings as [|item strings IH]; intros t; [reflexivity|].
  cbn [foldl]. rewrite IH. now apply store_text_other.
Qed.

(** Storing a dictionary with each key once: afterwards the table holds
    for the locale of the file what the dictionary holds. *)
Lemma store_file_text_same (lang_code : str) (strings : odict) (t : table) (key : str) :
  NoDup (map fst strings) ->
  table_text (store_file lang_code strings t) key lang_code
  = match (list_to_map strings : gmap str str) !! key with
    | Some v => Some v
    | None => table_text t key lang_code
    end.
Proof.
  unfold store_file. revert t.
  induction strings as [|[k v] strings IH]; intros t Hnd; [reflexivity|].
  cbn [map fst] in Hnd. apply NoDup_cons in Hnd as [Hk Hnd].
  cbn [foldl]. rewrite IH by assumption. cbn [list_to_map foldr uncurry].
  change (foldr (fun '(i, x) => <[i := x]>) ∅ strings)
    with (list_to_map strings : gmap str str).
  rewrite store_text_same. destruct (decide (k = key)) as [-> | Hne].
  - rewrite bool_decide_eq_true_2 by reflexivity.
    rewrite (not_elem_of_list_to_map_1 (M := gmap str)) by exact Hk.
    cbn. now rewrite lookup_insert_eq.
  - rewrite bool_decide_eq_false_2 by assumption. cbn.
    now rewrite lookup_insert_ne.
Qed.

Lemma simple_parse_NoDup (ET_parse : list N -> xml_result)
    (ET_fromstring : str -> xml_result) (decode : list N -> str) (f : xml_file) :
  NoDup (map fst (ExtractorSimple.parse_strings_xml ET_parse ET_fromstring decode f).1).
Proof.
  unfold ExtractorSimple.parse_strings_xml.
  destruct (ExtractorSimple._try_parse_binary_xml _ _ _ f) as [[root|] log]; cbn [fst].
  - rewrite strings_of_root_fold. apply entries_NoDup.
  - constructor.
Qed.

Lemma simple_extract_files_text_other (ET_parse : list N -> xml_result)
    (ET_fromstring : str -> xml_result) (decode : list N -> str)
    (files : list (xml_file * str)) (st : gset str * table * list message)
    (key lang : str) :
  lang ∉ map snd files ->
  table_text (foldl (ExtractorSimple.extract_file ET_parse ET_fromstring decode) st files).1.2
    key lang
  = table_text st.1.2 key lang.
Proof.
  revert st. induction files as [|[f l] files IH]; intros [[languages t] log] Hl;
    [reflexivity|].
  cbn [map snd] in Hl. apply not_elem_of_cons in Hl as [Hne Hl].
  cbn [foldl]. rewrite IH by assumption. unfold ExtractorSimple.extract_file.
  destruct (ExtractorSimple.parse_strings_xml _ _ _ f) as [strings warnings].
  cbn [fst snd]. apply store_file_text_other. congruence.
Qed.

Lemma simple_extract_files_text (ET_parse : list N -> xml_result)
    (ET_fromstring : str -> xml_result) (decode : list N -> str)
    (files : list (xml_file * str)) (st : gset str * table * list message)
    (f : xml_file) (key lang : str) :
  NoDup (map snd files) -> (f, lang) ∈ files ->
  (forall key, table_text st.1.2 key lang = None) ->
  table_text (foldl (ExtractorSimple.extract_file ET_parse ET_fromstring decode) st files).1.2
    key lang
  = (list_to_map (ExtractorSimple.parse_strings_xml ET_parse ET_fromstring decode f).1
       : gmap str str) !! key.
Proof.
  revert st. induction files as [|[f0 l0] files IH]; intros [[languages t] log] Hnd Hin Ht;
    [inversion Hin|].
  cbn [map snd] in Hnd. apply NoDup_cons in Hnd as [Hl0 Hnd].
  cbn [foldl]. apply elem_of_cons in Hin as [[= -> ->] | Hin].
  - rewrite simple_extract_files_text_other by exact Hl0.
    unfold ExtractorSimple.extract_file.
    pose proof (simple_parse_NoDup ET_parse ET_fromstring decode f0) as Hp.
    destruct (ExtractorSimple.parse_strings_xml _ _ _ f0) as [strings warnings].
    cbn [fst snd] in *. rewrite store_file_text_same by exact Hp.
    rewrite Ht. now destruct (list_to_map strings !! key).
  - apply IH; [assumption | assumption|].
    assert (Hne : l0 <> lang).
    { intros ->. apply Hl0. apply (list_elem_of_fmap_2 snd) in Hin. exact Hin. }
    intros key'. unfold ExtractorSimple.extract_file.
    destruct (ExtractorSimple.parse_strings_xml _ _ _ f0) as [strings warnings].
    cbn [fst snd] in *. rewrite store_file_text_other by exact Hne. apply Ht.
Qed.

(** X15: when no two [values*] directories give the same locale code, the
    table that [extract_all_strings] of the simple extractor returns holds,
    for the locale of each file and every key, exactly the text that
    [parse_strings_xml] returned for that file and key, and no text where
    the file has none. *)
Theorem simple_table_holds_file_strings (ET_parse : list N -> xml_result)
    (ET_fromstring : str -> xml_result) (decode : list N -> str)
    (self self' : extractor) (extract_path : res_dir) (log : list message)
    (f : xml_file) (lang key : str) :
  ExtractorSimple.extract_all_strings ET_parse ET_fromstring decode self
    (Return extract_path) = (Return self', log) ->
  NoDup (map snd (find_string_files extract_path)) ->
  (f, lang) ∈ find_string_files extract_path ->
  table_text (strings_data self') key lang
  = (list_to_map (ExtractorSimple.parse_strings_xml ET_parse ET_fromstring decode f).1
       : gmap str str) !! key.
Proof.
  unfold ExtractorSimple.extract_all_strings. intros Hrun Hnd Hin.
  pose proof (simple_extract_files_text ET_parse ET_fromstring decode
                (find_string_files extract_path) (languages self, ∅, [])
                f key lang Hnd Hin) as H.
  destruct (find_string_files extract_path) as [|file files]; [discriminate|].
  destruct (foldl _ _ (file :: files)) as [[languages' t'] log'].
  injection Hrun as <- _. cbn [strings_data]. cbn [fst snd] in H. apply H.
  intros key'. unfold table_text. now rewrite lookup_empty.
Qed.

Lemma simple_table_holds_file_strings_witness :
  let self' := mkExtractor {[ lit "greet" := {[ lit "default" := lit "Hi %s" ]} ]}
                 {[ lit "default"; lit "de" ]} None in
  table_text (strings_data self') (lit "greet") (lit "default")
  = (list_to_map (ExtractorSimple.parse_strings_xml Example.ET_parse
                    Example.ET_fromstring Example.decode_utf8_ignore
                    Example.GREET_FILE).1 : gmap str str) !! lit "greet".
Proof.
  intros self'.
  apply (simple_table_holds_file_strings Example.ET_parse Example.ET_fromstring
           Example.decode_utf8_ignore (mkExtractor ∅ ∅ None) self'
           Example.RES (Example.extract None).2 Example.GREET_FILE
           (lit "default") (lit "greet")).
  - vm_compute. reflexivity.
  - assert (E : map snd (find_string_files Example.RES) = [lit "default"; lit "de"])
      by (vm_compute; reflexivity).
    rewrite E. apply NoDup_cons. split; [|apply NoDup_singleton].
    intros H. apply list_elem_of_singleton in H. vm_compute in H. discriminate.
  - assert (E : find_string_files Example.RES
                = [(Example.GREET_FILE, lit "default"); (Example.DE_FILE, lit "de")])
      by (vm_compute; reflexivity).
    rewrite E. left.
Defined.


(** ** The chain of the local extractor *)

(** X16: [extract_all_strings] of the local extractor returns the table of
    the aapt2 output whenever that table is not empty, whatever the
    unpacking and the XML files would give; it raises an error only when
    that table is empty and the unpacking fails, and then the error of the
    unpacking; it never raises [ValueError] of its own, not even when no
    string was found at all. *)
Theorem local_extraction_chain (parse : xml_file -> odict) (self : extractor)
    (stdout : option str) :
  let aapt2 := ExtractorLocal.extract_strings_with_aapt2 (languages self) stdout in
  (aapt2.1 <> ∅ ->
   forall extracted,
     ExtractorLocal.extract_all_strings parse self stdout extracted
     = Return (mkExtractor aapt2.1 aapt2.2 (supported_languages self)))
  /\ (forall extracted e,
        ExtractorLocal.extract_all_strings parse self stdout extracted = Raise e <->
        aapt2.1 = ∅ /\ extracted = Raise e)
  /\ (aapt2.1 = ∅ ->
      forall extract_path,
        find_string_files extract_path = [] ->
        ExtractorLocal.extract_all_strings parse self stdout (Return extract_path)
        = Return (mkExtractor ∅ aapt2.2 (supported_languages self))).
Proof.
  intros aapt2. subst aapt2. unfold ExtractorLocal.extract_all_strings.
  destruct (ExtractorLocal.extract_strings_with_aapt2 (languages self) stdout)
    as [all_strings langs]. cbn [fst snd].
  split; [|split].
  - intros Hne extracted. now rewrite bool_decide_eq_false_2.
  - intros extracted e. destruct (decide (all_strings = ∅)) as [-> | Hne].
    + rewrite bool_decide_eq_true_2 by reflexivity.
      unfold ExtractorLocal._extract_strings_from_xml.
      destruct extracted as [path | e'].
      * split; [|intros [_ H]; discriminate].
        destruct (find_string_files path) as [|file files]; [discriminate|].
        destruct (foldl _ _ (file :: files)); discriminate.
      * split; [intros [= ->]; now split | intros [_ [= ->]]; reflexivity].
    + rewrite bool_decide_eq_false_2 by assumption.
      split; [discriminate | intros [H _]; contradiction].
  - intros -> path Hfiles. rewrite bool_decide_eq_true_2 by reflexivity.
    unfold ExtractorLocal._extract_strings_from_xml. now rewrite Hfiles.
Qed.

(** ** The parser of the aapt2 output *)

Lemma parse_line_outside (st : ExtractorLocal.parser) (line : str) :
  ExtractorLocal.in_string_section st = false ->
  contains (lit "type string") (strip line) = false ->
  ExtractorLocal.parse_line st line = st.
Proof.
  intros Hs Hc. unfold ExtractorLocal.parse_line. now rewrite Hc, Hs.
Qed.

(** X17: an aapt2 output none of whose lines holds the text [type string]
    gives the empty table and leaves the languages as they were: resource
    and value lines outside a string section are not read. *)
Theorem aapt2_without_string_section (languages : gset str) (output : str) :
  (forall line, line ∈ ExtractorLocal.split NEWLINE output ->
     contains (lit "type string") (strip line) = false) ->
  ExtractorLocal._parse_aapt2_resources_output languages output = (∅, languages).
Proof.
  intros Hlines. unfold ExtractorLocal._parse_aapt2_resources_output.
  assert (Hfold : foldl ExtractorLocal.parse_line (ExtractorLocal.parser_init languages)
                    (ExtractorLocal.split NEWLINE output)
                  = ExtractorLocal.parser_init languages).
  { induction (ExtractorLocal.split NEWLINE output) as [|line lines IH]; [reflexivity|].
    cbn [foldl]. rewrite parse_line_outside.
    - apply IH. intros l Hl. apply Hlines. now right.
    - reflexivity.
    - apply Hlines. left. }
  rewrite Hfold. reflexivity.
Qed.

Lemma aapt2_without_string_section_witness :
  ExtractorLocal._parse_aapt2_resources_output ∅
    (lit "resource 0x7f010000 string/greet" ++ [NEWLINE] ++ lit "() " ++ [DQUOTE]
     ++ lit "Hi" ++ [DQUOTE])
  = (∅, ∅).
Proof.
  apply aapt2_without_string_section.
  assert (E : ExtractorLocal.split NEWLINE
                (lit "resource 0x7f010000 string/greet" ++ [NEWLINE] ++ lit "() "
                 ++ [DQUOTE] ++ lit "Hi" ++ [DQUOTE])
              = [lit "resource 0x7f010000 string/greet";
                 lit "() " ++ [DQUOTE] ++ lit "Hi" ++ [DQUOTE]])
    by (vm_compute; reflexivity).
  rewrite E. intros line Hl.
  apply elem_of_cons in Hl as [-> | Hl]; [reflexivity|].
  apply list_elem_of_singleton in Hl as ->. reflexivity.
Defined.


Lemma run_Lit {A : Type} (p : str) (r : Re.regex) (s : str) (gs : list str)
    (k : str -> list str -> option A) :
  Re.run (ExtractorLocal.Lit p r) s gs k
  = if startswith p s then Re.run r (drop (length p) s) gs k else None.
Proof.
  revert s. induction p as [|c p IH]; intros s; [reflexivity|].
  cbn [ExtractorLocal.Lit foldr Re.run].
  destruct s as [|x s]; [reflexivity|]. cbn [startswith length drop].
  rewrite (N.eqb_sym c x). destruct (x =? c); [apply IH | reflexivity].
Qed.

Lemma search_from_match (r : Re.regex) (pos : nat) (s : str) (m : Re.Match) :
  Re.search_from r pos s = Some m ->
  exists s', Re.match_here r s' = Some (Re.group0 m, Re.groups m).
Proof.
  revert pos. induction s as [|c s IH]; intros pos; cbn [Re.search_from].
  - destruct (Re.match_here r []) as [[g0 gs]|] eqn:Hm; [|discriminate].
    intros [= <-]. now exists [].
  - destruct (Re.match_here r (c :: s)) as [[g0 gs]|] eqn:Hm; [|apply IH].
    intros [= <-]. now exists (c :: s).
Qed.

Lemma consumed_prefix {A : Type} (xs r : list A) :
  take (length (xs ++ r) - length r) (xs ++ r) = xs.
Proof. apply take_consumed. Qed.

(** The name that the pattern [STRING_NAME] captures. *)
Lemma STRING_NAME_group (s g0 : str) (gs : list str) :
  Re.match_here ExtractorLocal.STRING_NAME s = Some (g0, gs) ->
  exists name, gs = [name] /\ name <> []
               /\ Forall (fun c => ExtractorLocal.not_space c = true) name.
Proof.
  unfold Re.match_here, ExtractorLocal.STRING_NAME. rewrite run_Lit.
  destruct (startswith (lit "string/") s); [|discriminate].
  generalize (drop (length (lit "string/")) s). intros t.
  cbn [Re.run]. intros H.
  apply rep_sound in H as (ds & s' & -> & Hds & Hlo & Hk).
  injection Hk as _ <-. rewrite consumed_prefix.
  exists ds. split; [reflexivity|]. split; [|assumption].
  intros ->. simpl in Hlo. lia.
Qed.

(** The locale tag and the value that the pattern [VALUE_LINE] captures. *)
Lemma VALUE_LINE_groups (s g0 : str) (gs : list str) :
  Re.match_here ExtractorLocal.VALUE_LINE s = Some (g0, gs) ->
  exists language value,
    gs = [language; value]
    /\ Forall (fun c => ExtractorLocal.not_rparen c = true) language
    /\ Forall (fun c => ExtractorLocal.not_dquote c = true) value.
Proof.
  unfold Re.match_here, ExtractorLocal.VALUE_LINE. cbn [Re.run]. intros H.
  apply rep_sound in H as (w1 & s1 & _ & _ & _ & H).
  destruct s1 as [|x s1]; [discriminate|].
  destruct (x =? 40); [|discriminate].
  apply rep_sound in H as (language & s2 & Hs2 & Hlang & _ & H).
  destruct s2 as [|y s2]; [discriminate|].
  destruct (y =? 41); [|discriminate].
  apply rep_sound in H as (w2 & s3 & _ & _ & _ & H).
  destruct s3 as [|z s3]; [discriminate|].
  destruct (z =? DQUOTE); [|discriminate].
  apply rep_sound in H as (value & s4 & Hs4 & Hval & _ & H).
  destruct s4 as [|q s4]; [discriminate|].
  destruct (q =? DQUOTE); [|discriminate].
  injection H as _ <-.
  exists language, value. split; [|split; assumption].
  subst s1 s3. f_equal; [|f_equal]; apply take_prefix;
    rewrite length_app; simpl length; lia.
Qed.


Lemma parser_shapes_save (st : ExtractorLocal.parser) :
  parser_shapes st -> parser_shapes (ExtractorLocal.save_current st).
Proof.
  intros Hst. unfold ExtractorLocal.save_current.
  destruct (ExtractorLocal.current_string_name st) as [name|] eqn:Hn; [|assumption].
  destruct (truthy name && ExtractorLocal.dict_truthy _ _); [|assumption].
  destruct Hst as (Hname & Hkeys & Hobjs).
  split; [|split]; cbn; [intros name' [= <-]; now apply Hname | | assumption].
  intros key r Hr. destruct (decide (name = key)) as [<- | Hne]; [now apply Hname|].
  rewrite lookup_insert_ne in Hr by assumption. eapply Hkeys; eauto.
Qed.

Lemma parser_shapes_parse_line (st : ExtractorLocal.parser) (line : str) :
  parser_shapes st -> parser_shapes (ExtractorLocal.parse_line st line).
Proof.
  assert (Hsection : forall b st, parser_shapes st ->
                       parser_shapes (ExtractorLocal.set_in_string_section b st)).
  { intros b st0 H0. exact H0. }
  intros Hst. unfold ExtractorLocal.parse_line.
  repeat match goal with
  | |- parser_shapes (if ?b then _ else _) => destruct b
  end; auto.
  - (* a resource line *)
    apply parser_shapes_save in Hst. revert Hst.
    generalize (ExtractorLocal.save_current st). intros st0 (Hname & Hkeys & Hobjs).
    unfold Re.search.
    destruct (Re.search_from ExtractorLocal.STRING_NAME 0 (strip line)) as [m|] eqn:Hm;
      [|now split].
    apply search_from_match in Hm as (s' & Hm).
    apply STRING_NAME_group in Hm as (name & Hgs & Hne & Hchars).
    rewrite Hgs. cbn [nth]. split; [|split]; cbn.
    + intros name' [= <-]. split; [assumption|].
      eapply Forall_impl; [exact Hchars|]. intros c Hc.
      unfold ExtractorLocal.not_space in Hc. now apply negb_true_iff in Hc.
    + assumption.
    + intros r d lang v Hr Hd.
      apply lookup_app_Some in Hr as [Hr | [_ Hr]]; [eapply Hobjs; eauto|].
      apply list_lookup_singleton_Some in Hr as [_ <-].
      rewrite lookup_empty in Hd. discriminate.
  - (* a value line *)
    unfold Re.rmatch.
    destruct (Re.match_here ExtractorLocal.VALUE_LINE (strip line)) as [[g0 gs]|] eqn:Hm;
      [|assumption].
    apply VALUE_LINE_groups in Hm as (language & value & -> & Hlang & Hval).
    cbn [Re.groups nth].
    destruct Hst as (Hname & Hkeys & Hobjs).
    split; [|split]; cbn; [assumption | assumption |].
    intros r d lang v Hr Hd.
    destruct (decide (ExtractorLocal.current_string_data st = r)) as [<- | Hne];
      [|rewrite list_lookup_alter_ne in Hr by assumption; eapply Hobjs; eauto].
    rewrite list_lookup_alter_eq in Hr.
    destruct (ExtractorLocal.objects st !! ExtractorLocal.current_string_data st)
      as [d0|] eqn:Hd0; [|discriminate].
    injection Hr as <-.
    match type of Hd with (<[?l := _]> _) !! _ = _ => set (l0 := l) in * end.
    destruct (decide (l0 = lang)) as [<- | Hl];
      [|rewrite lookup_insert_ne in Hd by assumption; eapply Hobjs; eauto].
    rewrite lookup_insert_eq in Hd. injection Hd as <-.
    assert (Hv : DQUOTE ∉ value).
    { intros Hin. rewrite Forall_forall in Hval. apply Hval in Hin.
      unfold ExtractorLocal.not_dquote in Hin. now rewrite N.eqb_refl in Hin. }
    assert (Hl : 41 ∉ language).
    { intros Hin. rewrite Forall_forall in Hlang. apply Hlang in Hin.
      unfold ExtractorLocal.not_rparen in Hin. now rewrite N.eqb_refl in Hin. }
    subst l0. destruct language as [|c language]; cbn.
    + split; [discriminate|]. split; [|assumption].
      intros Hin. apply list_elem_of_In in Hin. cbv in Hin.
      intuition discriminate.
    + split; [discriminate|]. split; assumption.
Qed.

(** X18: what [_parse_aapt2_resources_output] returns has the shape of
    the patterns that read it.  Every key of the table is a resource name,
    not empty and free of white space; every locale tag under a key is not
    empty (an empty tag is stored as default) and holds no closing
    parenthesis; and no text holds a double quote, since a value ends at
    the first double quote after its opening one. *)
Theorem aapt2_table_shapes (languages : gset str) (output key : str)
    (translations : gmap str str) :
  (ExtractorLocal._parse_aapt2_resources_output languages output).1 !! key
    = Some translations ->
  resource_name key
  /\ forall lang text, translations !! lang = Some text ->
       lang <> [] /\ (41 ∉ lang) /\ (DQUOTE ∉ text).
Proof.
  unfold ExtractorLocal._parse_aapt2_resources_output. cbn [fst].
  set (st := foldl ExtractorLocal.parse_line _ _).
  assert (Hst : parser_shapes st).
  { subst st. apply (foldl_invariant parser_shapes).
    - split; [|split]; cbn.
      + discriminate.
      + intros k r Hr. rewrite lookup_empty in Hr. discriminate.
      + intros r d lang v Hr Hd.
        apply list_lookup_singleton_Some in Hr as [_ <-].
        rewrite lookup_empty in Hd. discriminate.
    - intros s x. apply parser_shapes_parse_line. }
  apply parser_shapes_save in Hst. revert Hst.
  generalize (ExtractorLocal.save_current st). intros st0 (Hname & Hkeys & Hobjs).
  unfold ExtractorLocal.view. rewrite lookup_omap.
  destruct (ExtractorLocal.p_strings_data st0 !! key) as [r|] eqn:Hr; [|discriminate].
  cbn. intros Hd. split; [eapply Hkeys; eauto|].
  intros lang text Ht. eapply Hobjs; eauto.
Qed.


Lemma aapt2_table_shapes_witness :
  let output := lit "type string" ++ [NEWLINE]
                ++ lit "resource 0x7f010000 string/greet" ++ [NEWLINE]
                ++ lit "() " ++ [DQUOTE] ++ lit "Hi" ++ [DQUOTE] ++ [NEWLINE]
                ++ lit "(de) " ++ [DQUOTE] ++ lit "Hallo" ++ [DQUOTE] in
  let translations : gmap str str :=
    <[lit "de" := lit "Hallo"]> (<[lit "default" := lit "Hi"]> ∅) in
  (ExtractorLocal._parse_aapt2_resources_output ∅ output).1 !! lit "greet"
    = Some translations
  /\ resource_name (lit "greet")
  /\ forall lang text, translations !! lang = Some text ->
       lang <> [] /\ (41 ∉ lang) /\ (DQUOTE ∉ text).
Proof.
  intros output translations.
  assert (H : (ExtractorLocal._parse_aapt2_resources_output ∅ output).1 !! lit "greet"
              = Some translations) by (vm_compute; reflexivity).
  split; [exact H|].
  exact (aapt2_table_shapes ∅ output (lit "greet") translations H).
Defined.


(** ** The rows and columns of the report *)

(** Membership in a list of constants, decided by comparing the constants. *)
Local Ltac absent :=
  let Hin := fresh "Hin" in
  intros Hin; apply list_elem_of_In in Hin; cbv in Hin;
  repeat (destruct Hin as [Hin | Hin]; [discriminate|]); exact Hin.
Local Ltac present :=
  apply list_elem_of_In; cbv; repeat ((left; reflexivity) || right).

#[global] Instance row_le_total : Total row_le.
Proof. intros a b. unfold row_le. apply (total str_le). Qed.

Lemma fill_languages_dom (translations : gmap str str) (languages : list str)
    (row : gmap str cell) :
  dom (fill_languages translations languages row).1
  = dom row ∪ list_to_set languages.
Proof.
  induction languages as [|l languages IH] using rev_ind.
  - apply set_eq. intros x. unfold fill_languages. cbn [foldl fst list_to_set].
    rewrite elem_of_union, elem_of_empty. tauto.
  - rewrite fill_languages_snoc. cbn [fst].
    rewrite dom_insert_L, IH, list_to_set_app_L. cbn [list_to_set].
    apply set_eq. intros x.
    rewrite !elem_of_union, elem_of_singleton, elem_of_empty. tauto.
Qed.

(** Rows that carry their key, one for each entry of a table, come out of
    [sort_values] in the order of the sorted keys. *)
Lemma sorted_rows_keys (make : str -> gmap str str -> gmap str cell) (m : table) :
  (forall key t, row_key (make key t) = key) ->
  map row_key (sort_values (map (fun '(key, t) => make key t) (map_to_list m)))
  = sorted (dom m).
Proof.
  intros Hkey. apply (Sorted_unique str_le).
  - apply (Sorted_fmap row_key row_le str_le); [auto|].
    apply (Sorted_merge_sort row_le).
  - apply (Sorted_merge_sort str_le).
  - unfold sort_values, sorted.
    rewrite (merge_sort_Permutation row_le), (merge_sort_Permutation str_le).
    rewrite map_map.
    assert (E : map (fun x => row_key (let '(key, t) := x in make key t)) (map_to_list m)
                = (map_to_list m).*1).
    { apply map_ext. intros [k t]. apply Hkey. }
    rewrite E. apply NoDup_Permutation;
      [apply NoDup_fst_map_to_list | apply NoDup_elements |].
    intros k. rewrite elem_of_elements, elem_of_dom, list_elem_of_fmap. split.
    + intros ([k' t] & -> & Hin). apply elem_of_map_to_list in Hin. now exists t.
    + intros [t Ht]. exists (k, t). split; [reflexivity|]. now apply elem_of_map_to_list.
Qed.

Lemma sort_values_length (rows : list (gmap str cell)) :
  length (sort_values rows) = length rows.
Proof. unfold sort_values. now rewrite (merge_sort_Permutation row_le rows). Qed.

(** X19: a report has one row for each key of the table; and unless one of
    the exported languages is itself called [Key], the key column of the
    report, read from top to bottom, is the sorted list of the keys of the
    table, every key once.  This holds for the reports of both files. *)
Theorem report_key_column (self : extractor) (df : DataFrame) (log : list message) :
  ExtractorLocal.create_dataframe self = (Return df, log)
  \/ ExtractorSimple.create_dataframe self = (Return df, log) ->
  length (data df) = size (strings_data self)
  /\ (KEY ∉ (export_languages self).1 ->
      map row_key (data df) = sorted (dom (strings_data self))).
Proof.
  unfold ExtractorLocal.create_dataframe, ExtractorSimple.create_dataframe.
  destruct (bool_decide (strings_data self = ∅)); [intros [H | H]; discriminate|].
  destruct (export_languages self) as [langs log']. cbn [fst].
  intros [[= <- <-] | [= <- <-]]; cbn [data]; (split;
    [now rewrite sort_values_length, length_map, length_map_to_list|]); intros Hk.
  - apply (sorted_rows_keys (ExtractorLocal.make_row langs)).
    intros key t. now apply local_row_key.
  - apply (sorted_rows_keys (ExtractorSimple.make_row langs)).
    intros key t. now apply simple_row_key.
Qed.

Lemma report_key_column_witness :
  let self := mkExtractor
    (<[lit "b" := {[ lit "default" := lit "B" ]}]> {[ lit "a" := {[ lit "de" := lit "A" ]} ]})
    {[ lit "default"; lit "de" ]} None in
  let df := match (ExtractorLocal.create_dataframe self).1 with
            | Return df => df
            | Raise _ => mkDataFrame [] []
            end in
  ExtractorLocal.create_dataframe self = (Return df, [])
  /\ length (data df) = 2%nat
  /\ map row_key (data df) = [lit "a"; lit "b"].
Proof.
  intros self df.
  assert (H : ExtractorLocal.create_dataframe self = (Return df, []))
    by (vm_compute; reflexivity).
  split; [exact H|].
  destruct (report_key_column self df [] (or_introl H)) as [Hlen Hkeys].
  split.
  - rewrite Hlen. vm_compute. reflexivity.
  - rewrite Hkeys.
    + vm_compute. reflexivity.
    + vm_compute. absent.
Defined.

Lemma local_row_dom (languages : list str) (key : str) (translations : gmap str str) :
  dom (ExtractorLocal.make_row languages key translations)
  = list_to_set ([KEY; MISSING_COUNT; PLACEHOLDER_ANOMALY] ++ languages).
Proof.
  unfold ExtractorLocal.make_row.
  pose proof (fill_languages_dom translations languages {[ KEY := CStr key ]}) as H.
  destruct (fill_languages translations languages _) as [row n]. cbn [fst] in H.
  rewrite !dom_insert_L, H, dom_singleton_L. cbn [app list_to_set].
  apply set_eq. intros x. rewrite !elem_of_union, !elem_of_singleton. tauto.
Qed.

Lemma simple_row_dom (languages : list str) (key : str) (translations : gmap str str) :
  dom (ExtractorSimple.make_row languages key translations)
  = list_to_set ([KEY; MISSING_COUNT] ++ languages).
Proof.
  unfold ExtractorSimple.make_row.
  pose proof (fill_languages_dom translations languages {[ KEY := CStr key ]}) as H.
  destruct (fill_languages translations languages _) as [row n]. cbn [fst] in H.
  rewrite !dom_insert_L, H, dom_singleton_L. cbn [app list_to_set].
  apply set_eq. intros x. rewrite !elem_of_union, !elem_of_singleton. tauto.
Qed.

(** X20: every row of a report has a cell under each column of the report
    and under nothing else, so that the selection [df[columns]] at the end
    of [create_dataframe] finds every column it asks for and drops none.
    This holds for the reports of both files. *)
Theorem report_rows_have_the_columns (self : extractor) (df : DataFrame)
    (log : list message) :
  ExtractorLocal.create_dataframe self = (Return df, log)
  \/ ExtractorSimple.create_dataframe self = (Return df, log) ->
  forall row, row ∈ data df -> dom row = list_to_set (columns df).
Proof.
  intros [H | H] row Hrow.
  - apply local_rows in H as [-> Hrows].
    apply Hrows in Hrow as (key & t & _ & ->). apply local_row_dom.
  - apply simple_rows in H as [-> Hrows].
    apply Hrows in Hrow as (key & t & _ & ->). apply simple_row_dom.
Qed.

Lemma report_rows_have_the_columns_witness :
  let self := mkExtractor {[ lit "a" := {[ lit "de" := lit "A" ]} ]}
                          {[ lit "default"; lit "de" ]} None in
  let df := match (ExtractorSimple.create_dataframe self).1 with
            | Return df => df
            | Raise _ => mkDataFrame [] []
            end in
  ExtractorSimple.create_dataframe self = (Return df, [])
  /\ forall row, row ∈ data df ->
       dom row = list_to_set [KEY; MISSING_COUNT; lit "default"; lit "de"].
Proof.
  intros self df.
  assert (H : ExtractorSimple.create_dataframe self = (Return df, []))
    by (vm_compute; reflexivity).
  split; [exact H|].
  exact (report_rows_have_the_columns self df [] (or_intror H)).
Defined.


(** ** The summary printed after the export *)

Lemma length_filter_fmap {A B : Type} (f : A -> B) (P : B -> Prop) (Q : A -> Prop)
    `{!forall x, Decision (P x)} `{!forall x, Decision (Q x)} (l : list A) :
  (forall x, P (f x) <-> Q x) ->
  length (filter P (map f l)) = length (filter Q l).
Proof.
  intros HPQ. induction l as [|x l IH]; [reflexivity|].
  cbn [map]. rewrite !filter_cons.
  destruct (decide (P (f x))) as [HP | HP], (decide (Q x)) as [HQ | HQ];
    cbn [length]; try (now rewrite IH).
  - exfalso. apply HQ, HPQ, HP.
  - exfalso. apply HP, HPQ, HQ.
Qed.

Lemma count_missing_zero (translations : gmap str str) (languages : list str) :
  count_missing translations languages = 0%nat
  <-> Forall (fun lang => get_text translations lang <> []) languages.
Proof.
  unfold count_missing. induction languages as [|lang languages IH].
  - split; [constructor | reflexivity].
  - rewrite filter_cons, Forall_cons, <- IH.
    pose proof (is_missing_truthy translations lang) as Ht.
    destruct (decide (is_missing translations lang = true)) as [Hm | Hm].
    + cbn [length]. rewrite Hm in Ht.
      destruct (get_text translations lang); [|discriminate].
      split; [discriminate | intros [H _]; now contradiction H].
    + apply not_true_is_false in Hm. rewrite Hm in Ht.
      destruct (get_text translations lang); [discriminate|].
      split; [intros H; split; [discriminate | exact H] | intros [_ H]; exact H].
Qed.

(** The two counts of the summary, for rows that show the count of
    missing languages and the text of a language as [create_dataframe]
    stores them. *)
Lemma summary_counts_of_rows (make : str -> gmap str str -> gmap str cell)
    (langs : list str) (m : table) (df : DataFrame) :
  data df = sort_values (map (fun '(key, t) => make key t) (map_to_list m)) ->
  (forall key t, make key t !! MISSING_COUNT = Some (CInt (count_missing t langs))) ->
  fully_translated df
  = length (filter (fun kt : str * gmap str str =>
                      Forall (fun lang => get_text kt.2 lang <> []) langs)
                   (map_to_list m))
  /\ forall lang,
       (forall key t, make key t !! lang = Some (CStr (get_text t lang))) ->
       non_empty df lang
       = length (filter (fun kt : str * gmap str str => get_text kt.2 lang <> [])
                        (map_to_list m)).
Proof.
  intros Hdata Hmissing. unfold fully_translated, non_empty. rewrite Hdata.
  unfold sort_values. split; [|intros lang Hcell];
    rewrite (merge_sort_Permutation row_le); apply length_filter_fmap; intros [key t];
    cbn [snd].
  - rewrite Hmissing, <- count_missing_zero. split; [now intros [= ->] | now intros ->].
  - rewrite Hcell. split; intros H1 H2; apply H1; [now rewrite H2 | now injection H2].
Qed.

(** X21: the counts that [_print_summary] prints are counts over the table.
    The number of fully translated strings is the number of keys that have
    a non-empty text in every exported language; and for an exported
    language whose name is not that of the missing-count or anomaly column,
    the number of non-empty cells of its column is the number of keys with
    a non-empty text in that language.  This holds for both files. *)
Theorem summary_counts (self : extractor) (df : DataFrame) (log : list message) :
  ExtractorLocal.create_dataframe self = (Return df, log)
  \/ ExtractorSimple.create_dataframe self = (Return df, log) ->
  let langs := (export_languages self).1 in
  let entries := map_to_list (strings_data self) in
  fully_translated df
  = length (filter (fun kt : str * gmap str str =>
                      Forall (fun lang => get_text kt.2 lang <> []) langs) entries)
  /\ forall lang,
       lang ∈ langs -> lang <> MISSING_COUNT -> lang <> PLACEHOLDER_ANOMALY ->
       non_empty df lang
       = length (filter (fun kt : str * gmap str str => get_text kt.2 lang <> [])
                        entries).
Proof.
  unfold ExtractorLocal.create_dataframe, ExtractorSimple.create_dataframe.
  destruct (bool_decide (strings_data self = ∅)); [intros [H | H]; discriminate|].
  destruct (export_languages self) as [langs log']. cbn [fst].
  intros [[= <- <-] | [= <- <-]]; cbn zeta.
  - match goal with |- fully_translated ?d = _ /\ _ =>
      destruct (summary_counts_of_rows (ExtractorLocal.make_row langs) langs
                  (strings_data self) d eq_refl) as [Hfull Hlang]
    end.
    { intros key t. apply local_row_missing. }
    split; [exact Hfull|]. intros lang Hin Hm Ha. apply Hlang.
    intros key t. now apply local_row_cell.
  - match goal with |- fully_translated ?d = _ /\ _ =>
      destruct (summary_counts_of_rows (ExtractorSimple.make_row langs) langs
                  (strings_data self) d eq_refl) as [Hfull Hlang]
    end.
    { intros key t. apply simple_row_missing. }
    split; [exact Hfull|]. intros lang Hin Hm Ha. apply Hlang.
    intros key t. now apply simple_row_cell.
Qed.

Lemma summary_counts_witness :
  let self := mkExtractor
    (<[lit "b" := {[ lit "default" := lit "B" ]}]>
       {[ lit "a" := <[lit "default" := lit "A"]> {[ lit "de" := lit "A" ]} ]})
    {[ lit "default"; lit "de" ]} None in
  let df := match (ExtractorLocal.create_dataframe self).1 with
            | Return df => df
            | Raise _ => mkDataFrame [] []
            end in
  ExtractorLocal.create_dataframe self = (Return df, [])
  /\ fully_translated df = 1%nat
  /\ non_empty df (lit "default") = 2%nat
  /\ non_empty df (lit "de") = 1%nat.
Proof.
  intros self df.
  assert (H : ExtractorLocal.create_dataframe self = (Return df, []))
    by (vm_compute; reflexivity).
  split; [exact H|].
  destruct (summary_counts self df [] (or_introl H)) as [Hfull Hlang].
  split; [rewrite Hfull; vm_compute; reflexivity|].
  split.
  - rewrite (Hlang (lit "default")); [vm_compute; reflexivity | | |].
    + vm_compute. present.
    + vm_compute. discriminate.
    + vm_compute. discriminate.
  - rewrite (Hlang (lit "de")); [vm_compute; reflexivity | | |].
    + vm_compute. present.
    + vm_compute. discriminate.
    + vm_compute. discriminate.
Defined.

Lemma split_no_sep (sep : char) (x : str) :
  sep ∉ x -> ExtractorLocal.split sep x = [x].
Proof.
  induction x as [|c x IH]; [reflexivity|]. intros Hn.
  rewrite not_elem_of_cons in Hn. destruct Hn as [Hc Hx].
  cbn [ExtractorLocal.split]. rewrite IH by assumption.
  destruct (N.eqb_spec c sep) as [-> | _]; [now contradiction Hc | reflexivity].
Qed.

Lemma split_app_sep (sep : char) (x rest : str) :
  sep ∉ x ->
  ExtractorLocal.split sep (x ++ sep :: rest) = x :: ExtractorLocal.split sep rest.
Proof.
  induction x as [|c x IH]; intros Hn.
  - cbn [app ExtractorLocal.split]. now rewrite N.eqb_refl.
  - rewrite not_elem_of_cons in Hn. destruct Hn as [Hc Hx].
    cbn [app ExtractorLocal.split]. rewrite IH by assumption.
    destruct (N.eqb_spec c sep) as [-> | _]; [now contradiction Hc | reflexivity].
Qed.

(** Splitting at the separator undoes joining with it, for parts that do
    not hold the separator. *)
Lemma split_join (sep : char) (parts : list str) :
  parts <> [] -> Forall (fun part => sep ∉ part) parts ->
  ExtractorLocal.split sep (join [sep] parts) = parts.
Proof.
  induction parts as [|x parts IH]; [congruence|]. intros _ Hparts.
  apply Forall_cons in Hparts as [Hx Hparts].
  destruct parts as [|y parts]; [now apply split_no_sep|].
  change (join [sep] (x :: y :: parts)) with (x ++ sep :: join [sep] (y :: parts)).
  rewrite split_app_sep by assumption. f_equal. now apply IH.
Qed.

Lemma anomaly_languages_elem (translations : gmap str str) (languages : list str)
    (lang : str) :
  lang ∈ _get_placeholder_anomaly_languages translations languages ->
  lang ∈ languages.
Proof.
  destruct languages as [|a [|b rest]].
  - rewrite anomaly_languages_short by (cbn; lia). intros H. inversion H.
  - rewrite anomaly_languages_short by (cbn; lia). intros H. inversion H.
  - rewrite anomaly_languages_eq.
    destruct (truthy (get_text translations a)); [|intros H; inversion H].
    intros H. apply list_elem_of_filter in H as [_ H]. now right.
Qed.

(** X22: the anomaly cell of a row can be read back.  When no exported
    language is the empty string or holds an ideographic comma, the cell
    is the empty text exactly when no language is flagged, and the number
    [_print_summary] computes from the cell is the number of flagged
    languages, the value of [_count_placeholder_anomalies]. *)
Theorem anomaly_cell_round_trip (languages : list str) (key : str)
    (translations : gmap str str) :
  Forall (fun lang => lang <> [] /\ 12289 ∉ lang) languages ->
  exists x,
    ExtractorLocal.make_row languages key translations !! PLACEHOLDER_ANOMALY
      = Some (CStr x)
    /\ (x = [] <-> _get_placeholder_anomaly_languages translations languages = [])
    /\ anomaly_cell_count x = _count_placeholder_anomalies translations languages
    /\ (x <> [] ->
        ExtractorLocal.split 12289 x
        = _get_placeholder_anomaly_languages translations languages).
Proof.
  intros Hlangs. eexists. split; [apply local_row_anomaly|].
  unfold _count_placeholder_anomalies, anomaly_cell_count.
  assert (Hsub : Forall (fun lang => lang <> [] /\ 12289 ∉ lang)
                   (_get_placeholder_anomaly_languages translations languages)).
  { apply Forall_forall. intros lang Hin. rewrite Forall_forall in Hlangs.
    now apply Hlangs, anomaly_languages_elem with translations. }
  destruct (_get_placeholder_anomaly_languages translations languages)
    as [|a flagged] eqn:E.
  - cbn. repeat split; congruence.
  - assert (Hne : join IDEOGRAPHIC_COMMA (a :: flagged) <> []).
    { apply Forall_cons in Hsub as [[Ha _] _].
      destruct a as [|c a]; [congruence|]. destruct flagged; discriminate. }
    assert (Hsplit : ExtractorLocal.split 12289 (join IDEOGRAPHIC_COMMA (a :: flagged))
                     = a :: flagged).
    { apply (split_join 12289); [discriminate|].
      eapply Forall_impl; [exact Hsub|]. now intros lang [_ H]. }
    split; [split; [intros H; now contradiction Hne | discriminate]|].
    split; [|intros _; exact Hsplit].
    rewrite bool_decide_eq_false_2 by assumption. now rewrite Hsplit.
Qed.

Lemma anomaly_cell_round_trip_witness :
  let languages := [lit "default"; lit "de"; lit "fr"] in
  let translations : gmap str str :=
    <[lit "fr" := lit "Salut"]>
      (<[lit "de" := lit "Hallo"]> {[ lit "default" := lit "Hi %s" ]}) in
  exists x,
    ExtractorLocal.make_row languages (lit "greet") translations !! PLACEHOLDER_ANOMALY
      = Some (CStr x)
    /\ (x = [] <-> _get_placeholder_anomaly_languages translations languages = [])
    /\ anomaly_cell_count x = _count_placeholder_anomalies translations languages
    /\ (x <> [] ->
        ExtractorLocal.split 12289 x
        = _get_placeholder_anomaly_languages translations languages).
Proof.
  intros languages translations.
  apply (anomaly_cell_round_trip languages (lit "greet") translations).
  repeat constructor; try discriminate; absent.
Defined.


(** ** The language list of a run *)

Lemma strip_idem (s : str) : strip (strip s) = strip s.
Proof.
  apply strip_id; intros c Hc; destruct (strip_trimmed s c) as [Hh Hl]; auto.
Qed.

Lemma strip_elem (s : str) (c : char) : c ∈ strip s -> c ∈ s.
Proof.
  unfold strip. intros Hc.
  destruct (rstrip_prefix (lstrip s)) as (w & Hs & _).
  destruct (lstrip_suffix s) as (w' & Hs' & _).
  rewrite Hs', Hs, !elem_of_app. tauto.
Qed.

Lemma split_parts (sep : char) (s part : str) :
  part ∈ ExtractorLocal.split sep s -> sep ∉ part.
Proof.
  revert part. induction s as [|c s IH]; intros part; cbn [ExtractorLocal.split].
  - rewrite list_elem_of_singleton. intros -> H. inversion H.
  - destruct (N.eqb_spec c sep) as [-> | Hne].
    + rewrite elem_of_cons. intros [-> | H]; [intros H; inversion H | now apply IH].
    + destruct (ExtractorLocal.split sep s) as [|l ls].
      * rewrite list_elem_of_singleton. intros ->. rewrite list_elem_of_singleton. congruence.
      * rewrite elem_of_cons. intros [-> | H].
        -- rewrite not_elem_of_cons. split; [congruence|]. apply IH. now left.
        -- apply IH. now right.
Qed.

Lemma load_language_config_fold (lines : list str) (acc : list str) :
  Forall config_entry acc ->
  Forall config_entry
    (foldl (fun languages line =>
              let line := strip line in
              if truthy line && negb (startswith (lit "#") line)
              then languages ++ [line] else languages) acc lines).
Proof.
  revert acc. induction lines as [|line lines IH]; intros acc Hacc; [exact Hacc|].
  cbn [foldl]. apply IH. cbn zeta.
  destruct (truthy (strip line)) eqn:Ht; [|exact Hacc].
  destruct (startswith (lit "#") (strip line)) eqn:Hs; [exact Hacc|]. cbn [negb andb].
  apply Forall_app. split; [exact Hacc|]. constructor; [|constructor].
  split; [intros E; now rewrite E in Ht|]. split; [apply strip_idem | exact Hs].
Qed.

(** X23: [load_language_config] never returns an empty list: a file that
    is missing, unreadable or without entries gives [None].  The entries
    of the list it returns are not empty, are stripped of surrounding white
    space, and do not begin with the comment sign. *)
Theorem load_language_config_entries (content : option str) (languages : list str) :
  load_language_config content = Some languages ->
  languages <> []
  /\ Forall (fun lang => lang <> [] /\ strip lang = lang
                         /\ startswith (lit "#") lang = false) languages.
Proof.
  unfold load_language_config. destruct content as [text|]; [|discriminate].
  pose proof (load_language_config_fold (file_lines (universal_newlines text)) []
                (Forall_nil_2 _)) as H.
  cbn zeta in H |- *. revert H.
  generalize (foldl (fun languages line =>
              if truthy (strip line) && negb (startswith (lit "#") (strip line))
              then languages ++ [strip line] else languages) []
              (file_lines (universal_newlines text))).
  intros langs H. destruct (bool_decide_reflect (langs = [])) as [_ | Hne]; [discriminate|].
  intros [= <-]. split; [exact Hne | exact H].
Qed.

Lemma load_language_config_entries_witness :
  let text := lit "# business languages" ++ [NEWLINE] ++ lit "default" ++ [13; NEWLINE]
              ++ [NEWLINE] ++ lit "  zh-rCN " ++ [13] ++ lit "ja" in
  let languages := [lit "default"; lit "zh-rCN"; lit "ja"] in
  load_language_config (Some text) = Some languages
  /\ languages <> []
  /\ Forall (fun lang => lang <> [] /\ strip lang = lang
                         /\ startswith (lit "#") lang = false) languages.
Proof.
  intros text languages.
  assert (H : load_language_config (Some text) = Some languages)
    by (vm_compute; reflexivity).
  split; [exact H|].
  exact (load_language_config_entries (Some text) languages H).
Defined.

(** X24: the constructor of the local extractor.  Without the package file
    it raises [FileNotFoundError].  A non-empty list given on the command
    line is taken as it is and the configuration file is not read.
    Otherwise, when a configuration file is named and
    [load_language_config] returns [None] for it (the file is missing,
    unreadable or without entries), the constructor raises [TypeError]
    instead of going on without a language list.  An object that is
    constructed has an empty table, no languages, and an allow-list that is
    either absent or not empty. *)
Theorem local_init_outcomes (lang_config : option str)
    (supported_langs : option (list str)) (read_config : str -> option str) :
  local_init false lang_config supported_langs read_config = inl FileNotFoundError
  /\ (forall lang langs,
        supported_langs = Some (lang :: langs) ->
        local_init true lang_config supported_langs read_config
        = inr (mkExtractor ∅ ∅ supported_langs))
  /\ (forall c path,
        supported_langs = None \/ supported_langs = Some [] ->
        lang_config = Some (c :: path) ->
        load_language_config (read_config (c :: path)) = None ->
        local_init true lang_config supported_langs read_config = inl TypeError)
  /\ (forall apk_exists self,
        local_init apk_exists lang_config supported_langs read_config = inr self ->
        strings_data self = ∅ /\ languages self = ∅
        /\ supported_languages self <> Some []).
Proof.
  split; [reflexivity|]. split; [|split].
  - intros lang langs ->. reflexivity.
  - intros c path Hs -> Hload. unfold local_init. cbn [negb].
    rewrite Hload. destruct Hs as [-> | ->]; reflexivity.
  - intros apk_exists self. unfold local_init.
    destruct (negb apk_exists); [discriminate|].
    assert (Hconfig :
      match lang_config with
      | Some ((_ :: _) as path) =>
          match load_language_config (read_config path) with
          | Some langs => inr (mkExtractor ∅ ∅ (Some langs))
          | None => inl TypeError
          end
      | _ => inr (mkExtractor ∅ ∅ None)
      end = inr self ->
      strings_data self = ∅ /\ languages self = ∅ /\ supported_languages self <> Some []).
    { destruct lang_config as [[|c path]|]; try (intros [= <-]; now repeat split).
      destruct (load_language_config (read_config (c :: path))) as [langs|] eqn:Hload;
        [|discriminate].
      intros [= <-]. cbn. repeat split. intros [= ->].
      now apply load_language_config_entries in Hload as [Hne _]. }
    destruct supported_langs as [[|lang langs]|]; try exact Hconfig.
    intros [= <-]. now repeat split.
Qed.

(** X25: the list that [main] makes of the option [--languages].  Without
    the option, or with an empty one, there is no list.  Otherwise every
    item of the list is not empty, is stripped of surrounding white space
    and holds no comma; the list itself can be empty, and the constructor
    of the simple extractor stores it as it is. *)
Theorem supported_langs_of_arg_items (arg : option str) :
  (supported_langs_of_arg arg = None <-> arg = None \/ arg = Some [])
  /\ (forall langs,
        supported_langs_of_arg arg = Some langs ->
        Forall (fun lang => lang <> [] /\ strip lang = lang /\ (44 ∉ lang)) langs
        /\ simple_init true (Some langs) = inr (mkExtractor ∅ ∅ (Some langs)))
  /\ supported_langs_of_arg (Some (lit " , ,")) = Some [].
Proof.
  split; [|split].
  - destruct arg as [[|c arg]|]; cbn; split; auto; try discriminate.
    intros [H | H]; discriminate.
  - intros langs. destruct arg as [[|c arg]|]; cbn [supported_langs_of_arg];
      try discriminate.
    intros [= <-]. split; [|reflexivity].
    apply Forall_forall. intros lang Hin.
    apply list_elem_of_omap in Hin as (part & Hpart & Hlang).
    destruct (truthy (strip part)) eqn:Ht; [|discriminate].
    injection Hlang as <-. split; [intros E; now rewrite E in Ht|].
    split; [apply strip_idem|].
    intros H44. apply strip_elem in H44. revert H44. now apply split_parts with (c :: arg).
  - vm_compute. reflexivity.
Qed.


(** ** The dictionary of one file in the local extractor *)

Lemma unescape_trimmed (text : str) : trimmed (_unescape_xml text).
Proof.
  intros c. unfold _unescape_xml. destruct (negb (truthy text)).
  - split; discriminate.
  - apply strip_trimmed.
Qed.

Lemma oset_elem (k v : str) (d : odict) (k' v' : str) :
  (k', v') ∈ oset k v d -> (k', v') = (k, v) \/ (k', v') ∈ d.
Proof.
  induction d as [|[a b] d IH]; cbn [oset].
  - rewrite list_elem_of_singleton. now left.
  - destruct (bool_decide (a = k)).
    + rewrite !elem_of_cons. tauto.
    + rewrite !elem_of_cons. intros [H | H]; [tauto|]. apply IH in H. tauto.
Qed.

Lemma oset_entries_ok (k v : str) (d : odict) :
  k <> [] -> trimmed v -> file_entries_ok d -> file_entries_ok (oset k v d).
Proof.
  intros Hk Hv [Hnodup Hd]. split; [now apply oset_NoDup|].
  intros k' v' Hin. apply oset_elem in Hin as [[= -> ->] | Hin]; [now split|].
  now apply Hd.
Qed.

Lemma nil_entries_ok : file_entries_ok [].
Proof. split; [constructor|]. intros key value H. inversion H. Qed.

Lemma strings_of_root_entries_ok (root : element) :
  file_entries_ok (strings_of_root root).
Proof.
  rewrite strings_of_root_fold.
  apply (foldl_invariant file_entries_ok); [apply nil_entries_ok|].
  intros d e Hd. unfold add_entry.
  destruct (named_entry e) as [[name text]|] eqn:He; [|exact Hd].
  apply named_entry_name in He as (Hname & _ & ->).
  apply oset_entries_ok; [exact Hname | apply unescape_trimmed | exact Hd].
Qed.

Lemma xmltree_line_entries_ok (st : odict * option str) (line : str) :
  file_entries_ok st.1 -> file_entries_ok (LocalXml.xmltree_line st line).1.
Proof.
  destruct st as [strings current]. cbn [fst]. intros Hst. unfold LocalXml.xmltree_line.
  destruct (contains (lit "E: string") line && contains (lit "name=") line).
  - destruct (Re.search LocalXml.NAME_ATTRIBUTE line); exact Hst.
  - destruct current as [name|]; [|exact Hst].
    destruct (truthy name) eqn:Ht; [|exact Hst]. cbn [andb].
    destruct (contains (lit "T:") line); [|exact Hst].
    destruct (Re.search LocalXml.TEXT_NODE line); [|exact Hst]. cbn [fst].
    apply oset_entries_ok; [now apply truthy_true | apply unescape_trimmed | exact Hst].
Qed.

Lemma xmltree_entries_ok (output : str) :
  file_entries_ok (LocalXml._parse_aapt_xmltree_output output).
Proof.
  unfold LocalXml._parse_aapt_xmltree_output.
  apply (foldl_invariant (fun st : odict * option str => file_entries_ok st.1));
    [apply nil_entries_ok|].
  intros st line. apply xmltree_line_entries_ok.
Qed.

Lemma local_parse_entries_ok (aapt : LocalXml.tool_result) (parsed : option element) :
  file_entries_ok (LocalXml.parse_strings_xml aapt parsed).
Proof.
  assert (Hfile : file_entries_ok match parsed with
                                  | Some root => strings_of_root root
                                  | None => []
                                  end).
  { destruct parsed; [apply strings_of_root_entries_ok | apply nil_entries_ok]. }
  unfold LocalXml.parse_strings_xml. destruct aapt as [stdout| |].
  - pose proof (xmltree_entries_ok stdout) as H.
    destruct (LocalXml._parse_aapt_xmltree_output stdout); [exact Hfile | exact H].
  - exact Hfile.
  - apply nil_entries_ok.
Qed.

(** X26: whichever way [parse_strings_xml] of the local extractor obtains
    the dictionary of a file, from the output of [aapt dump xmltree] or
    from the XML library, the dictionary has every key once, no key is the
    empty string, and no text begins or ends with white space. *)
Theorem local_parse_strings_xml_entries (aapt : LocalXml.tool_result)
    (parsed : option element) :
  let strings := LocalXml.parse_strings_xml aapt parsed in
  NoDup (map fst strings)
  /\ forall key value,
       (key, value) ∈ strings ->
       key <> []
       /\ forall c, (head value = Some c -> isspace c = false)
                    /\ (last value = Some c -> isspace c = false).
Proof.
  intros strings. subst strings.
  destruct (local_parse_entries_ok aapt parsed) as [Hnodup Hentries].
  split; [exact Hnodup|]. intros key value Hin.
  destruct (Hentries key value Hin) as [Hkey Hvalue]. split; [exact Hkey | exact Hvalue].
Qed.

Lemma xmltree_line_no_text (st : odict * option str) (line : str) :
  contains (lit "T:") line = false ->
  (LocalXml.xmltree_line st line).1 = st.1.
Proof.
  intros HT. destruct st as [strings current]. unfold LocalXml.xmltree_line.
  destruct (contains (lit "E: string") line && contains (lit "name=") line).
  - destruct (Re.search LocalXml.NAME_ATTRIBUTE line); reflexivity.
  - destruct current as [name|]; [|reflexivity].
    rewrite HT, andb_false_r. reflexivity.
Qed.

Lemma xmltree_line_no_element (strings : odict) (line : str) :
  contains (lit "E: string") line = false ->
  LocalXml.xmltree_line (strings, None) line = (strings, None).
Proof. intros HE. unfold LocalXml.xmltree_line. now rewrite HE. Qed.

Lemma xmltree_fold_no_text (lines : list str) (st : odict * option str) :
  Forall (fun line => contains (lit "T:") line = false) lines ->
  (foldl LocalXml.xmltree_line st lines).1 = st.1.
Proof.
  revert st. induction lines as [|line lines IH]; intros st Hl; [reflexivity|].
  apply Forall_cons in Hl as [Hline Hl]. cbn [foldl].
  rewrite IH by assumption. now apply xmltree_line_no_text.
Qed.

Lemma xmltree_fold_no_element (lines : list str) (strings : odict) :
  Forall (fun line => contains (lit "E: string") line = false) lines ->
  foldl LocalXml.xmltree_line (strings, None) lines = (strings, None).
Proof.
  induction lines as [|line lines IH]; intros Hl; [reflexivity|].
  apply Forall_cons in Hl as [Hline Hl]. cbn [foldl].
  rewrite xmltree_line_no_element by assumption. now apply IH.
Qed.

(** X27: when the output of [aapt dump xmltree] has no line with the text
    [E: string], or no line with the text [T:], it gives no entry, and
    [parse_strings_xml] returns what the XML library reads from the file,
    as it does when the tool returns an error code.  When running the tool
    raises, the file is not read at all and the dictionary is empty. *)
Theorem xmltree_without_entries (output : str) (parsed : option element) :
  Forall (fun line => contains (lit "E: string") line = false)
         (ExtractorLocal.split NEWLINE output)
  \/ Forall (fun line => contains (lit "T:") line = false)
            (ExtractorLocal.split NEWLINE output) ->
  LocalXml._parse_aapt_xmltree_output output = []
  /\ LocalXml.parse_strings_xml (LocalXml.ToolOutput output) parsed
     = LocalXml.parse_strings_xml LocalXml.ToolFailed parsed
  /\ LocalXml.parse_strings_xml LocalXml.ToolRaised parsed = [].
Proof.
  intros H.
  assert (E : LocalXml._parse_aapt_xmltree_output output = []).
  { unfold LocalXml._parse_aapt_xmltree_output. destruct H as [H | H].
    - now rewrite xmltree_fold_no_element.
    - now rewrite xmltree_fold_no_text. }
  split; [exact E|]. split; [|reflexivity].
  unfold LocalXml.parse_strings_xml. now rewrite E.
Qed.

Lemma xmltree_without_entries_witness :
  let output := lit "N: android=http://schemas.android.com/apk/res/android"
                ++ [NEWLINE] ++ lit "  E: resources (line=2)"
                ++ [NEWLINE] ++ lit "    E: string (line=3)" in
  LocalXml._parse_aapt_xmltree_output output = []
  /\ LocalXml.parse_strings_xml (LocalXml.ToolOutput output) (Some Example.GREET_TREE)
     = LocalXml.parse_strings_xml LocalXml.ToolFailed (Some Example.GREET_TREE)
  /\ LocalXml.parse_strings_xml LocalXml.ToolRaised (Some Example.GREET_TREE) = [].
Proof.
  intros output.
  apply (xmltree_without_entries output (Some Example.GREET_TREE)).
  right. vm_compute. repeat constructor.
Defined.

(** ** The keys of the table of the local extractor *)

Lemma store_keys_not_empty (lang_code : str) (t : table) (item : str * str) :
  item.1 <> [] -> keys_not_empty t -> keys_not_empty (store lang_code t item).
Proof.
  destruct item as [k value]. cbn [fst]. intros Hk Ht key translations.
  unfold store. destruct (decide (k = key)) as [<- | Hne]; [intros _; exact Hk|].
  rewrite lookup_alter_ne by assumption.
  destruct (t !! k); [|rewrite lookup_insert_ne by assumption]; apply Ht.
Qed.

Lemma store_file_keys_not_empty (lang_code : str) (strings : odict) (t : table) :
  file_entries_ok strings -> keys_not_empty t ->
  keys_not_empty (store_file lang_code strings t).
Proof.
  intros [_ Hs]. unfold store_file. revert t.
  induction strings as [|[k v] strings IH]; intros t Ht; [exact Ht|].
  cbn [foldl]. apply IH.
  - intros key value Hin. apply Hs. now right.
  - apply store_keys_not_empty; [|exact Ht]. cbn [fst]. apply (Hs k v). now left.
Qed.

Lemma aapt2_parser_shapes (languages : gset str) (output : str) :
  parser_shapes
    (ExtractorLocal.save_current
       (foldl ExtractorLocal.parse_line (ExtractorLocal.parser_init languages)
              (ExtractorLocal.split NEWLINE output))).
Proof.
  apply parser_shapes_save, (foldl_invariant parser_shapes).
  - split; [|split]; cbn.
    + discriminate.
    + intros k r Hr. rewrite lookup_empty in Hr. discriminate.
    + intros r d lang v Hr Hd.
      apply list_lookup_singleton_Some in Hr as [_ <-].
      rewrite lookup_empty in Hd. discriminate.
  - intros s x. apply parser_shapes_parse_line.
Qed.

Lemma aapt2_keys_not_empty (languages : gset str) (stdout : option str) :
  keys_not_empty (ExtractorLocal.extract_strings_with_aapt2 languages stdout).1.
Proof.
  destruct stdout as [output|]; cbn [ExtractorLocal.extract_strings_with_aapt2];
    [|intros key translations H; cbn in H; rewrite lookup_empty in H; discriminate].
  unfold ExtractorLocal._parse_aapt2_resources_output. cbn [fst].
  destruct (aapt2_parser_shapes languages output) as (_ & Hkeys & _). revert Hkeys.
  generalize (ExtractorLocal.save_current
       (foldl ExtractorLocal.parse_line (ExtractorLocal.parser_init languages)
              (ExtractorLocal.split NEWLINE output))).
  intros st Hkeys key translations. unfold ExtractorLocal.view. rewrite lookup_omap.
  destruct (ExtractorLocal.p_strings_data st !! key) as [r|] eqn:Hr; [|discriminate].
  intros _. now apply (Hkeys key r).
Qed.

Lemma local_extract_files_keys (parse : xml_file -> odict)
    (files : list (xml_file * str)) (st : gset str * table) :
  (forall f, file_entries_ok (parse f)) ->
  keys_not_empty st.2 ->
  keys_not_empty (foldl (ExtractorLocal.extract_file parse) st files).2.
Proof.
  intros Hparse. revert st.
  induction files as [|[f l] files IH]; intros [languages t] Hst; [exact Hst|].
  cbn [foldl]. apply IH. unfold ExtractorLocal.extract_file. cbn [snd] in *.
  now apply store_file_keys_not_empty.
Qed.

(** X28: no key of the table that [extract_all_strings] of the local
    extractor returns is the empty string, whether the table comes from
    the output of [aapt2 dump resources] or from the files, and whatever
    the tools and the XML library give for each file. *)
Theorem local_table_keys_not_empty (aapt : xml_file -> LocalXml.tool_result)
    (ET_parse : xml_file -> option element) (self self' : extractor)
    (stdout : option str) (extracted : outcome res_dir) :
  ExtractorLocal.extract_all_strings
    (fun f => LocalXml.parse_strings_xml (aapt f) (ET_parse f)) self stdout extracted
  = Return self' ->
  forall key translations, strings_data self' !! key = Some translations -> key <> [].
Proof.
  unfold ExtractorLocal.extract_all_strings.
  pose proof (aapt2_keys_not_empty (languages self) stdout) as Haapt2.
  destruct (ExtractorLocal.extract_strings_with_aapt2 (languages self) stdout)
    as [all_strings langs]. cbn [fst] in Haapt2.
  destruct (bool_decide (all_strings = ∅)); [|intros [= <-]; exact Haapt2].
  unfold ExtractorLocal._extract_strings_from_xml.
  destruct extracted as [extract_path|e]; [|discriminate].
  destruct (find_string_files extract_path) as [|file files] eqn:Hfiles;
    [intros [= <-]; exact Haapt2|].
  pose proof (local_extract_files_keys
                (fun f => LocalXml.parse_strings_xml (aapt f) (ET_parse f))
                (file :: files) (langs, all_strings)
                (fun f => local_parse_entries_ok (aapt f) (ET_parse f)) Haapt2) as H.
  destruct (foldl _ (langs, all_strings) (file :: files)) as [langs' t'].
  intros [= <-]. exact H.
Qed.

Lemma local_table_keys_not_empty_witness :
  let aapt := fun _ : xml_file => LocalXml.ToolFailed in
  let ET_parse := fun f : xml_file =>
    match content f with
    | Some bytes =>
        match Example.ET_parse bytes with
        | Parsed root => Some root
        | _ => None
        end
    | None => None
    end in
  let self := mkExtractor ∅ ∅ None in
  let self' := mkExtractor {[ lit "greet" := {[ lit "default" := lit "Hi %s" ]} ]}
                           {[ lit "default"; lit "de" ]} None in
  ExtractorLocal.extract_all_strings
    (fun f => LocalXml.parse_strings_xml (aapt f) (ET_parse f)) self None
    (Return Example.RES) = Return self'
  /\ forall key translations, strings_data self' !! key = Some translations -> key <> [].
Proof.
  intros aapt ET_parse self self'.
  assert (H : ExtractorLocal.extract_all_strings
                (fun f => LocalXml.parse_strings_xml (aapt f) (ET_parse f)) self None
                (Return Example.RES) = Return self') by (vm_compute; reflexivity).
  split; [exact H|].
  exact (local_table_keys_not_empty aapt ET_parse self self' None (Return Example.RES) H).
Defined.


(** ** The name of the output file *)

Lemma endswith_spec (p s : str) :
  endswith p s = true <-> exists front, s = front ++ p.
Proof.
  unfold endswith. rewrite startswith_spec. split.
  - intros [rest H]. exists (reverse rest).
    rewrite <- (reverse_involutive s), H, reverse_app. now rewrite reverse_involutive.
  - intros [front ->]. exists (reverse front). now rewrite reverse_app.
Qed.

Lemma before_last_absent (sep : char) (s : str) :
  sep ∉ s -> before_last sep s = None.
Proof.
  induction s as [|c s IH]; [reflexivity|]. intros Hn.
  rewrite not_elem_of_cons in Hn. destruct Hn as [Hc Hs].
  cbn [before_last]. rewrite IH by assumption.
  destruct (N.eqb_spec c sep) as [-> | _]; [now contradiction Hc | reflexivity].
Qed.

Lemma before_last_spec (sep : char) (front back : str) :
  sep ∉ back -> before_last sep (front ++ sep :: back) = Some front.
Proof.
  intros Hb. induction front as [|c front IH].
  - cbn [app before_last]. rewrite before_last_absent by assumption.
    now rewrite N.eqb_refl.
  - cbn [app before_last]. now rewrite IH.
Qed.

(** X29: the name [main] settles for the output file always ends with the
    extension of the chosen format, and settling it again changes nothing.
    A name without a dot gets the extension appended; any other name that
    lacks the extension is cut at its last dot, wherever that dot is, and
    the extension is put there. *)
Theorem output_path_extension (f : format) (output : str) :
  endswith (extension f) (output_path f output) = true
  /\ output_path f (output_path f output) = output_path f output
  /\ ((46 ∉ output) -> output_path f output = output ++ extension f)
  /\ (forall front back,
        output = front ++ [46] ++ back -> (46 ∉ back) ->
        endswith (extension f) output = false ->
        output_path f output = front ++ extension f).
Proof.
  assert (Hends : endswith (extension f) (output_path f output) = true).
  { unfold output_path. destruct (endswith (extension f) output) eqn:E; [exact E|].
    cbn [negb]. apply endswith_spec. now exists (rsplit_head 46 output). }
  split; [exact Hends|]. split; [|split].
  - unfold output_path at 1. now rewrite Hends.
  - intros Hdot. unfold output_path.
    destruct (endswith (extension f) output) eqn:E.
    + exfalso. apply endswith_spec in E as [front ->]. apply Hdot.
      rewrite elem_of_app. right. destruct f; now left.
    + cbn [negb]. unfold rsplit_head. now rewrite before_last_absent.
  - intros front back -> Hback E. unfold output_path. rewrite E. cbn [negb app].
    unfold rsplit_head. now rewrite before_last_spec.
Qed.
